(** * orphics.cosmology: Limber projection, spectrum store and forecasts

    A shallow embedding of [orphics/cosmology.py].  Floating-point numbers
    are idealised as real numbers ([R]); numpy arrays are lists; Python
    dictionaries are finite maps ([gmap]) or, where the insertion order is
    observable, association lists; exceptions are an explicit [result]
    type.  Python 3 semantics is assumed for [/] (true division). *)

From Stdlib Require Import Reals Lra Lia ZArith List String Ascii.
From stdpp Require Import gmap strings.
Import ListNotations.
Open Scope R_scope.

(** ** Python values: exceptions and numeric dtypes *)

Module Py.

Inductive exn : Type :=
| KeyError
| ValueError
| IndexError
| TypeError
| AssertionError
| NameError
| AttributeError
| NonFinite.

Inductive result (A : Type) : Type :=
| Ok (a : A)
| Raise (e : exn).
Arguments Ok {A} a.
Arguments Raise {A} e.

#[global] Instance result_ret : MRet result := fun _ a => Ok a.
#[global] Instance result_bind : MBind result := fun _ _ f m =>
  match m with
  | Ok a => f a
  | Raise e => Raise e
  end.
#[global] Instance result_fmap : FMap result := fun _ _ f m =>
  match m with
  | Ok a => Ok (f a)
  | Raise e => Raise e
  end.

(** [for x in xs: ys.append(f x)], stopping at the first exception. *)
Fixpoint forM {A B : Type} (f : A -> result B) (xs : list A) : result (list B) :=
  match xs with
  | [] => Ok []
  | x :: xs' => y ← f x; ys ← forM f xs'; Ok (y :: ys)
  end.

(** [d[k]] on a dictionary: a missing key raises [KeyError]. *)
Definition getitem {V : Type} (d : gmap string V) (k : string) : result V :=
  match d !! k with
  | Some v => Ok v
  | None => Raise KeyError
  end.

(** A field of a per-kernel dictionary. *)
Definition field {V : Type} (o : option V) : result V :=
  match o with
  | Some v => Ok v
  | None => Raise KeyError
  end.

(** A scalar (or array element) handed to a stored spectrum: numpy keeps
    the dtype of the argument apart, [int64] or [float64]. *)
Inductive num : Type :=
| NInt (n : Z)
| NFloat (x : R).

Definition num_val (x : num) : R :=
  match x with
  | NInt n => IZR n
  | NFloat r => r
  end.

Definition Rltb (x y : R) : bool := if Rlt_dec x y then true else false.
Definition Rleb (x y : R) : bool := if Rle_dec x y then true else false.
Definition Rgtb (x y : R) : bool := Rltb y x.
Definition Rgeb (x y : R) : bool := Rleb y x.
Definition Reqb (x y : R) : bool := if Req_dec_T x y then true else false.

(** Division whose divisor the caller's data can make zero.  numpy then
    produces [inf] or [nan] (with a warning, no exception); these are no
    real numbers, so the real-number model stops there with the marker
    [NonFinite]. *)
Definition fdiv (x y : R) : result R :=
  if Req_dec_T y 0 then Raise NonFinite else Ok (x / y).

(** [np.sqrt]: [nan] on a negative argument. *)
Definition fsqrt (x : R) : result R :=
  if Rlt_dec x 0 then Raise NonFinite else Ok (sqrt x).

(** [x ** y] on floats: [exp(y ln x)] on a positive base, an integer
    power on any base, [inf] or [nan] otherwise. *)
Definition fpow (x y : R) : result R :=
  if Rlt_dec 0 x then Ok (Rpower x y)
  else if Reqb (IZR (Zfloor y)) y then
    if Reqb x 0 && (Zfloor y <? 0)%Z then Raise NonFinite
    else Ok (powerRZ x (Zfloor y))
  else if Reqb x 0 && Rltb 0 y then Ok 0
  else Raise NonFinite.

(** Casting a float to an integer dtype truncates toward zero. *)
Definition Ztrunc (x : R) : Z :=
  if Rle_dec 0 x then Zfloor x else Zceil x.

(** The largest finite [float64], what [np.nan_to_num] puts for [inf]. *)
Definition float_max : R := (2 - / 2 ^ 52) * 2 ^ 1023.

End Py.
Export Py.

(** ** numpy and scipy primitives on arrays (lists) *)

Module np.

(** [np.linspace(start, stop, num)] *)
Definition linspace (start stop : R) (num : nat) : list R :=
  map (fun i => start + INR i * ((stop - start) / INR (num - 1))) (seq 0 num).

(** Slices [a[2:]], [a[:-2]], [a[1:-1]], [a[1:]], [a[:-1]]. *)
Definition from2 {A : Type} (a : list A) : list A := drop 2 a.
Definition upto_2 {A : Type} (a : list A) : list A := take (length a - 2) a.
Definition inner {A : Type} (a : list A) : list A :=
  take (length a - 2) (drop 1 a).
Definition from1 {A : Type} (a : list A) : list A := drop 1 a.
Definition upto_1 {A : Type} (a : list A) : list A := take (length a - 1) a.

(** Elementwise arithmetic on arrays of one shape. *)
Definition vadd (a b : list R) : list R := zip_with Rplus a b.
Definition vsub (a b : list R) : list R := zip_with Rminus a b.
Definition vmul (a b : list R) : list R := zip_with Rmult a b.
Definition vdiv (a b : list R) : list R := zip_with Rdiv a b.
Definition vscale (c : R) (a : list R) : list R := map (fun x => c * x) a.

Definition sum (a : list R) : R := fold_right Rplus 0 a.
Definition dot (a b : list R) : R := sum (vmul a b).

(** Boolean-mask indexing [a[m]] and masked assignment [a[m] = v]. *)
Fixpoint mask_select {A : Type} (m : list bool) (a : list A) : list A :=
  match m, a with
  | b :: m', x :: a' => if b then x :: mask_select m' a' else mask_select m' a'
  | _, _ => []
  end.

Definition mask_set {A : Type} (a : list A) (m : list bool) (v : A) : list A :=
  zip_with (fun x (b : bool) => if b then v else x) a m.

(** [np.arange(lo, hi + 1, 1)] on integers. *)
Definition arange_incl (lo hi : Z) : list Z :=
  map (fun i => (lo + Z.of_nat i)%Z) (seq 0 (Z.to_nat (hi + 1 - lo))).

(** [scipy.interpolate.interp1d(xs, ys, bounds_error=False, ...)],
    linear, on samples sorted by [xs]: the value on the segment that holds
    [x], nothing outside the sampled range. *)
Fixpoint interp_segment (xs ys : list R) (x : R) : option R :=
  match xs, ys with
  | x0 :: xs', y0 :: ys' =>
      match xs', ys' with
      | x1 :: _, y1 :: _ =>
          if Rleb x0 x && Rleb x x1
          then Some ((y1 - y0) / (x1 - x0) * (x - x0) + y0)
          else interp_segment xs' ys' x
      | _, _ => None
      end
  | _, _ => None
  end.

(** [fill_value=fill] with a finite [fill]. *)
Definition interp1d (xs ys : list R) (fill : R) (x : R) : R :=
  default fill (interp_segment xs ys x).

(** [fill_value=np.inf]: outside the range the value is not a real. *)
Definition interp1d_inf (xs ys : list R) (x : R) : result R :=
  match interp_segment xs ys x with
  | Some v => Ok v
  | None => Raise NonFinite
  end.

(** [np.piecewise(x, condlist, funclist)] at one element: the output is
    allocated with [zeros_like(x)], so it has the dtype of [x]; each
    function's value is assigned where its condition holds, in order, and
    a float assigned into an integer array is truncated. *)
Definition cast_like (x : num) (v : R) : num :=
  match x with
  | NInt _ => NInt (Ztrunc v)
  | NFloat _ => NFloat v
  end.

Definition piecewise (x : num) (condlist : list bool) (funclist : list (R -> R)) : num :=
  fold_left
    (fun (y : num) (cf : bool * (R -> R)) =>
       if cf.1 then cast_like x (cf.2 (num_val x)) else y)
    (zip condlist funclist)
    (cast_like x 0).

(** [a.min()] and [a.max()]: [ValueError] on an empty array. *)
Definition amin (a : list R) : result R :=
  match a with
  | [] => Raise ValueError
  | x :: a' => Ok (fold_left Rmin a' x)
  end.

Definition amax (a : list R) : result R :=
  match a with
  | [] => Raise ValueError
  | x :: a' => Ok (fold_left Rmax a' x)
  end.

(** [np.dot] of two vectors handed in by the caller: [ValueError] when
    their lengths differ. *)
Definition dot_checked (a b : list R) : result R :=
  if (length a =? length b)%nat then Ok (dot a b) else Raise ValueError.

(** scipy sorts the samples by abscissa, with a stable sort, before it
    interpolates. *)
Fixpoint insert_sample (p : R * R) (l : list (R * R)) : list (R * R) :=
  match l with
  | [] => [p]
  | q :: l' => if Rleb p.1 q.1 then p :: l else q :: insert_sample p l'
  end.

Definition sort_samples (l : list (R * R)) : list (R * R) :=
  foldr insert_sample [] l.

(** [interp1d(xs, ys, bounds_error=False, fill_value=fill)] on samples in
    any order. *)
Definition interp1d_unsorted (xs ys : list R) (fill : R) (x : R) : R :=
  let s := sort_samples (zip xs ys) in
  interp1d (map fst s) (map snd s) fill x.

End np.

(** Monadic left fold: a [for] loop threading an accumulator. *)
Fixpoint foldM {A B : Type} (f : B -> A -> result B) (b : B) (xs : list A) : result B :=
  match xs with
  | [] => Ok b
  | x :: xs' => b' ← f b x; foldM f b' xs'
  end.

(** ** Insertion-ordered dictionaries (the kernel registry) *)

Module odict.

Fixpoint get {V : Type} (k : string) (d : list (string * V)) : option V :=
  match d with
  | [] => None
  | (k', v) :: d' => if String.eqb k k' then Some v else get k d'
  end.

(** [d[k] = v]: an existing key keeps its position. *)
Fixpoint set {V : Type} (k : string) (v : V) (d : list (string * V)) : list (string * V) :=
  match d with
  | [] => [(k, v)]
  | (k', v') :: d' =>
      if String.eqb k k' then (k, v) :: d' else (k', v') :: set k v d'
  end.

Definition keys {V : Type} (d : list (string * V)) : list string := map fst d.

Definition mem {V : Type} (k : string) (d : list (string * V)) : bool :=
  existsb (String.eqb k) (keys d).

Definition getitem {V : Type} (d : list (string * V)) (k : string) : result V :=
  match get k d with
  | Some v => Ok v
  | None => Raise KeyError
  end.

End odict.

(** ** Cosmology: the parameters derived before CAMB is called *)

Module CosmoParams.

(** The attributes [Cosmology.__init__] sets from [paramDict]. *)
Record derived : Type := {
  H0 : R; h : R; omch2 : R; om : R; ombh2 : R; ob : R;
  tau : R; mnu : R; w0 : R
}.

(** Division of Python floats raises on a zero divisor; inside a [try:]
    whose [except:] catches everything only the failure is observable. *)
Definition pydiv (x y : R) : option R :=
  if Req_dec_T y 0 then None else Some (x / y).

(** [defaultCosmology['tau']] *)
Definition default_tau : R := 0.06.

(** [Cosmology.__init__] up to the construction of the CAMB parameters:
    the constants dictionary as it is left (it is updated in place) and
    the derived attributes. *)
Definition __init__ (paramDict constDict : gmap string R)
    : result (gmap string R * derived) :=
  let cosmo := paramDict in
  TCMB ← getitem constDict "TCMB";
  let c := <["TCMBmuK"%string := TCMB * 1e6]> constDict in
  H0 ← getitem cosmo "H0";
  let h := H0 / 100 in
  cdm ← match (a ← cosmo !! "omch2"%string; b ← cosmo !! "ombh2"%string;
               q ← pydiv (a + b) (h ^ 2); Some (a, q)) with
        | Some r => Ok r
        | None =>
            om ← getitem cosmo "om"; ob ← getitem cosmo "ob";
            Ok ((om - ob) * H0 * H0 / 100 / 100, om)
        end;
  bar ← match (b ← cosmo !! "ombh2"%string; q ← pydiv b (h ^ 2); Some (b, q)) with
        | Some r => Ok r
        | None => ob ← getitem cosmo "ob"; Ok (ob * H0 * H0 / 100 / 100, ob)
        end;
  let tau := default default_tau (cosmo !! "tau"%string) in
  mnu ← getitem cosmo "mnu";
  w0 ← getitem cosmo "w0";
  Ok (c, {| H0 := H0; h := h; omch2 := cdm.1; om := cdm.2;
            ombh2 := bar.1; ob := bar.2; tau := tau; mnu := mnu; w0 := w0 |}).

End CosmoParams.

(** ** LimberCosmology: redshift grid, kernels, Limber integrals *)

Module Limber.

(** The CAMB objects the class consumes ([self.results], [self.pars]). *)
Record camb_results : Type := {
  conformal_time : R -> R;
  tau_maxvis : R;
  comoving_radial_distance : R -> R;
  redshift_at_comoving_radial_distance : R -> R;
  hubble_parameter : R -> R;
  (** [camb.get_matter_power_interpolator(...).P(z, k)] *)
  matter_power : R -> R -> R
}.

(** What [Cosmology.__init__] leaves in [self] for the subclass. *)
Record Cosmology : Type := {
  omch2 : R;
  ombh2 : R;
  omnuh2 : R;
  results : camb_results
}.

(** [kernel['dndz']]: the string sentinel ["delta"] or a callable. *)
Inductive dndz_t : Type :=
| dndz_delta
| dndz_func (p : R -> R).

Inductive kernel_type : Type := lensing | counts.

(** One entry of [self.kernels]: a dictionary whose fields appear as the
    builder goes; [window_z] keeps the samples given to [interp1d]. *)
Record kernel : Type := {
  k_dndz : option dndz_t;
  k_zdelta : option R;
  k_zmin : option R;
  k_zmax : option R;
  k_window_z : option (list R * list R);
  k_W : option (list R);
  k_type : option kernel_type
}.

Definition kernel_empty : kernel :=
  {| k_dndz := None; k_zdelta := None; k_zmin := None; k_zmax := None;
     k_window_z := None; k_W := None; k_type := None |}.

Definition set_dndz (d : dndz_t) (k : kernel) : kernel :=
  {| k_dndz := Some d; k_zdelta := k_zdelta k; k_zmin := k_zmin k;
     k_zmax := k_zmax k; k_window_z := k_window_z k; k_W := k_W k;
     k_type := k_type k |}.
Definition set_zdelta (z : R) (k : kernel) : kernel :=
  {| k_dndz := k_dndz k; k_zdelta := Some z; k_zmin := k_zmin k;
     k_zmax := k_zmax k; k_window_z := k_window_z k; k_W := k_W k;
     k_type := k_type k |}.
Definition set_zmin (z : R) (k : kernel) : kernel :=
  {| k_dndz := k_dndz k; k_zdelta := k_zdelta k; k_zmin := Some z;
     k_zmax := k_zmax k; k_window_z := k_window_z k; k_W := k_W k;
     k_type := k_type k |}.
Definition set_zmax (z : R) (k : kernel) : kernel :=
  {| k_dndz := k_dndz k; k_zdelta := k_zdelta k; k_zmin := k_zmin k;
     k_zmax := Some z; k_window_z := k_window_z k; k_W := k_W k;
     k_type := k_type k |}.
Definition set_window_z (w : list R * list R) (k : kernel) : kernel :=
  {| k_dndz := k_dndz k; k_zdelta := k_zdelta k; k_zmin := k_zmin k;
     k_zmax := k_zmax k; k_window_z := Some w; k_W := k_W k;
     k_type := k_type k |}.
Definition set_W (w : list R) (k : kernel) : kernel :=
  {| k_dndz := k_dndz k; k_zdelta := k_zdelta k; k_zmin := k_zmin k;
     k_zmax := k_zmax k; k_window_z := k_window_z k; k_W := Some w;
     k_type := k_type k |}.
Definition set_type (t : kernel_type) (k : kernel) : kernel :=
  {| k_dndz := k_dndz k; k_zdelta := k_zdelta k; k_zmin := k_zmin k;
     k_zmax := k_zmax k; k_window_z := k_window_z k; k_W := k_W k;
     k_type := Some t |}.

Record LimberCosmology : Type := {
  cosmo : Cosmology;
  chistar : R;
  zstar : R;
  kmax : R;
  chis : list R;
  zs : list R;
  dchis : list R;
  Hzs : list R;
  kernels : list (string * kernel);
  skipPower : bool;
  PK : option (R -> R -> R);
  precalcFactor : option (list R);
  Clmatrix : option (gmap string (list R));
  ellrange : option (list R)
}.

Definition _cSpeedKmPerSec : R := 299792.458.

Definition set_kernels (ks : list (string * kernel)) (s : LimberCosmology) : LimberCosmology :=
  {| cosmo := cosmo s; chistar := chistar s; zstar := zstar s; kmax := kmax s;
     chis := chis s; zs := zs s; dchis := dchis s; Hzs := Hzs s;
     kernels := ks; skipPower := skipPower s; PK := PK s;
     precalcFactor := precalcFactor s; Clmatrix := Clmatrix s;
     ellrange := ellrange s |}.

Definition set_power (pk : R -> R -> R) (pf : list R) (s : LimberCosmology) : LimberCosmology :=
  {| cosmo := cosmo s; chistar := chistar s; zstar := zstar s; kmax := kmax s;
     chis := chis s; zs := zs s; dchis := dchis s; Hzs := Hzs s;
     kernels := kernels s; skipPower := skipPower s; PK := Some pk;
     precalcFactor := Some pf; Clmatrix := Clmatrix s;
     ellrange := ellrange s |}.

Definition set_Cls (m : gmap string (list R)) (ells : list R) (s : LimberCosmology) : LimberCosmology :=
  {| cosmo := cosmo s; chistar := chistar s; zstar := zstar s; kmax := kmax s;
     chis := chis s; zs := zs s; dchis := dchis s; Hzs := Hzs s;
     kernels := kernels s; skipPower := skipPower s; PK := PK s;
     precalcFactor := precalcFactor s; Clmatrix := Some m;
     ellrange := Some ells |}.

(** Methods mutate [self] and may raise: a state-and-exception monad.
    The state after an exception is the one reached when it was raised. *)
Definition M (A : Type) : Type := LimberCosmology -> result A * LimberCosmology.

Definition ret {A : Type} (a : A) : M A := fun s => (Ok a, s).
Definition bind {A B : Type} (m : M A) (f : A -> M B) : M B :=
  fun s => match m s with
           | (Ok a, s') => f a s'
           | (Raise e, s') => (Raise e, s')
           end.
Definition raise {A : Type} (e : exn) : M A := fun s => (Raise e, s).
Definition get_self : M LimberCosmology := fun s => (Ok s, s).
Definition modify (f : LimberCosmology -> LimberCosmology) : M unit :=
  fun s => (Ok tt, f s).
Definition lift {A : Type} (r : result A) : M A := fun s => (r, s).

Notation "'let*' x := m 'in' k" := (bind m (fun x => k))
  (at level 10, x name, m at level 100, k at level 200, only parsing).
Notation "m ;;; k" := (bind m (fun _ => k))
  (at level 100, k at level 200, only parsing).

(** [self.kernels[tag][...] = ...] *)
Definition update_kernel (tag : string) (f : kernel -> kernel) : M unit :=
  let* self := get_self in
  let* k := lift (odict.getitem (kernels self) tag) in
  modify (set_kernels (odict.set tag (f k) (kernels self))).

(** The lensing prefactor of [_generateWindow] and [_initWkappaCMB]:
    [1.5*(omch2+ombh2+omnuh2)*100.*100.*(1.+zs)*chis], elementwise. *)
Definition lens_prefactor (c : Cosmology) (z chi : R) : R :=
  1.5 * (omch2 c + ombh2 c + omnuh2 c) * 100 * 100 * (1 + z) * chi.

Definition _initWkappaCMB (s : LimberCosmology) : LimberCosmology :=
  let star := map (fun chi => (chistar s - chi) / chistar s) (chis s) in
  let iwcmb :=
    zip_with (fun (zc : R * R) (wh : R * R) =>
                lens_prefactor (cosmo s) zc.1 zc.2 * wh.1 / wh.2 / _cSpeedKmPerSec)
      (zip (zs s) (chis s)) (zip star (Hzs s)) in
  set_kernels
    (odict.set "cmb" (set_window_z (zs s, star) (set_W iwcmb kernel_empty))
       (kernels s)) s.

(** [_initPower]: the power-spectrum provider (CAMB's interpolator, or the
    override, called as [pk(ks, zs)]) and the Limber prefactor
    [Hzs**2. /chis/chis/_cSpeedKmPerSec**2.]. *)
Definition _initPower (pkgrid_override : option (R -> R -> R)) (s : LimberCosmology) : LimberCosmology :=
  let pk := match pkgrid_override with
            | None => matter_power (results (cosmo s))
            | Some pkgrid => fun z k => pkgrid k z
            end in
  set_power pk
    (zip_with (fun H chi => H ^ 2 / chi / chi / _cSpeedKmPerSec ^ 2) (Hzs s) (chis s)) s.

(** [LimberCosmology.__init__], after [Cosmology.__init__] has run. *)
Definition __init__ (c : Cosmology) (numz : nat) (kmax : R) (skipPower : bool)
    (pkgrid_override : option (R -> R -> R)) : LimberCosmology :=
  let chistar := conformal_time (results c) 0 - tau_maxvis (results c) in
  let zstar := redshift_at_comoving_radial_distance (results c) chistar in
  let chis0 := np.linspace 0 chistar numz in
  let zs0 := map (redshift_at_comoving_radial_distance (results c)) chis0 in
  let dchis := map (fun d => d / 2) (np.vsub (np.from2 chis0) (np.upto_2 chis0)) in
  let chis := np.inner chis0 in
  let zs := np.inner zs0 in
  let Hzs := map (hubble_parameter (results c)) zs in
  let s := {| cosmo := c; chistar := chistar; zstar := zstar; kmax := kmax;
              chis := chis; zs := zs; dchis := dchis; Hzs := Hzs;
              kernels := []; skipPower := skipPower; PK := None;
              precalcFactor := None; Clmatrix := None; ellrange := None |} in
  let s := _initWkappaCMB s in
  if skipPower then s else _initPower pkgrid_override s.

(** [_lensWindow]: the closed form for a delta-function source, a
    fixed-count trapezoid rule otherwise. *)
Definition _lensWindow (self : LimberCosmology) (k : kernel) (numzIntegral : option nat) : result (list R) :=
  d ← field (k_dndz k);
  match d with
  | dndz_delta =>
      zthis ← field (k_zdelta k);
      let retvals :=
        map (fun chi => 1 - chi / comoving_radial_distance (results (cosmo self)) zthis)
          (chis self) in
      Ok (np.mask_set retvals (map (fun z => Rgtb z zthis) (zs self)) 0)
  | dndz_func p =>
      forM (fun cz : R * R =>
              let chinow := cz.1 in
              let znow := cz.2 in
              zmax ← field (k_zmax k);
              if Rgtb znow zmax then Ok 0
              else
                let _galFunc := fun z =>
                  p z * (1 - chinow / comoving_radial_distance (results (cosmo self)) z) in
                zmin ← field (k_zmin k);
                n ← match numzIntegral with
                    | Some n => Ok n
                    | None => Raise TypeError
                    end;
                let zs0 := np.linspace (Rmax znow zmin) zmax n in
                let dzs := map (fun d => d / 2) (np.vsub (np.from2 zs0) (np.upto_2 zs0)) in
                Ok (np.dot dzs (map _galFunc (np.inner zs0))))
        (zip (chis self) (zs self))
  end.

Definition grid (self : LimberCosmology) : list (R * R * R) :=
  zip (zip (zs self) (chis self)) (Hzs self).

(** [_generateWindow]: lensing window when [bias] is [None], biased
    counts (plus an optional magnification correction) otherwise. *)
Definition _generateWindow (tag : string) (bias magbias : option R)
    (numzIntegral : option nat) : M unit :=
  match bias with
  | None =>
      let* self := get_self in
      let* k := lift (odict.getitem (kernels self) tag) in
      let* retvals := lift (_lensWindow self k numzIntegral) in
      update_kernel tag (set_window_z (zs self, retvals)) ;;;
      update_kernel tag
        (set_W (zip_with (fun r (g : R * R * R) =>
                            r * 1.5 * (omch2 (cosmo self) + ombh2 (cosmo self) + omnuh2 (cosmo self))
                              * 100 * 100 * (1 + g.1.1) * g.1.2 / g.2 / _cSpeedKmPerSec)
                  retvals (grid self))) ;;;
      update_kernel tag (set_type lensing)
  | Some b =>
      let* self := get_self in
      let* k := lift (odict.getitem (kernels self) tag) in
      let* d := lift (field (k_dndz k)) in
      match d with
      | dndz_delta => raise AssertionError
      | dndz_func p =>
          let W0 := map (fun z => z * 0 + b * p z) (zs self) in
          update_kernel tag (set_W W0) ;;;
          let* zmin := lift (field (k_zmin k)) in
          let W1 := np.mask_set W0 (map (fun z => Rltb z zmin) (zs self)) 0 in
          update_kernel tag (set_W W1) ;;;
          let* zmax := lift (field (k_zmax k)) in
          let W2 := np.mask_set W1 (map (fun z => Rgtb z zmax) (zs self)) 0 in
          update_kernel tag (set_W W2) ;;;
          update_kernel tag (set_type counts) ;;;
          match magbias with
          | None => ret tt
          | Some s =>
              let* retvals := lift (_lensWindow self k numzIntegral) in
              let magcorrection :=
                zip_with (fun r (g : R * R * R) =>
                            r * 1.5 * (omch2 (cosmo self) + ombh2 (cosmo self) + omnuh2 (cosmo self))
                              * 100 * 100 * (1 + g.1.1) * g.1.2 * (5 * s - 2)
                              / g.2 ^ 2 / _cSpeedKmPerSec)
                  retvals (grid self) in
              update_kernel tag (set_W (np.vadd W2 magcorrection))
          end
      end
  end.

(** The two guards shared by the builders. *)
Definition check_tag (tag : string) (ignore_exists : bool) : M unit :=
  let* self := get_self in
  if negb ignore_exists && odict.mem tag (kernels self) then raise AssertionError
  else if String.eqb tag "cmb" then raise AssertionError
  else ret tt.

Definition addDeltaNz (tag : string) (zsource : R) (bias magbias : option R)
    (ignore_exists : bool) : M unit :=
  check_tag tag ignore_exists ;;;
  modify (fun s => set_kernels (odict.set tag kernel_empty (kernels s)) s) ;;;
  update_kernel tag (set_dndz dndz_delta) ;;;
  update_kernel tag (set_zdelta zsource) ;;;
  _generateWindow tag bias magbias None.

Definition addStepNz (tag : string) (zmin zmax : R) (bias magbias : option R)
    (numzIntegral : option nat) (ignore_exists : bool) : M unit :=
  check_tag tag ignore_exists ;;;
  modify (fun s => set_kernels (odict.set tag kernel_empty (kernels s)) s) ;;;
  update_kernel tag (set_zmin zmin) ;;;
  update_kernel tag (set_zmax zmax) ;;;
  let normStep := zmax - zmin in
  update_kernel tag (set_dndz (dndz_func (fun _ => 1 / normStep))) ;;;
  _generateWindow tag bias magbias numzIntegral.

(** [addNz]: a tabulated redshift distribution over the bins [zedges].
    scipy rejects an empty table; what it does with a table of a single
    sample depends on its version. *)
Definition addNz (tag : string) (zedges nz : list R) (bias magbias : option R)
    (numzIntegral : option nat) (ignore_exists : bool) : M unit :=
  check_tag tag ignore_exists ;;;
  let dzs := np.vsub (np.from1 zedges) (np.upto_1 zedges) in
  let* norm := lift (np.dot_checked dzs nz) in
  let zmids := map (fun s => s / 2) (np.vadd (np.from1 zedges) (np.upto_1 zedges)) in
  modify (fun s => set_kernels (odict.set tag kernel_empty (kernels s)) s) ;;;
  let* pdf := lift (forM (fun n => fdiv n norm) nz) in
  let* _ := lift (if (length zmids =? 0)%nat then Raise ValueError else Ok tt) in
  update_kernel tag (set_dndz (dndz_func (np.interp1d_unsorted zmids pdf 0))) ;;;
  let* lo := lift (np.amin zedges) in
  update_kernel tag (set_zmin lo) ;;;
  let* hi := lift (np.amax zedges) in
  update_kernel tag (set_zmax hi) ;;;
  _generateWindow tag bias magbias numzIntegral.

(** [itertools.combinations_with_replacement(keys, 2)] *)
Fixpoint combinations_with_replacement2 {A : Type} (l : list A) : list (A * A) :=
  match l with
  | [] => []
  | x :: t => map (pair x) (x :: t) ++ combinations_with_replacement2 t
  end.

(** The dictionary key [key1+","+key2]. *)
Definition pairkey (p : string * string) : string := p.1 +:+ "," +:+ p.2.

Definition listKeys (autoOnly : bool) (self : LimberCosmology) : list (string * string) :=
  let ks := odict.keys (kernels self) in
  if autoOnly then zip ks ks else combinations_with_replacement2 ks.

(** The wavenumbers [k = (ell+0.5)/self.chis] and the window [w]. *)
Definition wavenumbers (self : LimberCosmology) (ell : R) : list R :=
  map (fun chi => (ell + 0.5) / chi) (chis self).

Definition kwindow (self : LimberCosmology) (k : list R) : list R :=
  let w := map (fun _ => 1) (chis self) in
  let w := np.mask_set w (map (fun ki => Rltb ki 1e-4) k) 0 in
  np.mask_set w (map (fun ki => Rgeb ki (kmax self)) k) 0.

Definition zmask (self : LimberCosmology) (zmin : R) : list bool :=
  map (fun z => Rgeb z zmin) (zs self).

(** One pass of the multipole loop: [common] and then, for every pair of
    [listKeys], [estCl] appended to [retList[key1+","+key2]]. *)
Definition cls_at (self : LimberCosmology)
    (lk : list (string * string)) (zmin : R)
    (retList : gmap string (list R)) (ell : R) : result (gmap string (list R)) :=
  let k := wavenumbers self ell in
  let w := kwindow self k in
  pk ← match PK self with Some f => Ok f | None => Raise AttributeError end;
  let pkin := zip_with pk (zs self) k in
  pf ← match precalcFactor self with Some f => Ok f | None => Raise AttributeError end;
  let common := np.mask_select (zmask self zmin) (np.vmul (np.vmul w pkin) pf) in
  foldM (fun (retList : gmap string (list R)) (p : string * string) =>
           k1 ← odict.getitem (kernels self) p.1;
           W1 ← field (k_W k1);
           k2 ← odict.getitem (kernels self) p.2;
           W2 ← field (k_W k2);
           let estCl :=
             np.dot (np.mask_select (zmask self zmin) (dchis self))
               (np.vmul common (np.mask_select (zmask self zmin) (np.vmul W1 W2))) in
           Ok (alter (fun l => l ++ [estCl]) (pairkey p) retList))
    retList lk.

Definition generateCls (ellrange : list R) (autoOnly : bool) (zmin : R) : M unit :=
  let* self0 := get_self in
  (if skipPower self0 then modify (_initPower None) else ret tt) ;;;
  let* self := get_self in
  let lk := listKeys autoOnly self in
  let retList := fold_left (fun (m : gmap string (list R)) p => <[pairkey p := []]> m) lk ∅ in
  let* retList := lift (foldM (cls_at self lk zmin) retList ellrange) in
  modify (set_Cls retList ellrange).

(** [getCl]: the canonical key, on [KeyError] the reversed one. *)
Definition getCl (self : LimberCosmology) (key1 key2 : string) : result (list R) :=
  match Clmatrix self with
  | None => Raise AttributeError
  | Some m =>
      match m !! pairkey (key1, key2) with
      | Some cl => Ok cl
      | None => getitem m (pairkey (key2, key1))
      end
  end.

End Limber.

(** ** TheorySpectra: the spectrum store *)

Module Theory.

(** A stored spectrum: a function of the multipole handed to it. *)
Abbreviation spectrum := (num -> R) (only parsing).

Record TheorySpectra : Type := {
  _uCl : gmap string spectrum;
  _lCl : gmap string spectrum;
  _gCl : gmap string spectrum
}.

Definition __init__ : TheorySpectra :=
  {| _uCl := ∅; _lCl := ∅; _gCl := ∅ |}.

Definition upper_ascii (c : ascii) : ascii :=
  let n := N_of_ascii c in
  if (97 <=? n)%N && (n <=? 122)%N then ascii_of_N (n - 32) else c.
Definition lower_ascii (c : ascii) : ascii :=
  let n := N_of_ascii c in
  if (65 <=? n)%N && (n <=? 90)%N then ascii_of_N (n + 32) else c.

Fixpoint upper (s : string) : string :=
  match s with
  | EmptyString => EmptyString
  | String c s' => String (upper_ascii c) (upper s')
  end.

Fixpoint all_TEB (s : string) : bool :=
  match s with
  | EmptyString => true
  | String c s' =>
      (Ascii.eqb c "T" || Ascii.eqb c "E" || Ascii.eqb c "B") && all_TEB s'
  end.

(** The assertion's message mentions [bcolors], a name the module never
    binds: a failing assertion surfaces as [NameError]. *)
Definition validateMapType (mapXYType : string) : result unit :=
  if all_TEB mapXYType && (String.length mapXYType =? 2)%nat then Ok tt
  else Raise NameError.

(** [a[ells<lpad]] *)
Definition below {A : Type} (ells : list R) (lpad : R) (a : list A) : list A :=
  np.mask_select (map (fun l => Rltb l lpad) ells) a.

(** The interpolator both load operations build: with [fill_zero], zero
    outside the samples below [lpad]; without, [np.piecewise] of that
    interpolator up to [lpad] and the tail [fillval*(lpad/y)**4.] above. *)
Definition edge_interp (ells Cls : list R) (lpad : R) (fill_zero : bool) : result spectrum :=
  if negb fill_zero then
    match last (below ells lpad Cls) with
    | None => Raise IndexError
    | Some fillval =>
        Ok (fun x =>
              num_val
                (np.piecewise x
                   [Rleb (num_val x) lpad; Rgtb (num_val x) lpad]
                   [np.interp1d (below ells lpad ells) (below ells lpad Cls) 0;
                    fun y => fillval * (lpad / y) ^ 4]))
    end
  else
    let fillval := 0 in
    Ok (fun x => np.interp1d (below ells lpad ells) (below ells lpad Cls) fillval (num_val x)).

Definition loadGenericCls (self : TheorySpectra) (ells Cls : list R) (keyName : string)
    (lpad : R) (fill_zero : bool) : result TheorySpectra :=
  f ← edge_interp ells Cls lpad fill_zero;
  Ok {| _uCl := _uCl self; _lCl := _lCl self; _gCl := <[keyName := f]> (_gCl self) |}.

Definition loadCls (self : TheorySpectra) (ell Cl : list R) (XYType : string)
    (lensed : bool) (lpad : R) (fill_zero : bool) : result TheorySpectra :=
  let mapXYType := upper XYType in
  _ ← validateMapType mapXYType;
  f ← edge_interp ell Cl lpad fill_zero;
  if lensed
  then Ok {| _uCl := _uCl self; _lCl := <[XYType := f]> (_lCl self); _gCl := _gCl self |}
  else Ok {| _uCl := <[XYType := f]> (_uCl self); _lCl := _lCl self; _gCl := _gCl self |}.

Definition zspecs : list string := ["EB"; "TB"]%string.

Definition in_zspecs (s : string) : bool := existsb (String.eqb s) zspecs.

(** [_Cl], up to the function it applies to [ell]: the lookup in the
    lensed or unlensed table, zero for the parity-odd codes on a miss. *)
Definition _Cl_func (self : TheorySpectra) (XYType : string) (lensed : bool) : result spectrum :=
  let mapXYType := upper XYType in
  _ ← validateMapType mapXYType;
  let mapXYType := if String.eqb mapXYType "ET" then "TE"%string else mapXYType in
  match (if lensed then _lCl self else _uCl self) !! mapXYType with
  | Some f => Ok f
  | None =>
      if in_zspecs XYType || in_zspecs (String.rev XYType)
      then Ok (fun ell => num_val ell * 0)
      else Raise KeyError
  end.

Definition _Cl (self : TheorySpectra) (XYType : string) (ell : num) (lensed : bool) : result R :=
  f ← _Cl_func self XYType lensed; Ok (f ell).
Definition uCl (self : TheorySpectra) (XYType : string) (ell : num) : result R :=
  _Cl self XYType ell false.
Definition lCl (self : TheorySpectra) (XYType : string) (ell : num) : result R :=
  _Cl self XYType ell true.

(** [gCl], up to the function it applies to [ell]. *)
Definition gCl_func (self : TheorySpectra) (keyName : string) : result spectrum :=
  if (String.length keyName =? 3)%nat then
    match keyName with
    | String c rest =>
        let ultype := lower_ascii c in
        if Ascii.eqb ultype "u" then _Cl_func self rest false
        else if Ascii.eqb ultype "l" then _Cl_func self rest true
        else Raise ValueError
    | EmptyString => Raise ValueError
    end
  else
    match _gCl self !! keyName with
    | Some f => Ok f
    | None => getitem (_gCl self) (String.rev keyName)
    end.

Definition gCl (self : TheorySpectra) (keyName : string) (ell : num) : result R :=
  f ← gCl_func self keyName; Ok (f ell).

End Theory.

(** ** LensForecast: binned covariances and the joint estimator *)

Module Forecast.
Import Theory.

(** A noise curve [Nls[spec]]; outside the sampled range an interpolated
    curve is [inf]. *)
Abbreviation noise_curve := (num -> result R) (only parsing).

Record LensForecast : Type := {
  theory : TheorySpectra;
  Nls : gmap string noise_curve;
  _haveKK : bool;
  _haveKG : bool;
  _haveGG : bool;
  _haveSS : bool;
  _haveSG : bool;
  _haveKS : bool
}.

Definition __init__ (th : option TheorySpectra) : LensForecast :=
  {| theory := match th with None => Theory.__init__ | Some t => t end;
     Nls := ∅;
     _haveKK := false; _haveKG := false; _haveGG := false;
     _haveSS := false; _haveSG := false; _haveKS := false |}.

Definition with_spec (self : LensForecast) (th : TheorySpectra)
    (nls : gmap string noise_curve) (flag : string) : LensForecast :=
  {| theory := th; Nls := nls;
     _haveKK := _haveKK self || String.eqb flag "kk";
     _haveKG := _haveKG self || String.eqb flag "kg";
     _haveGG := _haveGG self || String.eqb flag "gg";
     _haveSS := _haveSS self || String.eqb flag "ss";
     _haveSG := _haveSG self || String.eqb flag "sg";
     _haveKS := _haveKS self || String.eqb flag "ks" |}.

(** The [load*] methods call [theory.loadGenericCls] with its defaults,
    [lpad=9000] and [fill_zero=True]. *)
Definition loadKK (self : LensForecast) (ellsCls Cls ellsNls Nl : list R) : result LensForecast :=
  let nls := <["kk"%string := fun x => np.interp1d_inf ellsNls Nl (num_val x)]> (Nls self) in
  th ← Theory.loadGenericCls (theory self) ellsCls Cls "kk" 9000 true;
  Ok (with_spec self th nls "kk").

Definition loadGG (self : LensForecast) (ellsCls Cls : list R) (ngal : R) : result LensForecast :=
  let nls := <["gg"%string := fun _ => fdiv 1 (ngal * 1.18e7)]> (Nls self) in
  th ← Theory.loadGenericCls (theory self) ellsCls Cls "gg" 9000 true;
  Ok (with_spec self th nls "gg").

Definition loadSS (self : LensForecast) (ellsCls Cls : list R) (ngal : R)
    (shapeNoise : option R) : result LensForecast :=
  let sn := match shapeNoise with
            | None => 0.3
            | Some s => if Rltb s 1e-9 then 0.3 else s
            end in
  let nls := <["ss"%string :=
                 fun x => n ← fdiv (sn * sn) (2 * ngal * 1.18e7);
                          Ok (num_val x * 0 + n)]> (Nls self) in
  th ← Theory.loadGenericCls (theory self) ellsCls Cls "ss" 9000 true;
  Ok (with_spec self th nls "ss").

Definition loadSG (self : LensForecast) (ellsCls Cls : list R) : result LensForecast :=
  th ← Theory.loadGenericCls (theory self) ellsCls Cls "sg" 9000 true;
  Ok (with_spec self th (Nls self) "sg").

Definition loadKG (self : LensForecast) (ellsCls Cls : list R) : result LensForecast :=
  th ← Theory.loadGenericCls (theory self) ellsCls Cls "kg" 9000 true;
  Ok (with_spec self th (Nls self) "kg").

Definition loadKS (self : LensForecast) (ellsCls Cls : list R) : result LensForecast :=
  th ← Theory.loadGenericCls (theory self) ellsCls Cls "ks" 9000 true;
  Ok (with_spec self th (Nls self) "ks").

Definition loadGenericCls (self : LensForecast) (specType : string)
    (ellsCls Cls : list R) (noise : option (list R * list R)) : result LensForecast :=
  let nls := match noise with
             | Some (ellsNls, Nl) =>
                 <[specType := fun x => np.interp1d_inf ellsNls Nl (num_val x)]> (Nls self)
             | None => Nls self
             end in
  th ← Theory.loadGenericCls (theory self) ellsCls Cls specType 9000 true;
  Ok (with_spec self th nls "").

(** [a,b = spec] *)
Definition unpack2 (spec : string) : result (ascii * ascii) :=
  match spec with
  | String a (String b EmptyString) => Ok (a, b)
  | _ => Raise ValueError
  end.

(** [X+W] for two characters. *)
Definition cat2 (a b : ascii) : string := String a (String b EmptyString).

(** [_bin_cls]: the multipole-weighted average of the spectrum, plus the
    noise curve for an auto spectrum when [noise] is set, over the
    integer multipoles [ell_left .. ell_right]. *)
Definition _bin_cls (self : LensForecast) (spec : string) (ell_left ell_right : Z)
    (noise : bool) : result R :=
  ab ← unpack2 spec;
  let ells := np.arange_incl ell_left ell_right in
  f ← gCl_func (theory self) spec;
  let cls := map (fun l => f (NInt l)) ells in
  tot ← (if noise then
           if Ascii.eqb ab.1 ab.2 then
             N ← getitem (Nls self) spec;
             Noise ← forM (fun l => N (NInt l)) ells;
             Ok (np.vadd cls Noise)
           else Ok (map (fun c => c + 0) cls)
         else Ok (map (fun c => c + 0) cls));
  fdiv (np.sum (np.vmul (map IZR ells) tot)) (np.sum (map IZR ells)).

(** [np.nan_to_num(1./var)] *)
Definition nan_to_num_recip (var : R) : R :=
  if Req_dec_T var 0 then float_max else 1 / var.

(** The body of the loop of [KnoxCov] for one bin. *)
Definition KnoxCov_bin (self : LensForecast) (specTypeXY specTypeWZ : string)
    (X Y W Z : ascii) (fsky : R) (bin : BinNums.Z * BinNums.Z) : result (R * R * R) :=
  let ell_left := bin.1 in
  let ell_right := bin.2 in
  let ClTot := fun spec => _bin_cls self spec ell_left ell_right true in
  cXW ← ClTot (cat2 X W);
  cYZ ← ClTot (cat2 Y Z);
  cXZ ← ClTot (cat2 X Z);
  cYW ← ClTot (cat2 Y W);
  let ClSum := cXW * cYZ + cXZ * cYW in
  let ellMid := (IZR ell_right + IZR ell_left) / 2 in
  let ellWidth := IZR ell_right - IZR ell_left in
  v1 ← fdiv ClSum (2 * ellMid + 1);
  v2 ← fdiv v1 ellWidth;
  var ← fdiv v2 fsky;
  s1 ← _bin_cls self specTypeXY ell_left ell_right false;
  s2 ← _bin_cls self specTypeWZ ell_left ell_right false;
  Ok (var, s1 ^ 2 * nan_to_num_recip var, s2 ^ 2 * nan_to_num_recip var).

(** [zip(ellBinEdges[:-1], ellBinEdges[1:])] *)
Definition bins (ellBinEdges : list Z) : list (Z * Z) :=
  zip (np.upto_1 ellBinEdges) (np.from1 ellBinEdges).

Definition KnoxCov (self : LensForecast) (specTypeXY specTypeWZ : string)
    (ellBinEdges : list Z) (fsky : R) : result (list R * list R * list R) :=
  xy ← unpack2 specTypeXY;
  wz ← unpack2 specTypeWZ;
  rows ← forM (KnoxCov_bin self specTypeXY specTypeWZ xy.1 xy.2 wz.1 wz.2 fsky)
         (bins ellBinEdges);
  Ok (map (fun r : R * R * R => r.1.1) rows,
      map (fun r : R * R * R => r.1.2) rows,
      map (fun r : R * R * R => r.2) rows).

Definition sigmaClSquared (self : LensForecast) (specType : string)
    (ellBinEdges : list Z) (fsky : R) : result (list R) :=
  r ← KnoxCov self specType specType ellBinEdges fsky; Ok r.1.1.

(** [sn] returns [(signoise, errs)]. *)
Definition sn (self : LensForecast) (ellBinEdges : list Z) (fsky : R)
    (specType : string) : result (R * list R) :=
  r ← KnoxCov self specType specType ellBinEdges fsky;
  signoise ← fsqrt (np.sum r.1.2);
  errs ← forM fsqrt r.1.1;
  Ok (signoise, errs).

(** The accumulators of [snRatio]: [sumchisq], [signum], [sigden]. *)
Record sn_acc : Type := { sumchisq : R; signum : R; sigden : R }.

(** [sigmaZsq] before the prefactor. *)
Definition sigmaZsq_raw (Clkk Nlkk Clgg Nlgg Clss Nlss Clkg Clks Clsg r0 : R) : R :=
  ((Clkk + Nlkk) * (Clgg + Nlgg)) + Clkg ^ 2
  + (r0 ^ 2 * ((Clss + Nlss) * (Clgg + Nlgg) + Clsg ^ 2))
  - (2 * r0 * (Clks * (Clgg + Nlgg) + Clkg * Clsg)).

(** The body of the loop of [snRatio] for one bin [(ellMid, ellWidth)]. *)
Definition snRatio_bin (self : LensForecast) (fsky : R) (acc : sn_acc)
    (mw : R * R) : result sn_acc :=
  let ellMid := NFloat mw.1 in
  let ellWidth := mw.2 in
  Clkk ← gCl (theory self) "kk" ellMid;
  Nkk ← getitem (Nls self) "kk"; Nlkk ← Nkk ellMid;
  Ngg ← getitem (Nls self) "gg"; Nlgg ← Ngg ellMid;
  Nss ← getitem (Nls self) "ss"; Nlss ← Nss ellMid;
  Clkg ← gCl (theory self) "kg" ellMid;
  Clgg ← gCl (theory self) "gg" ellMid;
  Clks ← gCl (theory self) "ks" ellMid;
  Clss ← gCl (theory self) "ss" ellMid;
  Clsg ← gCl (theory self) "sg" ellMid;
  r0 ← fdiv Clkg Clsg;
  pref ← fdiv 1 (fsky * (2 * mw.1 + 1) * ellWidth);
  let sigmaZsq := sigmaZsq_raw Clkk Nlkk Clgg Nlgg Clss Nlss Clkg Clks Clsg r0 in
  let sigmaZsq := sigmaZsq * pref in
  let numer := Clsg ^ 2 in
  let denom := sigmaZsq in
  dnum ← fdiv (Clkg * Clsg) sigmaZsq;
  dden ← fdiv (Clsg ^ 2) sigmaZsq;
  chisq ← fdiv numer denom;
  Ok {| sumchisq := sumchisq acc + chisq;
        signum := signum acc + dnum;
        sigden := sigden acc + dden |}.

(** [zip(ellMids, ellWidths)] of integer bin edges. *)
Definition mids_widths (ellBinEdges : list Z) : list (R * R) :=
  zip (zip_with (fun a b => (IZR a + IZR b) / 2)
         (np.from1 ellBinEdges) (np.upto_1 ellBinEdges))
      (zip_with (fun a b => IZR (a - b)) (np.from1 ellBinEdges) (np.upto_1 ellBinEdges)).

(** [snRatio] returns [(percentR, snR, maxlike)]. *)
Definition snRatio (self : LensForecast) (ellBinEdges : list Z) (fsky : R) : result (R * R * R) :=
  acc ← foldM (snRatio_bin self fsky)
        {| sumchisq := 0; signum := 0; sigden := 0 |} (mids_widths ellBinEdges);
  maxlike ← fdiv (signum acc) (sigden acc);
  root ← fsqrt (sumchisq acc);
  sigmaR ← fdiv 1 root;
  percentR ← fdiv (sigmaR * 100) maxlike;
  snR ← fdiv maxlike sigmaR;
  Ok (percentR, snR, maxlike).

End Forecast.

(** ** Instrumental noise *)

Module Noise.

Definition atm_factor (ell lknee alpha : R) : result R :=
  if Rgtb lknee 1e-3 then
    base ← fdiv lknee ell; fpow base (- alpha)
  else Ok 0.

Definition white_noise_with_atm_func (ell uk_arcmin lknee alpha : R)
    (dimensionless : bool) (TCMB : R) : result R :=
  atmFactor ← atm_factor ell lknee alpha;
  let noiseWhite := ell * 0 + (uk_arcmin * PI / (180 * 60)) ^ 2 in
  dfact ← (if dimensionless then fdiv 1 (TCMB ^ 2) else Ok 1);
  Ok ((atmFactor + 1) * noiseWhite * dfact).

(** [np.deg2rad] *)
Definition deg2rad (x : R) : R := x * (PI / 180).

Definition noise_func (ell fwhm rms_noise lknee alpha : R)
    (dimensionless : bool) (TCMB : R) : result R :=
  atmFactor ← atm_factor ell lknee alpha;
  let rms := rms_noise * (1 / 60) * (PI / 180) in
  let tht_fwhm := deg2rad (fwhm / 60) in
  nfact ← white_noise_with_atm_func ell rms_noise lknee alpha dimensionless TCMB;
  let ans := nfact * exp (tht_fwhm ^ 2 * ell ^ 2 / (8 * ln 2)) in
  Ok ans.

End Noise.

(** ** Reference formulas and invariants used by the properties *)

Module Spec.
Import Limber.

(** The arrays of a grid are aligned, every registered kernel carries a
    window [W] on the grid, and the power-spectrum provider is in place
    unless it is deferred to [generateCls] ([skipPower]). *)
Definition aligned (self : LimberCosmology) : Prop :=
  length (zs self) = length (chis self) /\
  length (dchis self) = length (chis self) /\
  length (Hzs self) = length (chis self).

Definition windows_ready (self : LimberCosmology) : Prop :=
  forall tag k, odict.get tag (kernels self) = Some k ->
                exists W, k_W k = Some W /\ length W = length (chis self).

Definition power_ready (self : LimberCosmology) : Prop :=
  skipPower self = false ->
  exists pk, PK self = Some pk /\
             precalcFactor self
             = Some (zip_with (fun H chi => H ^ 2 / chi / chi / _cSpeedKmPerSec ^ 2)
                       (Hzs self) (chis self)).

(** The provider [generateCls] ends up calling. *)
Definition provider (self : LimberCosmology) : option (R -> R -> R) :=
  if skipPower self then Some (matter_power (results (cosmo self))) else PK self.

(** The window array registered under a tag. *)
Definition window (self : LimberCosmology) (tag : string) : list R :=
  match odict.get tag (kernels self) with
  | Some k => default [] (k_W k)
  | None => []
  end.

(** The Limber sum as the specification writes it.  Grid point [i] has
    wavenumber [k_i = (ell+0.5)/chi_i]; it survives when
    [1e-4 <= k_i < kmax] and [z_i >= zmin]; a surviving point contributes
    [dchi_i * (P(z_i,k_i) * H_i^2/chi_i^2/c^2 * W1_i * W2_i)]. *)
Definition survives (self : LimberCosmology) (zmin ell : R) (i : nat) : bool :=
  let k := (ell + 0.5) / nth i (chis self) 0 in
  Rgeb (nth i (zs self) 0) zmin && negb (Rltb k 1e-4) && negb (Rgeb k (kmax self)).

Definition limber_term (self : LimberCosmology) (pk : R -> R -> R) (ell : R)
    (W1 W2 : list R) (i : nat) : R :=
  let chi := nth i (chis self) 0 in
  let z := nth i (zs self) 0 in
  let H := nth i (Hzs self) 0 in
  nth i (dchis self) 0
  * (pk z ((ell + 0.5) / chi) * (H ^ 2 / chi ^ 2 / _cSpeedKmPerSec ^ 2)
     * nth i W1 0 * nth i W2 0).

Definition limber_sum (self : LimberCosmology) (pk : R -> R -> R) (zmin ell : R)
    (W1 W2 : list R) : R :=
  np.sum (map (limber_term self pk ell W1 W2)
            (List.filter (survives self zmin ell) (seq 0 (length (chis self))))).

(** Tags free of the separator of the dictionary keys. *)
Fixpoint no_comma (s : string) : bool :=
  match s with
  | EmptyString => true
  | String c s' => negb (Ascii.eqb c ",") && no_comma s'
  end.

Definition comma_free (self : LimberCosmology) : Prop :=
  forall tag, In tag (odict.keys (kernels self)) -> no_comma tag = true.

(** The pairs of [lk] stored under one dictionary key. *)
Definition same_key (key : string) (lk : list (string * string)) : list (string * string) :=
  List.filter (fun p => String.eqb (pairkey p) key) lk.

(** *** Forecast engine *)

(** The multipole-weighted average of [tot] over the multipoles [ells]. *)
Definition weighted_mean (ells : list Z) (tot : list R) : R :=
  np.sum (zip_with (fun l t => IZR l * t) ells tot) / np.sum (map IZR ells).

(** The noise added to a spectrum over [ells]: the registered curve for
    an auto spectrum when noise is requested, zero otherwise. *)
Definition bin_noise (self : Forecast.LensForecast) (spec : string) (noise : bool)
    (ells : list Z) : result (list R) :=
  ab ← Forecast.unpack2 spec;
  if noise && Ascii.eqb ab.1 ab.2 then
    N ← getitem (Forecast.Nls self) spec;
    forM (fun l => N (NInt l)) ells
  else Ok (map (fun _ => 0) ells).

(** The Knox variance of one bin from the four total spectra. *)
Definition knox_var (cXW cYZ cXZ cYW : R) (bin : Z * Z) (fsky : R) : R :=
  let ell_mid := (IZR bin.2 + IZR bin.1) / 2 in
  let delta_ell := IZR bin.2 - IZR bin.1 in
  (cXW * cYZ + cXZ * cYW) / ((2 * ell_mid + 1) * delta_ell * fsky).

(** The nine numbers [snRatio] reads at one bin centre. *)
Record bin_spectra : Type := {
  Ckk : R; Nkk : R; Cgg : R; Ngg : R; Css : R; Nss : R;
  Ckg : R; Cks : R; Csg : R
}.

Definition noise_at (self : Forecast.LensForecast) (spec : string) (ell : R) (v : R) : Prop :=
  exists N : Forecast.noise_curve,
    Forecast.Nls self !! spec = Some N /\ N (NFloat ell) = Ok v.

Definition bin_values (self : Forecast.LensForecast) (ellMid : R) (v : bin_spectra) : Prop :=
  Theory.gCl (Forecast.theory self) "kk" (NFloat ellMid) = Ok (Ckk v) /\
  noise_at self "kk" ellMid (Nkk v) /\
  noise_at self "gg" ellMid (Ngg v) /\
  noise_at self "ss" ellMid (Nss v) /\
  Theory.gCl (Forecast.theory self) "kg" (NFloat ellMid) = Ok (Ckg v) /\
  Theory.gCl (Forecast.theory self) "gg" (NFloat ellMid) = Ok (Cgg v) /\
  Theory.gCl (Forecast.theory self) "ks" (NFloat ellMid) = Ok (Cks v) /\
  Theory.gCl (Forecast.theory self) "ss" (NFloat ellMid) = Ok (Css v) /\
  Theory.gCl (Forecast.theory self) "sg" (NFloat ellMid) = Ok (Csg v).

(** The variance [sigma_Z^2] of a bin [(ellMid, ellWidth)]. *)
Definition sigmaZsq (v : bin_spectra) (fsky : R) (mw : R * R) : R :=
  Forecast.sigmaZsq_raw (Ckk v) (Nkk v) (Cgg v) (Ngg v) (Css v) (Nss v)
    (Ckg v) (Cks v) (Csg v) (Ckg v / Csg v)
  * (1 / (fsky * (2 * mw.1 + 1) * mw.2)).

(** The two sums of the joint estimator over the bins. *)
Definition sum_num (vals : R * R -> bin_spectra) (fsky : R) (bs : list (R * R)) : R :=
  np.sum (map (fun mw => Ckg (vals mw) * Csg (vals mw) / sigmaZsq (vals mw) fsky mw) bs).
Definition sum_chisq (vals : R * R -> bin_spectra) (fsky : R) (bs : list (R * R)) : R :=
  np.sum (map (fun mw => Csg (vals mw) ^ 2 / sigmaZsq (vals mw) fsky mw) bs).

(** The atmosphere factor with the knee threshold of the source. *)
Definition atmosphere_factor (ell lknee alpha : R) : R :=
  if Rlt_dec 1e-3 lknee then Rpower (lknee / ell) (- alpha) else 0.

(** *** Frames of the kernel builders *)

(** Two states that differ at most in the kernel registered under [tag]:
    every other attribute and every other kernel is the same, and the
    order of the keys is kept, [tag] coming last when it is new. *)
Definition same_but (tag : string) (s s' : LimberCosmology) : Prop :=
  s' = set_kernels (kernels s') s /\
  (forall t, t <> tag -> odict.get t (kernels s') = odict.get t (kernels s)) /\
  (odict.keys (kernels s') = odict.keys (kernels s) \/
   odict.mem tag (kernels s) = false /\
   odict.keys (kernels s') = odict.keys (kernels s) ++ [tag]).

Definition touches_only (tag : string) {A : Type} (m : M A) : Prop :=
  forall s, same_but tag s (m s).2.

(** The kernels [k] and [k'] describe the same source. *)
Definition same_source (k k' : kernel) : Prop :=
  k_dndz k' = k_dndz k /\ k_zdelta k' = k_zdelta k /\
  k_zmin k' = k_zmin k /\ k_zmax k' = k_zmax k.

Definition keeps_source (tag : string) {A : Type} (m : M A) : Prop :=
  forall s k, odict.get tag (kernels s) = Some k ->
    exists k', odict.get tag (kernels (m s).2) = Some k' /\ same_source k k'.

(** *** Sampled functions *)

(** Strictly increasing abscissas. *)
Fixpoint increasing (l : list R) : Prop :=
  match l with
  | a :: ((b :: _) as t) => a < b /\ increasing t
  | _ => True
  end.

(** *** Spectrum store and signal-to-noise *)

(** The key under which [_Cl] looks a code up. *)
Definition lookup_key (XYType : string) : string :=
  if String.eqb (Theory.upper XYType) "ET" then "TE"%string else Theory.upper XYType.

(** No cross spectrum is stored under both orders of its two letters. *)
Definition one_order (th : Theory.TheorySpectra) : Prop :=
  forall a b : ascii, a <> b ->
    Theory._gCl th !! Forecast.cat2 a b = None \/
    Theory._gCl th !! Forecast.cat2 b a = None.

(** The number of modes of a bin, [(2 ell_mid + 1) * width * fsky]; half
    their sum over the bins is the squared signal-to-noise of an auto
    spectrum limited by cosmic variance alone. *)
Definition bin_modes (fsky : R) (b : Z * Z) : R :=
  (2 * ((IZR b.2 + IZR b.1) / 2) + 1) * (IZR b.2 - IZR b.1) * fsky.

Definition cosmic_variance_limit (ellBinEdges : list Z) (fsky : R) : R :=
  np.sum (map (fun b => bin_modes fsky b / 2) (Forecast.bins ellBinEdges)).

End Spec.

(** ** Worked inputs *)

Module Examples.

(** A toy background: distance to the reference surface [3], redshift
    equal to distance, unit Hubble rate and unit matter power. *)
Definition toy_results : Limber.camb_results :=
  {| Limber.conformal_time := fun _ => 3;
     Limber.tau_maxvis := 0;
     Limber.comoving_radial_distance := fun z => z;
     Limber.redshift_at_comoving_radial_distance := fun chi => chi;
     Limber.hubble_parameter := fun _ => 1;
     Limber.matter_power := fun _ _ => 1 |}.

Definition toy_cosmo : Limber.Cosmology :=
  {| Limber.omch2 := 1; Limber.ombh2 := 0; Limber.omnuh2 := 0;
     Limber.results := toy_results |}.

(** [LimberCosmology(numz=4, kmax=1000)]: the grid [chi = 1, 2]. *)
Definition toy0 : Limber.LimberCosmology := Limber.__init__ toy_cosmo 4 1000 false None.

(** [addDeltaNz("p", 4)] *)
Definition toy1 : Limber.LimberCosmology :=
  (Limber.addDeltaNz "p" 4 None None false toy0).2.

(** Tags that hold the separator: ["p,q"] at source redshift 4 and
    ["q,p"] at source redshift 8, then [generateCls([1])]. *)
Definition tagged2 : Limber.LimberCosmology :=
  (Limber.addDeltaNz "p,q" 4 None None false toy1).2.
Definition tagged3 : Limber.LimberCosmology :=
  (Limber.addDeltaNz "q,p" 8 None None false tagged2).2.
Definition tagged_cls : Limber.LimberCosmology :=
  (Limber.generateCls [1] false 0 tagged3).2.

(** A spectrum loaded without [fill_zero]: samples at [ell = 2, 3],
    [lpad = 4], so [fillval = 2e-7]. *)
Definition tail_theory : Theory.TheorySpectra :=
  match Theory.loadGenericCls Theory.__init__ [2; 3] [3e-7; 2e-7] "kk" 4 false with
  | Ok th => th
  | Raise _ => Theory.__init__
  end.

(** A flat spectrum [C_ell = c] sampled at [ell = 2, 1000], and a noise
    curve that vanishes there, as the forecast engine stores them. *)
Definition flat_spectrum (c : R) : num -> R :=
  fun x => np.interp1d (Theory.below [2; 1000] 9000 [2; 1000])
             (Theory.below [2; 1000] 9000 [c; c]) 0 (num_val x).

Definition zero_noise : num -> result R :=
  fun x => np.interp1d_inf [2; 1000] [0; 0] (num_val x).

(** [loadGenericCls(spec, [2, 1000], [c, c])], with the noise samples
    [[0, 0]] when [noise] is set. *)
Definition flat_load (spec : string) (c : R) (noise : bool)
    (self : Forecast.LensForecast) : Forecast.LensForecast :=
  match Forecast.loadGenericCls self spec [2; 1000] [c; c]
          (if noise then Some ([2; 1000], [0; 0]) else None) with
  | Ok s => s
  | Raise _ => self
  end.

(** Six identical flat spectra, no noise. *)
Definition flat_forecast : Forecast.LensForecast :=
  flat_load "sg" 1 false
    (flat_load "ks" 1 false
       (flat_load "kg" 1 false
          (flat_load "ss" 1 true
             (flat_load "gg" 1 true
                (flat_load "kk" 1 true (Forecast.__init__ None)))))).

(** The same with [C_ell^kk = 2]. *)
Definition kk2_forecast : Forecast.LensForecast :=
  flat_load "sg" 1 false
    (flat_load "ks" 1 false
       (flat_load "kg" 1 false
          (flat_load "ss" 1 true
             (flat_load "gg" 1 true
                (flat_load "kk" 2 true (Forecast.__init__ None)))))).

(** Parameters given as density fractions, the constants, and the
    attributes [Cosmology.__init__] derives from them. *)
Definition frac_params : gmap string R :=
  <["H0"%string := 70]>
    (<["om"%string := 0.3]>
       (<["ob"%string := 0.05]> (<["mnu"%string := 0]> (<["w0"%string := -1]> ∅)))).

Definition toy_consts : gmap string R := <["TCMB"%string := 2.7255]> ∅.

Definition frac_derived : CosmoParams.derived :=
  {| CosmoParams.H0 := 70; CosmoParams.h := 70 / 100;
     CosmoParams.omch2 := (0.3 - 0.05) * 70 * 70 / 100 / 100; CosmoParams.om := 0.3;
     CosmoParams.ombh2 := 0.05 * 70 * 70 / 100 / 100; CosmoParams.ob := 0.05;
     CosmoParams.tau := CosmoParams.default_tau; CosmoParams.mnu := 0;
     CosmoParams.w0 := -1 |}.

End Examples.

(** * Properties *)

(** ** Arrays *)

Section Arrays.

Lemma linspace_length (a b : R) (n : nat) : length (np.linspace a b n) = n.
Proof. unfold np.linspace. now rewrite length_map, length_seq. Qed.

Lemma linspace_lookup (a b : R) (n i : nat) :
  (i < n)%nat ->
  np.linspace a b n !! i = Some (a + INR i * ((b - a) / INR (n - 1))).
Proof.
  intros Hi. unfold np.linspace.
  rewrite list_lookup_fmap, lookup_seq_lt by assumption. reflexivity.
Qed.

Lemma inner_length {A : Type} (a : list A) : length (np.inner a) = (length a - 2)%nat.
Proof. unfold np.inner. rewrite length_take, length_drop. lia. Qed.

Lemma inner_lookup {A : Type} (a : list A) (i : nat) :
  (i < length a - 2)%nat -> np.inner a !! i = a !! S i.
Proof.
  intros Hi. unfold np.inner.
  rewrite lookup_take_lt by assumption. now rewrite lookup_drop.
Qed.

Lemma inner_map {A B : Type} (f : A -> B) (a : list A) :
  np.inner (map f a) = map f (np.inner a).
Proof.
  unfold np.inner. rewrite length_map.
  change (map f) with (fmap (M:=list) f). now rewrite fmap_take, fmap_drop.
Qed.

Lemma central_diff_length (a : list R) :
  length (map (fun d => d / 2) (np.vsub (np.from2 a) (np.upto_2 a))) = (length a - 2)%nat.
Proof.
  unfold np.vsub, np.from2, np.upto_2.
  rewrite length_map, length_zip_with, length_take, length_drop. lia.
Qed.

Lemma central_diff_lookup (a : list R) (i : nat) (x y : R) :
  a !! i = Some x -> a !! (i + 2)%nat = Some y ->
  map (fun d => d / 2) (np.vsub (np.from2 a) (np.upto_2 a)) !! i = Some ((y - x) / 2).
Proof.
  intros Hx Hy. unfold np.vsub, np.from2, np.upto_2.
  assert (i + 2 < length a)%nat by (eapply lookup_lt_Some; eassumption).
  rewrite list_lookup_fmap, lookup_zip_with.
  rewrite lookup_drop, (Nat.add_comm 2 i), Hy. simpl.
  rewrite lookup_take_lt by lia. rewrite Hx. reflexivity.
Qed.

Lemma sum_const (c : R) (n : nat) : np.sum (replicate n c) = INR n * c.
Proof.
  induction n as [|n IH].
  - simpl. lra.
  - rewrite S_INR. change (np.sum (replicate (S n) c)) with (c + np.sum (replicate n c)).
    rewrite IH. lra.
Qed.

(** On a uniform grid every central-difference weight is one step. *)
Lemma central_diff_linspace (a b : R) (n : nat) :
  (2 <= n)%nat ->
  map (fun d => d / 2) (np.vsub (np.from2 (np.linspace a b n)) (np.upto_2 (np.linspace a b n)))
  = replicate (n - 2) ((b - a) / INR (n - 1)).
Proof.
  intros Hn. apply list_eq. intros i.
  destruct (decide (i < n - 2)%nat) as [Hi|Hi].
  - rewrite (central_diff_lookup _ i (a + INR i * ((b - a) / INR (n - 1)))
               (a + INR (i + 2) * ((b - a) / INR (n - 1)))).
    + rewrite lookup_replicate_2 by assumption. f_equal.
      rewrite plus_INR. simpl. lra.
    + apply linspace_lookup. lia.
    + apply linspace_lookup. lia.
  - rewrite !lookup_ge_None_2; [reflexivity | |].
    + rewrite length_replicate. lia.
    + rewrite central_diff_length, linspace_length. lia.
Qed.

End Arrays.

(** ** The redshift grid of [LimberCosmology.__init__] *)

Section RedshiftGrid.
Import Limber.

Variable c : Cosmology.
Variable numz : nat.
Variable kmax0 : R.
Variable skip : bool.
Variable pkgrid_override : option (R -> R -> R).

Let self := __init__ c numz kmax0 skip pkgrid_override.
Let chi_target := conformal_time (results c) 0 - tau_maxvis (results c).
Let chi0 := np.linspace 0 chi_target numz.

Lemma init_fields :
  chistar self = chi_target /\
  kmax self = kmax0 /\
  chis self = np.inner chi0 /\
  zs self = map (redshift_at_comoving_radial_distance (results c)) (np.inner chi0) /\
  dchis self = map (fun d => d / 2) (np.vsub (np.from2 chi0) (np.upto_2 chi0)) /\
  Hzs self = map (hubble_parameter (results c)) (zs self).
Proof.
  unfold self, __init__. fold chi_target. fold chi0.
  destruct skip; cbn; rewrite inner_map; repeat split; reflexivity.
Qed.

Lemma init_lengths :
  length (chis self) = (numz - 2)%nat /\
  length (zs self) = (numz - 2)%nat /\
  length (dchis self) = (numz - 2)%nat /\
  length (Hzs self) = (numz - 2)%nat.
Proof.
  destruct init_fields as (_ & _ & Hc & Hz & Hd & HH).
  assert (L : length (np.inner chi0) = (numz - 2)%nat).
  { rewrite inner_length. unfold chi0. now rewrite linspace_length. }
  rewrite HH, Hz, Hc, Hd, central_diff_length, !length_map, L.
  unfold chi0. rewrite linspace_length. repeat split; reflexivity.
Qed.

(** C8.  For [numz >= 4] and a positive target distance, the grid built
    from [numz] uniformly spaced distances in [[0, chi_target]] keeps
    [numz - 2] samples (the inner points of the raw vector); each weight
    is [(chi[i+2] - chi[i]) / 2] on the raw indexing; and the weights sum
    to [chi_target] less exactly one grid step [chi_target / (numz - 1)],
    the error of the quadrature that drops the two end points. *)
Theorem RedshiftGrid_weights :
  (4 <= numz)%nat -> 0 < chi_target ->
  length (chis self) = (numz - 2)%nat /\
  length (zs self) = (numz - 2)%nat /\
  length (dchis self) = (numz - 2)%nat /\
  (forall i, (i < numz - 2)%nat ->
     chis self !! i = chi0 !! S i /\
     exists lo hi, chi0 !! i = Some lo /\ chi0 !! (i + 2)%nat = Some hi /\
                   dchis self !! i = Some ((hi - lo) / 2)) /\
  np.sum (dchis self) = chi_target - chi_target / INR (numz - 1) /\
  Rabs (np.sum (dchis self) - chi_target) = chi_target / INR (numz - 1) /\
  Rabs (np.sum (dchis self) - chi_target) <= chi_target / 3.
Proof.
  intros Hn Hpos.
  destruct init_lengths as (Lc & Lz & Ld & _).
  destruct init_fields as (_ & _ & Hc & _ & Hd & _).
  assert (Hstep : 3 <= INR (numz - 1)).
  { apply (Rle_trans _ (INR 3)); [simpl; lra | apply le_INR; lia]. }
  assert (Hsum : np.sum (dchis self) = chi_target - chi_target / INR (numz - 1)).
  { rewrite Hd. unfold chi0. rewrite central_diff_linspace by lia.
    rewrite sum_const.
    replace (numz - 2)%nat with (numz - 1 - 1)%nat by lia.
    rewrite minus_INR by lia. simpl. field. lra. }
  assert (Hq : 0 < chi_target / INR (numz - 1)).
  { apply Rdiv_lt_0_compat; lra. }
  repeat split; try assumption.
  - rewrite Hc. apply inner_lookup. unfold chi0. rewrite linspace_length. assumption.
  - exists (0 + INR i * ((chi_target - 0) / INR (numz - 1))),
           (0 + INR (i + 2) * ((chi_target - 0) / INR (numz - 1))).
    assert (H1 : chi0 !! i = Some (0 + INR i * ((chi_target - 0) / INR (numz - 1))))
      by (apply linspace_lookup; lia).
    assert (H2 : chi0 !! (i + 2)%nat
                 = Some (0 + INR (i + 2) * ((chi_target - 0) / INR (numz - 1))))
      by (apply linspace_lookup; lia).
    repeat split; try assumption.
    rewrite Hd. now apply central_diff_lookup.
  - rewrite Hsum.
    replace (chi_target - chi_target / INR (numz - 1) - chi_target)
      with (- (chi_target / INR (numz - 1))) by lra.
    rewrite Rabs_Ropp. apply Rabs_pos_eq. lra.
  - rewrite Hsum.
    replace (chi_target - chi_target / INR (numz - 1) - chi_target)
      with (- (chi_target / INR (numz - 1))) by lra.
    rewrite Rabs_Ropp, Rabs_pos_eq by lra.
    unfold Rdiv. apply Rmult_le_compat_l; [lra|].
    apply Rinv_le_contravar; lra.
Qed.

End RedshiftGrid.

(** ** The kernel registry *)

Section Registry.
Import Limber.

Lemma odict_get_set_eq {V : Type} (k : string) (v : V) (d : list (string * V)) :
  odict.get k (odict.set k v d) = Some v.
Proof.
  induction d as [|[k' v'] d IH]; simpl.
  - now rewrite String.eqb_refl.
  - destruct (String.eqb k k') eqn:E; simpl; rewrite ?E, ?String.eqb_refl; auto.
Qed.

Lemma odict_get_set_ne {V : Type} (k k0 : string) (v : V) (d : list (string * V)) :
  k0 <> k -> odict.get k0 (odict.set k v d) = odict.get k0 d.
Proof.
  intros Hne. induction d as [|[k' v'] d IH]; simpl.
  - destruct (String.eqb k0 k) eqn:E; [apply String.eqb_eq in E; contradiction | reflexivity].
  - destruct (String.eqb k k') eqn:E; simpl.
    + apply String.eqb_eq in E. subst k'.
      destruct (String.eqb k0 k) eqn:E'; [apply String.eqb_eq in E'; contradiction | reflexivity].
    + now rewrite IH.
Qed.

Lemma odict_set_set {V : Type} (k : string) (v w : V) (d : list (string * V)) :
  odict.set k w (odict.set k v d) = odict.set k w d.
Proof.
  induction d as [|[k' v'] d IH]; simpl.
  - now rewrite String.eqb_refl.
  - destruct (String.eqb k k') eqn:E; simpl; rewrite ?E, ?String.eqb_refl; auto.
    now rewrite IH.
Qed.

Lemma odict_mem_get {V : Type} (k : string) (d : list (string * V)) :
  odict.mem k d = true <-> exists v, odict.get k d = Some v.
Proof.
  unfold odict.mem, odict.keys. induction d as [|[k' v'] d IH]; simpl.
  - split; [discriminate | intros [v Hv]; discriminate].
  - destruct (String.eqb k k'); simpl; [split; eauto | exact IH].
Qed.

(** Setting a key that is present keeps the keys, and their order. *)
Lemma odict_keys_set_mem {V : Type} (k : string) (v : V) (d : list (string * V)) :
  odict.mem k d = true -> odict.keys (odict.set k v d) = odict.keys d.
Proof.
  unfold odict.mem, odict.keys. induction d as [|[k' v'] d IH]; simpl.
  - discriminate.
  - destruct (String.eqb k k') eqn:E; simpl.
    + apply String.eqb_eq in E. now subst.
    + intros H. now rewrite IH.
Qed.

(** A fresh key goes to the end. *)
Lemma odict_keys_set_new {V : Type} (k : string) (v : V) (d : list (string * V)) :
  odict.mem k d = false -> odict.keys (odict.set k v d) = odict.keys d ++ [k].
Proof.
  unfold odict.mem, odict.keys. induction d as [|[k' v'] d IH]; simpl.
  - reflexivity.
  - destruct (String.eqb k k') eqn:E; simpl; [discriminate|].
    intros H. now rewrite IH.
Qed.

Lemma update_kernel_run (tag : string) (f : kernel -> kernel) (s : LimberCosmology) (k : kernel) :
  odict.get tag (kernels s) = Some k ->
  update_kernel tag f s = (Ok tt, set_kernels (odict.set tag (f k) (kernels s)) s).
Proof.
  intros H. unfold update_kernel, bind, get_self, lift, modify, odict.getitem.
  now rewrite H.
Qed.

Lemma mask_set_length {A : Type} (a : list A) (m : list bool) (v : A) :
  length m = length a -> length (np.mask_set a m v) = length a.
Proof. intros H. unfold np.mask_set. rewrite length_zip_with. lia. Qed.

Lemma mask_set_lookup {A : Type} (a : list A) (m : list bool) (v x : A) (b : bool) (i : nat) :
  a !! i = Some x -> m !! i = Some b ->
  np.mask_set a m v !! i = Some (if b then v else x).
Proof.
  intros Ha Hm. unfold np.mask_set. rewrite lookup_zip_with, Ha. simpl.
  now rewrite Hm.
Qed.

End Registry.

(** ** Delta-function sources *)

Section DeltaWindow.
Import Limber.

Lemma check_tag_ok (tag : string) (ignore_exists : bool) (self : LimberCosmology) :
  tag <> "cmb"%string ->
  ignore_exists = true \/ odict.mem tag (kernels self) = false ->
  check_tag tag ignore_exists self = (Ok tt, self).
Proof.
  intros Hcmb Hfresh. unfold check_tag, bind, get_self, raise, ret.
  assert (E : negb ignore_exists && odict.mem tag (kernels self) = false).
  { destruct Hfresh as [-> | ->]; [reflexivity | apply andb_false_r]. }
  rewrite E.
  destruct (String.eqb tag "cmb") eqn:E'; [|reflexivity].
  apply String.eqb_eq in E'. contradiction.
Qed.

(** The state [addDeltaNz] reaches for a lensing kernel ([bias=None]). *)
Lemma addDeltaNz_run (self : LimberCosmology) (tag : string) (zsource : R)
    (magbias : option R) (ignore_exists : bool) :
  tag <> "cmb"%string ->
  ignore_exists = true \/ odict.mem tag (kernels self) = false ->
  let retvals :=
    np.mask_set
      (map (fun chi => 1 - chi / comoving_radial_distance (results (cosmo self)) zsource)
         (chis self))
      (map (fun z => Rgtb z zsource) (zs self)) 0 in
  let W :=
    zip_with (fun r (g : R * R * R) =>
                r * 1.5 * (omch2 (cosmo self) + ombh2 (cosmo self) + omnuh2 (cosmo self))
                  * 100 * 100 * (1 + g.1.1) * g.1.2 / g.2 / _cSpeedKmPerSec)
      retvals (grid self) in
  let k :=
    set_type lensing
      (set_W W (set_window_z (zs self, retvals)
                  (set_zdelta zsource (set_dndz dndz_delta kernel_empty)))) in
  addDeltaNz tag zsource None magbias ignore_exists self
  = (Ok tt, set_kernels (odict.set tag k (kernels self)) self).
Proof.
  intros Hcmb Hfresh retvals W k.
  unfold addDeltaNz. unfold bind at 1. rewrite check_tag_ok by assumption.
  unfold bind at 1. cbn [modify].
  unfold bind at 1. erewrite update_kernel_run by (cbn; apply odict_get_set_eq).
  unfold bind at 1. erewrite update_kernel_run by (cbn; apply odict_get_set_eq).
  cbn [kernels set_kernels]. rewrite !odict_set_set.
  unfold _generateWindow, bind, get_self, lift, odict.getitem.
  cbn [kernels set_kernels]. rewrite odict_get_set_eq.
  cbn [_lensWindow k_dndz k_zdelta set_zdelta set_dndz field mbind result_bind
       chis zs cosmo set_kernels].
  erewrite update_kernel_run by (cbn; apply odict_get_set_eq).
  erewrite update_kernel_run by (cbn; apply odict_get_set_eq).
  erewrite update_kernel_run by (cbn; apply odict_get_set_eq).
  cbn [kernels set_kernels]. rewrite !odict_set_set.
  reflexivity.
Qed.

(** C2.  For a kernel built by [addDeltaNz] at source redshift
    [zsource] (no bias), the window the builder produces, the array
    [_lensWindow] returns and [window_z] interpolates, equals
    [1 - chi_i / chi(zsource)] at every grid point with
    [z_i <= zsource] and [0] at every grid point with [z_i > zsource]. *)
Theorem delta_window_closed_form (self : LimberCosmology) (tag : string)
    (zsource : R) (ignore_exists : bool) :
  length (zs self) = length (chis self) ->
  tag <> "cmb"%string ->
  ignore_exists = true \/ odict.mem tag (kernels self) = false ->
  exists self' k retvals,
    addDeltaNz tag zsource None None ignore_exists self = (Ok tt, self') /\
    odict.get tag (kernels self') = Some k /\
    k_dndz k = Some dndz_delta /\
    _lensWindow self' k None = Ok retvals /\
    k_window_z k = Some (zs self', retvals) /\
    chis self' = chis self /\ zs self' = zs self /\
    length retvals = length (chis self) /\
    forall i chi z,
      chis self !! i = Some chi -> zs self !! i = Some z ->
      (z <= zsource ->
       retvals !! i
       = Some (1 - chi / comoving_radial_distance (results (cosmo self)) zsource)) /\
      (z > zsource -> retvals !! i = Some 0).
Proof.
  intros Hlen Hcmb Hfresh.
  pose proof (addDeltaNz_run self tag zsource None ignore_exists Hcmb Hfresh) as Hrun.
  cbv zeta in Hrun.
  eexists _, _, _. split; [exact Hrun|].
  split; [cbn [kernels set_kernels]; apply odict_get_set_eq|].
  split; [reflexivity|]. split; [reflexivity|]. split; [reflexivity|].
  split; [reflexivity|]. split; [reflexivity|].
  split.
  - rewrite mask_set_length; rewrite !length_map; auto.
  - intros i chi z Hchi Hz.
    assert (Hm : np.mask_set
                   (map (fun chi0 => 1 - chi0 / comoving_radial_distance (results (cosmo self)) zsource)
                      (chis self))
                   (map (fun z0 => Rgtb z0 zsource) (zs self)) 0 !! i
                 = Some (if Rgtb z zsource then 0
                         else 1 - chi / comoving_radial_distance (results (cosmo self)) zsource)).
    { apply mask_set_lookup.
      - change (map ?f ?l) with (f <$> l). now rewrite list_lookup_fmap, Hchi.
      - change (map ?f ?l) with (f <$> l). now rewrite list_lookup_fmap, Hz. }
    split; intros Hcmp; (etransitivity; [exact Hm|]); unfold Rgtb, Rltb;
      destruct (Rlt_dec zsource z); try reflexivity; lra.
Qed.

End DeltaWindow.

(** ** Arrays as tabulated functions *)

Section Tabulate.

Lemma tabulated (a : list R) (N : nat) :
  length a = N -> exists f, a = map f (seq 0 N).
Proof.
  intros <-. exists (fun i => nth i a 0).
  apply list_eq. intros i.
  change (map ?f ?l) with (f <$> l). rewrite list_lookup_fmap.
  destruct (a !! i) as [x|] eqn:E.
  - rewrite lookup_seq_lt by (eapply lookup_lt_Some; eassumption).
    simpl. now rewrite (nth_lookup_Some _ _ _ _ E).
  - rewrite lookup_seq_ge; [reflexivity|]. now apply lookup_ge_None.
Qed.

Lemma nth_tab (f : nat -> R) (N i : nat) :
  (i < N)%nat -> nth i (map f (seq 0 N)) 0 = f i.
Proof.
  intros Hi. apply nth_lookup_Some.
  change (map ?f ?l) with (f <$> l).
  now rewrite list_lookup_fmap, lookup_seq_lt.
Qed.

Lemma zip_with_tab {A B C I : Type} (f : A -> B -> C) (g : I -> A) (h : I -> B) (l : list I) :
  zip_with f (map g l) (map h l) = map (fun i => f (g i) (h i)) l.
Proof. induction l as [|i l IH]; simpl; [reflexivity | now rewrite IH]. Qed.

Lemma mask_select_tab {A I : Type} (b : I -> bool) (g : I -> A) (l : list I) :
  np.mask_select (map b l) (map g l) = map g (List.filter b l).
Proof.
  induction l as [|i l IH]; simpl; [reflexivity|].
  destruct (b i); simpl; now rewrite IH.
Qed.

Lemma mask_set_tab {A I : Type} (g : I -> A) (b : I -> bool) (v : A) (l : list I) :
  np.mask_set (map g l) (map b l) v = map (fun i => if b i then v else g i) l.
Proof. unfold np.mask_set. apply zip_with_tab. Qed.

Lemma sum_filter_ext {I : Type} (b1 b2 : I -> bool) (F G : I -> R) (l : list I) :
  (forall i, In i l -> (if b1 i then F i else 0) = (if b2 i then G i else 0)) ->
  np.sum (map F (List.filter b1 l)) = np.sum (map G (List.filter b2 l)).
Proof.
  induction l as [|i l IH]; intros H; [reflexivity|].
  assert (Hi := H i (or_introl eq_refl)).
  assert (IH' := IH (fun j Hj => H j (or_intror Hj))).
  simpl. unfold np.sum in *.
  destruct (b1 i), (b2 i); simpl; lra.
Qed.

End Tabulate.

(** ** The Limber integrator *)

Section LimberIntegrator.
Import Limber Spec.

(** The value [estCl] of the source, for the windows [W1], [W2]. *)
Lemma estCl_limber_sum (self : LimberCosmology) (pk : R -> R -> R)
    (zmin ell : R) (W1 W2 : list R) :
  aligned self ->
  length W1 = length (chis self) -> length W2 = length (chis self) ->
  np.dot (np.mask_select (zmask self zmin) (dchis self))
    (np.vmul
       (np.mask_select (zmask self zmin)
          (np.vmul
             (np.vmul (kwindow self (wavenumbers self ell))
                (zip_with pk (zs self) (wavenumbers self ell)))
             (zip_with (fun H chi => H ^ 2 / chi / chi / _cSpeedKmPerSec ^ 2)
                (Hzs self) (chis self))))
       (np.mask_select (zmask self zmin) (np.vmul W1 W2)))
  = limber_sum self pk zmin ell W1 W2.
Proof.
  intros (Hz & Hd & HH) H1 H2.
  unfold limber_sum, limber_term, survives, zmask, kwindow, wavenumbers, np.dot, np.vmul.
  set (N := length (chis self)) in *.
  destruct (tabulated (chis self) N eq_refl) as [fc Ec].
  destruct (tabulated (zs self) N Hz) as [fz Ez].
  destruct (tabulated (dchis self) N Hd) as [fd Ed].
  destruct (tabulated (Hzs self) N HH) as [fH EH].
  destruct (tabulated W1 N H1) as [f1 E1].
  destruct (tabulated W2 N H2) as [f2 E2].
  rewrite Ec, Ez, Ed, EH, E1, E2.
  rewrite !map_map.
  repeat (rewrite ?zip_with_tab, ?mask_set_tab, ?mask_select_tab, ?map_map).
  apply sum_filter_ext. intros i Hi.
  apply in_seq in Hi.
  rewrite !nth_tab by lia.
  unfold Rgeb, Rleb, Rltb.
  destruct (Rle_dec zmin (fz i)); simpl; [|reflexivity].
  destruct (Rlt_dec ((ell + 0.5) / fc i) 1e-4); simpl.
  - destruct (Rle_dec (kmax self) ((ell + 0.5) / fc i)); simpl; lra.
  - destruct (Rle_dec (kmax self) ((ell + 0.5) / fc i)); simpl; [lra|].
    unfold Rdiv. rewrite !Rinv_mult. simpl. rewrite !Rinv_1. ring.
Qed.

Lemma foldM_pure {A B : Type} (f : B -> A -> result B) (g : B -> A -> B) (l : list A) :
  (forall b x, In x l -> f b x = Ok (g b x)) ->
  forall b, foldM f b l = Ok (fold_left g l b).
Proof.
  induction l as [|x l IH]; intros H b; [reflexivity|].
  cbn [foldM fold_left]. rewrite H by now left. cbn.
  apply IH. intros b' y Hy. apply H. now right.
Qed.

(** Appending along a list of pairs, seen from one dictionary key. *)
Lemma fold_alter_lookup {P : Type} (e : P -> R) (key : P -> string) (lk : list P)
    (m : gmap string (list R)) (k : string) :
  fold_left (fun (m : gmap string (list R)) p => alter (fun l => l ++ [e p]) (key p) m) lk m !! k
  = (fun l => l ++ map e (List.filter (fun p => String.eqb (key p) k) lk)) <$> (m !! k).
Proof.
  revert m. induction lk as [|p lk IH]; intros m; cbn [fold_left List.filter].
  - destruct (m !! k); simpl; [now rewrite app_nil_r | reflexivity].
  - rewrite IH. destruct (String.eqb (key p) k) eqn:E.
    + apply String.eqb_eq in E. subst k. rewrite lookup_alter_eq.
      destruct (m !! key p); simpl; [|reflexivity].
      now rewrite <- app_assoc.
    + rewrite lookup_alter_ne; [reflexivity|].
      intros Heq. rewrite Heq, String.eqb_refl in E. discriminate.
Qed.

Lemma fold_insert_lookup {P : Type} (key : P -> string) (lk : list P)
    (m : gmap string (list R)) (k : string) :
  fold_left (fun (m : gmap string (list R)) p => <[key p := []]> m) lk m !! k
  = if existsb (fun p => String.eqb (key p) k) lk then Some [] else m !! k.
Proof.
  revert m. induction lk as [|p lk IH]; intros m; cbn [fold_left existsb]; [reflexivity|].
  rewrite IH. destruct (existsb _ lk); [now rewrite orb_true_r|].
  rewrite orb_false_r. destruct (String.eqb (key p) k) eqn:E.
  - apply String.eqb_eq in E. subst k. apply lookup_insert_eq.
  - apply lookup_insert_ne. intros Heq. rewrite Heq, String.eqb_refl in E. discriminate.
Qed.

(** The multipole loop, seen from one dictionary key. *)
Lemma fold_ells_lookup {P : Type} (e : R -> P -> R) (key : P -> string) (lk : list P)
    (ells : list R) (m : gmap string (list R)) (k : string) :
  fold_left
    (fun (m : gmap string (list R)) ell =>
       fold_left (fun (m : gmap string (list R)) p =>
                    alter (fun l => l ++ [e ell p]) (key p) m) lk m)
    ells m !! k
  = (fun l => l ++ flat_map
                     (fun ell => map (e ell) (List.filter (fun p => String.eqb (key p) k) lk))
                     ells) <$> (m !! k).
Proof.
  revert m. induction ells as [|ell ells IH]; intros m; cbn [fold_left flat_map].
  - destruct (m !! k); simpl; [now rewrite app_nil_r | reflexivity].
  - rewrite IH, fold_alter_lookup.
    destruct (m !! k); simpl; [|reflexivity].
    now rewrite <- app_assoc.
Qed.

Lemma odict_get_keys {V : Type} (k : string) (d : list (string * V)) :
  In k (odict.keys d) -> exists v, odict.get k d = Some v.
Proof.
  unfold odict.keys. induction d as [|[k' v'] d IH]; simpl; [tauto|].
  intros [->|H].
  - rewrite String.eqb_refl. eauto.
  - destruct (String.eqb k k'); eauto.
Qed.

Lemma combinations_in {A : Type} (l : list A) (a b : A) :
  In (a, b) (combinations_with_replacement2 l) -> In a l /\ In b l.
Proof.
  induction l as [|x l IH]; simpl; [tauto|].
  intros [H|H].
  - injection H as -> ->. auto.
  - apply in_app_or in H. destruct H as [H|H].
    + apply in_map_iff in H. destruct H as (y & E & Hy). injection E as -> ->. auto.
    + destruct (IH H). auto.
Qed.

Lemma zip_diag_in {A : Type} (l : list A) (a b : A) :
  In (a, b) (zip l l) -> In a l /\ In b l.
Proof.
  induction l as [|x l IH]; simpl; [tauto|].
  intros [H|H]; [injection H as -> ->; auto | destruct (IH H); auto].
Qed.

Lemma listKeys_in (autoOnly : bool) (self : LimberCosmology) (a b : string) :
  In (a, b) (listKeys autoOnly self) ->
  In a (odict.keys (kernels self)) /\ In b (odict.keys (kernels self)).
Proof.
  unfold listKeys. destruct autoOnly; [apply zip_diag_in | apply combinations_in].
Qed.

Lemma window_ready (self : LimberCosmology) (tag : string) :
  windows_ready self -> In tag (odict.keys (kernels self)) ->
  exists k, odict.get tag (kernels self) = Some k /\
            k_W k = Some (window self tag) /\
            length (window self tag) = length (chis self).
Proof.
  intros Hw Hin. destruct (odict_get_keys _ _ Hin) as [k Hk].
  destruct (Hw _ _ Hk) as (W & HW & HL).
  exists k. unfold window. rewrite Hk, HW. auto.
Qed.

(** One pass of the multipole loop appends, for every pair, the Limber
    sum of its two windows. *)
Lemma cls_at_run (self : LimberCosmology) (autoOnly : bool) (zmin : R) (pk : R -> R -> R)
    (m : gmap string (list R)) (ell : R) :
  aligned self -> windows_ready self ->
  PK self = Some pk ->
  precalcFactor self
  = Some (zip_with (fun H chi => H ^ 2 / chi / chi / _cSpeedKmPerSec ^ 2)
            (Hzs self) (chis self)) ->
  cls_at self (listKeys autoOnly self) zmin m ell
  = Ok (fold_left
          (fun (m : gmap string (list R)) p =>
             alter (fun l => l ++ [limber_sum self pk zmin ell (window self p.1) (window self p.2)])
               (pairkey p) m)
          (listKeys autoOnly self) m).
Proof.
  intros Ha Hw HP Hpf. unfold cls_at. rewrite HP, Hpf. cbn [mbind result_bind].
  apply foldM_pure. intros b [a1 a2] Hin.
  destruct (listKeys_in _ _ _ _ Hin) as [H1 H2].
  destruct (window_ready self a1 Hw H1) as (k1 & G1 & W1 & L1).
  destruct (window_ready self a2 Hw H2) as (k2 & G2 & W2 & L2).
  unfold odict.getitem. cbn [fst snd]. rewrite G1. cbn [mbind result_bind].
  rewrite W1. cbn [field mbind result_bind]. rewrite G2. cbn [mbind result_bind].
  rewrite W2. cbn [field mbind result_bind].
  now rewrite estCl_limber_sum.
Qed.

(** The dictionary [generateCls] leaves in [self.Clmatrix]. *)
Lemma generateCls_run (self : LimberCosmology) (ellrange : list R) (autoOnly : bool)
    (zmin : R) (pk : R -> R -> R) :
  aligned self -> windows_ready self -> power_ready self ->
  provider self = Some pk ->
  generateCls ellrange autoOnly zmin self
  = (Ok tt,
     set_Cls
       (fold_left
          (fun (m : gmap string (list R)) ell =>
             fold_left
               (fun (m : gmap string (list R)) p =>
                  alter (fun l => l ++ [limber_sum self pk zmin ell
                                          (window self p.1) (window self p.2)])
                    (pairkey p) m)
               (listKeys autoOnly self) m)
          ellrange
          (fold_left (fun (m : gmap string (list R)) p => <[pairkey p := []]> m)
             (listKeys autoOnly self) ∅))
       ellrange
       (if skipPower self then _initPower None self else self)).
Proof.
  intros Ha Hw Hp Hpk. unfold generateCls, bind, get_self, lift, modify, ret, provider in *.
  destruct (skipPower self) eqn:Hs.
  - injection Hpk as <-.
    rewrite (foldM_pure _
               (fun (m : gmap string (list R)) ell =>
                  fold_left
                    (fun (m : gmap string (list R)) p =>
                       alter (fun l => l ++ [limber_sum self
                                               (matter_power (results (cosmo self))) zmin ell
                                               (window self p.1) (window self p.2)])
                         (pairkey p) m)
                    (listKeys autoOnly self) m)).
    + reflexivity.
    + intros b ell _.
      exact (cls_at_run (_initPower None self) autoOnly zmin
               (matter_power (results (cosmo self))) b ell Ha Hw eq_refl eq_refl).
  - destruct (Hp Hs) as (pk' & HP & Hpf).
    assert (pk' = pk) by congruence. subst pk'.
    rewrite (foldM_pure _
               (fun (m : gmap string (list R)) ell =>
                  fold_left
                    (fun (m : gmap string (list R)) p =>
                       alter (fun l => l ++ [limber_sum self pk zmin ell
                                               (window self p.1) (window self p.2)])
                         (pairkey p) m)
                    (listKeys autoOnly self) m)).
    + reflexivity.
    + intros b ell _. now apply cls_at_run.
Qed.

Lemma same_key_in (key1 key2 : string) (lk : list (string * string)) :
  In (key1, key2) lk ->
  existsb (fun p => String.eqb (pairkey p) (pairkey (key1, key2))) lk = true.
Proof.
  intros H. apply existsb_exists. exists (key1, key2).
  split; [assumption | apply String.eqb_refl].
Qed.

(** C1.  For every multipole [ell] of the caller's array and every pair
    of registered kernel tags that [generateCls] treats, the integrator
    takes the wavenumbers [k_i = (ell+0.5)/chi_i], drops every grid point
    with [k_i < 1e-4] or [k_i >= kmax] (and those below [zmin]), and
    stores as spectrum value the sum, over the surviving grid points, of
    [dchi_i * P(z_i,k_i) * H_i^2/chi_i^2/c^2 * W1_i * W2_i]: the array
    under [key1+","+key2] lists, multipole after multipole, that value
    for every pair stored under this key, and is the array of the values
    of [(key1, key2)] over [ellrange] when no other pair shares the key. *)
Theorem generateCls_limber (self : LimberCosmology) (ellrange : list R)
    (autoOnly : bool) (zmin : R) (pk : R -> R -> R) :
  aligned self -> windows_ready self -> power_ready self ->
  provider self = Some pk ->
  exists self' m,
    generateCls ellrange autoOnly zmin self = (Ok tt, self') /\
    Clmatrix self' = Some m /\
    Limber.ellrange self' = Some ellrange /\
    kernels self' = kernels self /\
    forall key1 key2,
      In (key1, key2) (listKeys autoOnly self) ->
      m !! pairkey (key1, key2)
      = Some (flat_map
                (fun ell =>
                   map (fun p => limber_sum self pk zmin ell (window self p.1) (window self p.2))
                     (same_key (pairkey (key1, key2)) (listKeys autoOnly self)))
                ellrange) /\
      (same_key (pairkey (key1, key2)) (listKeys autoOnly self) = [(key1, key2)] ->
       m !! pairkey (key1, key2)
       = Some (map (fun ell => limber_sum self pk zmin ell (window self key1) (window self key2))
                 ellrange)).
Proof.
  intros Ha Hw Hp Hpk.
  eexists _, _. split; [apply generateCls_run; eassumption|].
  split; [reflexivity|]. split; [reflexivity|].
  split; [cbn [kernels set_Cls]; destruct (skipPower self); reflexivity|].
  intros key1 key2 Hin.
  assert (E : forall k' : string,
             existsb (fun p => String.eqb (pairkey p) k') (listKeys autoOnly self) = true ->
             fold_left
               (fun (m : gmap string (list R)) ell =>
                  fold_left
                    (fun (m : gmap string (list R)) p =>
                       alter (fun l => l ++ [limber_sum self pk zmin ell
                                               (window self p.1) (window self p.2)])
                         (pairkey p) m)
                    (listKeys autoOnly self) m)
               ellrange
               (fold_left (fun (m : gmap string (list R)) p => <[pairkey p := []]> m)
                  (listKeys autoOnly self) ∅) !! k'
             = Some (flat_map
                       (fun ell =>
                          map (fun p => limber_sum self pk zmin ell
                                          (window self p.1) (window self p.2))
                            (same_key k' (listKeys autoOnly self)))
                       ellrange)).
  { intros k' Hk'.
    rewrite (fold_ells_lookup
               (fun ell p => limber_sum self pk zmin ell (window self p.1) (window self p.2))
               pairkey).
    rewrite fold_insert_lookup, Hk'. reflexivity. }
  split.
  - apply E. now apply same_key_in.
  - intros Hsame. rewrite E by now apply same_key_in.
    rewrite Hsame. f_equal.
Qed.

End LimberIntegrator.

(** ** States reached through the constructor and the builders *)

Section Reachable.
Import Limber Spec.

Lemma init_aligned (c : Cosmology) (numz : nat) (kmax0 : R) (skip : bool)
    (pkgrid_override : option (R -> R -> R)) :
  aligned (__init__ c numz kmax0 skip pkgrid_override).
Proof.
  destruct (init_lengths c numz kmax0 skip pkgrid_override) as (Lc & Lz & Ld & LH).
  unfold aligned. rewrite Lc, Lz, Ld, LH. auto.
Qed.

Lemma init_windows_ready (c : Cosmology) (numz : nat) (kmax0 : R) (skip : bool)
    (pkgrid_override : option (R -> R -> R)) :
  windows_ready (__init__ c numz kmax0 skip pkgrid_override).
Proof.
  pose proof (init_aligned c numz kmax0 skip pkgrid_override) as (Hz & _ & HH).
  revert Hz HH. unfold windows_ready, __init__.
  destruct skip; cbn; intros Hz HH tag k;
    (destruct (String.eqb tag "cmb"); [|discriminate]);
    intros [= <-]; eexists; (split; [reflexivity|]); cbn;
    rewrite length_zip_with, !length_zip, !length_map; lia.
Qed.

Lemma init_power_ready (c : Cosmology) (numz : nat) (kmax0 : R) (skip : bool)
    (pkgrid_override : option (R -> R -> R)) :
  power_ready (__init__ c numz kmax0 skip pkgrid_override).
Proof.
  unfold power_ready, __init__. destruct skip; cbn; [discriminate|].
  intros _. eexists. split; reflexivity.
Qed.

Lemma init_keys (c : Cosmology) (numz : nat) (kmax0 : R) (skip : bool)
    (pkgrid_override : option (R -> R -> R)) :
  odict.keys (kernels (__init__ c numz kmax0 skip pkgrid_override)) = ["cmb"%string].
Proof. unfold __init__. destruct skip; reflexivity. Qed.

(** A successful [addDeltaNz] for a lensing kernel keeps the grid and
    leaves every kernel with a window on it. *)
Lemma addDeltaNz_ready (self : LimberCosmology) (tag : string) (zsource : R)
    (ignore_exists : bool) :
  tag <> "cmb"%string ->
  ignore_exists = true \/ odict.mem tag (kernels self) = false ->
  aligned self -> windows_ready self -> power_ready self ->
  let self' := (addDeltaNz tag zsource None None ignore_exists self).2 in
  aligned self' /\ windows_ready self' /\ power_ready self' /\
  provider self' = provider self /\
  odict.keys (kernels self') = odict.keys (odict.set tag kernel_empty (kernels self)).
Proof.
  intros Hcmb Hfresh Ha Hw Hp. cbv zeta.
  rewrite (addDeltaNz_run self tag zsource None ignore_exists Hcmb Hfresh).
  cbn [snd]. split; [exact Ha|]. split; [|split; [exact Hp|split; [reflexivity|]]].
  - intros tag' k'. cbn [kernels set_kernels chis].
    destruct (String.eqb tag' tag) eqn:E.
    + apply String.eqb_eq in E. subst tag'. rewrite odict_get_set_eq.
      intros [= <-]. eexists. split; [reflexivity|].
      destruct Ha as (Hz & _ & HH). unfold grid.
      rewrite length_zip_with, mask_set_length, !length_zip, !length_map; rewrite ?length_map; lia.
    + rewrite odict_get_set_ne; [apply Hw|].
      intros ->. now rewrite String.eqb_refl in E.
  - cbn [kernels set_kernels]. clear.
    unfold odict.keys. induction (kernels self) as [|[k' v'] d IH]; simpl; [reflexivity|].
    destruct (String.eqb tag k'); simpl; [reflexivity | now rewrite IH].
Qed.

End Reachable.

(** ** Symmetric lookup in the ClMatrix *)

Section ClMatrix.
Import Limber Spec.

Lemma pairkey_inj (a b a' b' : string) :
  no_comma a = true -> no_comma a' = true ->
  pairkey (a, b) = pairkey (a', b') -> a = a' /\ b = b'.
Proof.
  unfold pairkey. cbn [fst snd]. revert a'.
  assert (Hnil : forall t : string, ("" +:+ t = t)%string) by reflexivity.
  assert (Hcons : forall (c : ascii) (u t : string),
             (String c u +:+ t = String c (u +:+ t))%string) by reflexivity.
  induction a as [|c a IH]; intros [|c' a'] Ha Ha' E;
    rewrite ?Hnil, ?Hcons in E; simpl in Ha, Ha'.
  - injection E as E. subst. auto.
  - injection E as <- _. discriminate.
  - injection E as -> _. discriminate.
  - apply andb_true_iff in Ha, Ha'. destruct Ha as [_ Ha], Ha' as [_ Ha'].
    injection E as -> E. destruct (IH a' Ha Ha' E) as [-> ->]. auto.
Qed.

Lemma filter_none {A : Type} (f : A -> bool) (l : list A) :
  (forall q, In q l -> f q = false) -> List.filter f l = [].
Proof.
  induction l as [|x l IH]; intros H; [reflexivity|].
  simpl. rewrite (H x (or_introl eq_refl)). apply IH.
  intros q Hq. apply H. now right.
Qed.

Lemma filter_unique {A : Type} (f : A -> bool) (l : list A) (p : A) :
  NoDup l -> In p l -> f p = true ->
  (forall q, In q l -> f q = true -> q = p) ->
  List.filter f l = [p].
Proof.
  induction l as [|x l IH]; intros Hnd Hin Hp Huniq; [destruct Hin|].
  apply NoDup_cons in Hnd. destruct Hnd as [Hx Hnd].
  assert (Hrest : forall q, In q l -> f q = true -> q = p)
    by (intros q Hq; apply Huniq; now right).
  simpl. destruct (f x) eqn:Ex.
  - assert (x = p) by (apply Huniq; [now left | assumption]). subst x.
    f_equal. apply filter_none. intros q Hq.
    destruct (f q) eqn:Eq; [|reflexivity].
    exfalso. apply Hx. rewrite <- (Hrest q Hq Eq). now apply list_elem_of_In.
  - destruct Hin as [->|Hin]; [congruence|]. now apply IH.
Qed.

Lemma combinations_NoDup {A : Type} (l : list A) :
  NoDup l -> NoDup (combinations_with_replacement2 l).
Proof.
  induction l as [|x l IH]; intros Hnd; [constructor|].
  apply NoDup_cons in Hnd. destruct Hnd as [Hx Hnd].
  cbn [combinations_with_replacement2]. apply NoDup_app. split; [|split].
  - change (map (pair x) (x :: l)) with (pair x <$> (x :: l)).
    apply NoDup_fmap_2; [intros ? ? [=]; assumption|].
    apply NoDup_cons. auto.
  - intros [a b] Hin Hin'.
    apply list_elem_of_In, in_map_iff in Hin. destruct Hin as (y & [= <- <-] & _).
    apply list_elem_of_In, combinations_in in Hin'. destruct Hin' as [Hin' _].
    apply Hx. now apply list_elem_of_In.
  - now apply IH.
Qed.

Lemma zip_diag_NoDup {A : Type} (l : list A) : NoDup l -> NoDup (zip l l).
Proof.
  induction l as [|x l IH]; intros Hnd; [constructor|].
  apply NoDup_cons in Hnd. destruct Hnd as [Hx Hnd].
  cbn [zip zip_with]. apply NoDup_cons. split; [|now apply IH].
  intros Hin. apply list_elem_of_In, zip_diag_in in Hin.
  apply Hx. apply list_elem_of_In. tauto.
Qed.

Lemma listKeys_NoDup (autoOnly : bool) (self : LimberCosmology) :
  NoDup (odict.keys (kernels self)) -> NoDup (listKeys autoOnly self).
Proof.
  unfold listKeys. destruct autoOnly; [apply zip_diag_NoDup | apply combinations_NoDup].
Qed.

(** Without [autoOnly] every unordered pair is stored in one order. *)
Lemma combinations_cover {A : Type} (l : list A) (a b : A) :
  In a l -> In b l ->
  In (a, b) (combinations_with_replacement2 l) \/ In (b, a) (combinations_with_replacement2 l).
Proof.
  induction l as [|x l IH]; [intros []|].
  intros Ha Hb. cbn [combinations_with_replacement2].
  destruct Ha as [->|Ha].
  - left. apply in_or_app. left. now apply in_map.
  - destruct Hb as [->|Hb].
    + right. apply in_or_app. left. apply in_map. now right.
    + destruct (IH Ha Hb); [left | right]; apply in_or_app; now right.
Qed.

Lemma limber_sum_comm (self : LimberCosmology) (pk : R -> R -> R) (zmin ell : R)
    (W1 W2 : list R) :
  limber_sum self pk zmin ell W1 W2 = limber_sum self pk zmin ell W2 W1.
Proof.
  unfold limber_sum. f_equal. apply map_ext. intros i.
  unfold limber_term. ring.
Qed.

(** The whole dictionary of [generateCls], key by key. *)
Lemma Clmatrix_lookup (self : LimberCosmology) (ellrange : list R) (autoOnly : bool)
    (zmin : R) (pk : R -> R -> R) (k : string) :
  aligned self -> windows_ready self -> power_ready self ->
  provider self = Some pk ->
  exists m,
    Clmatrix (generateCls ellrange autoOnly zmin self).2 = Some m /\
    m !! k
    = if existsb (fun p => String.eqb (pairkey p) k) (listKeys autoOnly self)
      then Some (flat_map
                   (fun ell =>
                      map (fun p => limber_sum self pk zmin ell (window self p.1) (window self p.2))
                        (same_key k (listKeys autoOnly self)))
                   ellrange)
      else None.
Proof.
  intros Ha Hw Hp Hpk.
  rewrite (generateCls_run self ellrange autoOnly zmin pk Ha Hw Hp Hpk).
  eexists. split; [reflexivity|].
  rewrite (fold_ells_lookup
             (fun ell p => limber_sum self pk zmin ell (window self p.1) (window self p.2))
             pairkey).
  rewrite fold_insert_lookup.
  destruct (existsb _ _); [reflexivity|]. now rewrite lookup_empty.
Qed.

(** With comma-free tags a dictionary key names one pair. *)
Lemma Clmatrix_lookup_pair (self : LimberCosmology) (ellrange : list R) (autoOnly : bool)
    (zmin : R) (pk : R -> R -> R) (a b : string) :
  aligned self -> windows_ready self -> power_ready self ->
  provider self = Some pk ->
  NoDup (odict.keys (kernels self)) -> comma_free self ->
  no_comma a = true ->
  exists m,
    Clmatrix (generateCls ellrange autoOnly zmin self).2 = Some m /\
    (In (a, b) (listKeys autoOnly self) ->
     m !! pairkey (a, b)
     = Some (map (fun ell => limber_sum self pk zmin ell (window self a) (window self b))
               ellrange)) /\
    (~ In (a, b) (listKeys autoOnly self) -> m !! pairkey (a, b) = None).
Proof.
  intros Ha Hw Hp Hpk Hnd Hcf Hca.
  destruct (Clmatrix_lookup self ellrange autoOnly zmin pk (pairkey (a, b)) Ha Hw Hp Hpk)
    as (m & Hm & Hk).
  assert (Huniq : forall q, In q (listKeys autoOnly self) ->
                            String.eqb (pairkey q) (pairkey (a, b)) = true -> q = (a, b)).
  { intros [x y] Hq E. apply String.eqb_eq in E.
    destruct (listKeys_in _ _ _ _ Hq) as [Hx _].
    destruct (pairkey_inj x y a b (Hcf x Hx) Hca E) as [-> ->]. reflexivity. }
  exists m. split; [assumption|]. split.
  - intros Hin. rewrite Hk, (same_key_in _ _ _ Hin).
    unfold same_key.
    rewrite (filter_unique _ _ (a, b) (listKeys_NoDup autoOnly self Hnd) Hin
               (String.eqb_refl _) Huniq).
    f_equal.
  - intros Hnin. rewrite Hk.
    destruct (existsb _ _) eqn:E; [|reflexivity].
    apply existsb_exists in E. destruct E as (q & Hq & E).
    rewrite (Huniq q Hq E) in Hq. contradiction.
Qed.

Lemma zip_diag_refl {A : Type} (l : list A) (a : A) : In a l -> In (a, a) (zip l l).
Proof.
  induction l as [|x l IH]; [intros []|].
  intros [-> | H]; [now left | right; auto].
Qed.

Lemma listKeys_diag (autoOnly : bool) (self : LimberCosmology) (a : string) :
  In a (odict.keys (kernels self)) -> In (a, a) (listKeys autoOnly self).
Proof.
  intros H. unfold listKeys. destruct autoOnly.
  - now apply zip_diag_refl.
  - destruct (combinations_cover _ a a H H); assumption.
Qed.

Lemma zip_diag_eq {A : Type} (l : list A) (a b : A) : In (a, b) (zip l l) -> a = b.
Proof.
  induction l as [|x l IH]; [intros []|].
  intros [H | H]; [injection H as <- <-; reflexivity | now apply IH].
Qed.

(** C7 (as amended).  After [generateCls], for registered tags that do
    not contain the separator [","]: [getCl a b] and [getCl b a] have the
    same outcome; [getCl a b] is the entry under the canonical key, on a
    miss the entry under the reversed key, and [KeyError] only when both
    miss; the outcome is the spectrum of the pair when all pairs were
    requested ([autoOnly] unset) or [a = b], and [KeyError] in both
    orders for a cross pair under [autoOnly]. *)
Theorem getCl_symmetric (self : LimberCosmology) (ellrange : list R) (autoOnly : bool)
    (zmin : R) (pk : R -> R -> R) (a b : string) :
  aligned self -> windows_ready self -> power_ready self -> zs self <> [] ->
  provider self = Some pk ->
  NoDup (odict.keys (kernels self)) -> comma_free self ->
  In a (odict.keys (kernels self)) -> In b (odict.keys (kernels self)) ->
  let self' := (generateCls ellrange autoOnly zmin self).2 in
  let spectrum :=
    map (fun ell => limber_sum self pk zmin ell (window self a) (window self b)) ellrange in
  getCl self' a b = getCl self' b a /\
  (exists m,
     Clmatrix self' = Some m /\
     getCl self' a b
     = match m !! pairkey (a, b), m !! pairkey (b, a) with
       | Some cl, _ => Ok cl
       | None, Some cl => Ok cl
       | None, None => Raise KeyError
       end) /\
  (autoOnly = false \/ a = b -> getCl self' a b = Ok spectrum) /\
  (autoOnly = true -> a <> b ->
   getCl self' a b = Raise KeyError /\ getCl self' b a = Raise KeyError).
Proof.
  intros Ha Hw Hp _ Hpk Hnd Hcf Hina Hinb. cbv zeta.
  destruct (Clmatrix_lookup_pair self ellrange autoOnly zmin pk a b
              Ha Hw Hp Hpk Hnd Hcf (Hcf a Hina)) as (m & Hm & Hab & Hab').
  destruct (Clmatrix_lookup_pair self ellrange autoOnly zmin pk b a
              Ha Hw Hp Hpk Hnd Hcf (Hcf b Hinb)) as (m' & Hm' & Hba & Hba').
  assert (m' = m) by congruence. subst m'.
  assert (Hsym : map (fun ell => limber_sum self pk zmin ell (window self b) (window self a))
                   ellrange
                 = map (fun ell => limber_sum self pk zmin ell (window self a) (window self b))
                     ellrange).
  { apply map_ext. intros ell. apply limber_sum_comm. }
  assert (Hget : forall x y, getCl (generateCls ellrange autoOnly zmin self).2 x y
                 = match m !! pairkey (x, y), m !! pairkey (y, x) with
                   | Some cl, _ => Ok cl
                   | None, Some cl => Ok cl
                   | None, None => Raise KeyError
                   end).
  { intros x y. unfold getCl, getitem. rewrite Hm.
    destruct (m !! pairkey (x, y)); [reflexivity|].
    destruct (m !! pairkey (y, x)); reflexivity. }
  split; [|split; [exists m; split; [exact Hm | apply Hget]|split]].
  - rewrite !Hget.
    destruct (in_dec (fun x y : string * string => decide (x = y)) (a, b)
                (listKeys autoOnly self)) as [Iab|Iab];
      destruct (in_dec (fun x y : string * string => decide (x = y)) (b, a)
                  (listKeys autoOnly self)) as [Iba|Iba];
      rewrite ?(Hab Iab), ?(Hab' Iab), ?(Hba Iba), ?(Hba' Iba), ?Hsym; reflexivity.
  - intros Hall. rewrite Hget.
    assert (Hin : In (a, b) (listKeys autoOnly self) \/ In (b, a) (listKeys autoOnly self)).
    { destruct Hall as [-> | <-].
      - unfold listKeys. apply combinations_cover; assumption.
      - left. now apply listKeys_diag. }
    destruct (in_dec (fun x y : string * string => decide (x = y)) (a, b)
                (listKeys autoOnly self)) as [Iab|Iab].
    + now rewrite (Hab Iab).
    + destruct Hin as [Iab' | Iba]; [contradiction|].
      now rewrite (Hab' Iab), (Hba Iba), Hsym.
  - intros -> Hne.
    assert (Iab : ~ In (a, b) (listKeys true self)).
    { intros Hin. apply Hne. unfold listKeys in Hin. now apply zip_diag_eq in Hin. }
    assert (Iba : ~ In (b, a) (listKeys true self)).
    { intros Hin. apply Hne. unfold listKeys in Hin. symmetry. now apply zip_diag_eq in Hin. }
    rewrite !Hget, (Hab' Iab), (Hba' Iba). split; reflexivity.
Qed.

End ClMatrix.

(** ** Bin averages and the Knox covariance *)

Section BinAverage.
Import Theory Forecast Spec.

Lemma forM_length {A B : Type} (f : A -> result B) (xs : list A) (ys : list B) :
  forM f xs = Ok ys -> length ys = length xs.
Proof.
  revert ys. induction xs as [|x xs IH]; intros ys H; cbn in H.
  - injection H as <-. reflexivity.
  - destruct (f x); cbn in H; [|discriminate].
    destruct (forM f xs); cbn in H; [|discriminate].
    injection H as <-. cbn. now rewrite (IH _ eq_refl).
Qed.

Lemma forM_pure {A B : Type} (f : A -> result B) (g : A -> B) (xs : list A) :
  (forall x, In x xs -> f x = Ok (g x)) -> forM f xs = Ok (map g xs).
Proof.
  induction xs as [|x xs IH]; intros H; [reflexivity|].
  cbn. rewrite H by now left. cbn. rewrite IH; [reflexivity|].
  intros y Hy. apply H. now right.
Qed.

Lemma forM_lookup {A B : Type} (f : A -> result B) (xs : list A) (ys : list B)
    (i : nat) (x : A) :
  forM f xs = Ok ys -> xs !! i = Some x -> exists y, f x = Ok y /\ ys !! i = Some y.
Proof.
  revert ys i. induction xs as [|x0 xs IH]; intros ys i H Hx; [discriminate|].
  cbn in H. destruct (f x0) as [y0|] eqn:E0; cbn in H; [|discriminate].
  destruct (forM f xs) as [ys'|] eqn:E; cbn in H; [|discriminate].
  injection H as <-. destruct i as [|i]; cbn in Hx.
  - injection Hx as <-. eauto.
  - destruct (IH ys' i eq_refl Hx) as (y & ? & ?). eauto.
Qed.

Lemma plus_zero_tot (cls : list R) (ells : list Z) :
  length cls = length ells ->
  map (fun c => c + 0) cls = zip_with Rplus cls (map (fun _ : Z => 0) ells).
Proof.
  revert ells. induction cls as [|c cls IH]; intros [|l ells] H; try discriminate;
    [reflexivity|].
  cbn. f_equal. apply IH. now injection H.
Qed.

(** What [_bin_cls] computes, in one formula. *)
Lemma bin_cls_unfold (self : LensForecast) (spec : string) (ell_left ell_right : Z)
    (noise : bool) (f : spectrum) :
  gCl_func (theory self) spec = Ok f ->
  _bin_cls self spec ell_left ell_right noise
  = (nz ← bin_noise self spec noise (np.arange_incl ell_left ell_right);
     fdiv (np.sum (zip_with (fun l t => IZR l * t) (np.arange_incl ell_left ell_right)
                     (zip_with Rplus
                        (map (fun l => f (NInt l)) (np.arange_incl ell_left ell_right)) nz)))
          (np.sum (map IZR (np.arange_incl ell_left ell_right)))).
Proof.
  intros Hf. unfold _bin_cls, bin_noise.
  destruct (unpack2 spec) as [[a b]|e]; cbn [mbind result_bind]; [|reflexivity].
  rewrite Hf. cbn [mbind result_bind fst snd].
  set (ells := np.arange_incl ell_left ell_right).
  assert (Hz : forall t : list R,
             np.vmul (map IZR ells) t = zip_with (fun l t => IZR l * t) ells t).
  { intros t. unfold np.vmul. revert t.
    induction ells as [|l ells IH]; intros [|t0 t]; cbn; try reflexivity.
    now rewrite IH. }
  destruct noise; cbn [andb].
  - destruct (Ascii.eqb a b); cbn [mbind result_bind].
    + destruct (getitem (Nls self) spec) as [N|]; cbn [mbind result_bind]; [|reflexivity].
      destruct (forM _ ells) as [nz|]; cbn [mbind result_bind]; [|reflexivity].
      now rewrite Hz.
    + rewrite Hz, (plus_zero_tot _ ells) by now rewrite length_map. reflexivity.
  - cbn [mbind result_bind].
    rewrite Hz, (plus_zero_tot _ ells) by now rewrite length_map. reflexivity.
Qed.

Lemma fdiv_ok (x y : R) : y <> 0 -> fdiv x y = Ok (x / y).
Proof. intros H. unfold fdiv. now destruct (Req_dec_T y 0). Qed.

Lemma fdiv_inv (x y v : R) : fdiv x y = Ok v -> y <> 0 /\ v = x / y.
Proof.
  unfold fdiv. destruct (Req_dec_T y 0); [discriminate|].
  intros [= <-]. auto.
Qed.

(** C10.  In the bin average, noise goes to auto spectra only.  For a
    tag whose two letters are equal, the registered noise curve is added
    to the signal before the multipole-weighted average; for a tag whose
    two letters differ, asking for noise changes nothing: the average is
    that of the signal alone, whether or not a noise curve is registered
    under the tag. *)
Theorem bin_cls_noise_auto_only (self : LensForecast) (a b : ascii)
    (ell_left ell_right : Z) (f : spectrum) :
  gCl_func (theory self) (cat2 a b) = Ok f ->
  np.sum (map IZR (np.arange_incl ell_left ell_right)) <> 0 ->
  let ells := np.arange_incl ell_left ell_right in
  let signal := map (fun l => f (NInt l)) ells in
  (a = b ->
   forall (N : noise_curve) (nz : list R),
     Nls self !! cat2 a b = Some N ->
     forM (fun l => N (NInt l)) ells = Ok nz ->
     _bin_cls self (cat2 a b) ell_left ell_right true
     = Ok (weighted_mean ells (zip_with Rplus signal nz))) /\
  (a <> b ->
   _bin_cls self (cat2 a b) ell_left ell_right true
   = _bin_cls self (cat2 a b) ell_left ell_right false /\
   _bin_cls self (cat2 a b) ell_left ell_right true
   = Ok (weighted_mean ells (zip_with Rplus signal (map (fun _ => 0) ells))) /\
   weighted_mean ells (zip_with Rplus signal (map (fun _ => 0) ells))
   = weighted_mean ells signal) /\
  _bin_cls self (cat2 a b) ell_left ell_right false = Ok (weighted_mean ells signal).
Proof.
  intros Hf Hsum ells signal.
  assert (Hzero : zip_with Rplus signal (map (fun _ : Z => 0) ells) = signal).
  { unfold signal. induction ells as [|l ells' IH]; cbn; [reflexivity|].
    rewrite IH. f_equal. lra. }
  assert (Hoff : _bin_cls self (cat2 a b) ell_left ell_right false
                 = Ok (weighted_mean ells signal)).
  { rewrite (bin_cls_unfold _ _ _ _ _ f Hf). unfold bin_noise. cbn.
    fold ells. fold signal. rewrite Hzero. now apply fdiv_ok. }
  split; [|split].
  - intros -> N nz HN Hnz.
    rewrite (bin_cls_unfold _ _ _ _ _ f Hf). unfold bin_noise, getitem.
    cbn [unpack2 cat2 mbind result_bind fst snd andb].
    rewrite Ascii.eqb_refl, HN. cbn [mbind result_bind].
    fold ells. rewrite Hnz. cbn [mbind result_bind].
    now apply fdiv_ok.
  - intros Hne.
    assert (Hon : _bin_cls self (cat2 a b) ell_left ell_right true
                  = Ok (weighted_mean ells (zip_with Rplus signal (map (fun _ => 0) ells)))).
    { rewrite (bin_cls_unfold _ _ _ _ _ f Hf). unfold bin_noise.
      cbn [unpack2 cat2 mbind result_bind fst snd andb].
      destruct (Ascii.eqb a b) eqn:E; [apply Ascii.eqb_eq in E; contradiction|].
      cbn [mbind result_bind]. now apply fdiv_ok. }
    rewrite Hon, Hoff, Hzero. auto.
  - exact Hoff.
Qed.

End BinAverage.

Section Knox.
Import Theory Forecast Spec.

Lemma bin_cls_inv (self : LensForecast) (spec : string) (ell_left ell_right : BinNums.Z)
    (noise : bool) (v : R) :
  _bin_cls self spec ell_left ell_right noise = Ok v ->
  exists f nz,
    gCl_func (theory self) spec = Ok f /\
    bin_noise self spec noise (np.arange_incl ell_left ell_right) = Ok nz /\
    np.sum (map IZR (np.arange_incl ell_left ell_right)) <> 0 /\
    v = weighted_mean (np.arange_incl ell_left ell_right)
          (zip_with Rplus (map (fun l => f (NInt l)) (np.arange_incl ell_left ell_right)) nz).
Proof.
  intros H. destruct (gCl_func (theory self) spec) as [f|e] eqn:Hf.
  - rewrite (bin_cls_unfold _ _ _ _ _ f Hf) in H.
    destruct (bin_noise self spec noise _) as [nz|] eqn:Hn; cbn in H; [|discriminate].
    apply fdiv_inv in H. destruct H as [Hs ->].
    exists f, nz. auto.
  - unfold _bin_cls in H. rewrite Hf in H.
    destruct (unpack2 spec); cbn in H; discriminate.
Qed.

Lemma bin_positive (b : BinNums.Z * BinNums.Z) :
  (0 <= b.1 < b.2)%Z ->
  2 * ((IZR b.2 + IZR b.1) / 2) + 1 <> 0 /\ IZR b.2 - IZR b.1 <> 0.
Proof.
  intros [H0 H1]. apply IZR_le in H0. apply IZR_lt in H1. split; lra.
Qed.

(** C3.  For every spectrum pair [(XY, WZ)], every bin of non-negative
    multipoles [ell_left < ell_right] and every [fsky > 0], the Knox
    covariance of the bin is
    [(C_tot(XW)*C_tot(YZ) + C_tot(XZ)*C_tot(YW))
     / ((2*ell_mid+1) * Delta_ell * fsky)],
    each [C_tot] being the multipole-weighted bin average of signal plus
    noise; for [XY = WZ] with [X = Y] this is
    [2*C_tot(XX)^2 / ((2*ell_mid+1) * Delta_ell * fsky)]. *)
Theorem KnoxCov_formula (self : LensForecast) (X Y W Z : ascii)
    (ellBinEdges : list BinNums.Z) (fsky : R)
    (Ctot Csig : string -> BinNums.Z * BinNums.Z -> R) :
  0 < fsky ->
  (forall b, In b (bins ellBinEdges) -> (0 <= b.1 < b.2)%Z) ->
  (forall b spec, In b (bins ellBinEdges) ->
                  In spec [cat2 X W; cat2 Y Z; cat2 X Z; cat2 Y W] ->
                  _bin_cls self spec b.1 b.2 true = Ok (Ctot spec b)) ->
  (forall b spec, In b (bins ellBinEdges) ->
                  In spec [cat2 X Y; cat2 W Z] ->
                  _bin_cls self spec b.1 b.2 false = Ok (Csig spec b)) ->
  exists covs sigs1 sigs2,
    KnoxCov self (cat2 X Y) (cat2 W Z) ellBinEdges fsky = Ok (covs, sigs1, sigs2) /\
    covs = map (fun b => knox_var (Ctot (cat2 X W) b) (Ctot (cat2 Y Z) b)
                           (Ctot (cat2 X Z) b) (Ctot (cat2 Y W) b) b fsky)
             (bins ellBinEdges) /\
    (forall b spec, In b (bins ellBinEdges) ->
                    In spec [cat2 X W; cat2 Y Z; cat2 X Z; cat2 Y W] ->
       exists f nz,
         gCl_func (theory self) spec = Ok f /\
         bin_noise self spec true (np.arange_incl b.1 b.2) = Ok nz /\
         Ctot spec b
         = weighted_mean (np.arange_incl b.1 b.2)
             (zip_with Rplus (map (fun l => f (NInt l)) (np.arange_incl b.1 b.2)) nz)) /\
    (X = Y -> W = X -> Z = X ->
     covs = map (fun b => 2 * Ctot (cat2 X X) b ^ 2
                          / ((2 * ((IZR b.2 + IZR b.1) / 2) + 1) * (IZR b.2 - IZR b.1) * fsky))
              (bins ellBinEdges)).
Proof.
  intros Hf Hb Ht Hs.
  set (row := fun b : BinNums.Z * BinNums.Z =>
                let var := knox_var (Ctot (cat2 X W) b) (Ctot (cat2 Y Z) b)
                             (Ctot (cat2 X Z) b) (Ctot (cat2 Y W) b) b fsky in
                (var, Csig (cat2 X Y) b ^ 2 * nan_to_num_recip var,
                 Csig (cat2 W Z) b ^ 2 * nan_to_num_recip var)).
  assert (Hrows : forM (KnoxCov_bin self (cat2 X Y) (cat2 W Z) X Y W Z fsky)
                    (bins ellBinEdges) = Ok (map row (bins ellBinEdges))).
  { apply forM_pure. intros b Hin. unfold KnoxCov_bin.
    rewrite !(Ht b) by (assumption || (cbn; tauto)).
    cbn [mbind result_bind].
    destruct (bin_positive b (Hb b Hin)) as [Hm Hw].
    rewrite (fdiv_ok _ _ Hm). cbn [mbind result_bind].
    rewrite (fdiv_ok _ _ Hw). cbn [mbind result_bind].
    rewrite (fdiv_ok _ fsky) by lra. cbn [mbind result_bind].
    rewrite !(Hs b) by (assumption || (cbn; tauto)).
    cbn [mbind result_bind]. unfold row, knox_var. cbv zeta.
    replace ((Ctot (cat2 X W) b * Ctot (cat2 Y Z) b + Ctot (cat2 X Z) b * Ctot (cat2 Y W) b)
             / (2 * ((IZR b.2 + IZR b.1) / 2) + 1) / (IZR b.2 - IZR b.1) / fsky)
      with ((Ctot (cat2 X W) b * Ctot (cat2 Y Z) b + Ctot (cat2 X Z) b * Ctot (cat2 Y W) b)
            / ((2 * ((IZR b.2 + IZR b.1) / 2) + 1) * (IZR b.2 - IZR b.1) * fsky))
      by (field; repeat split; lra).
    reflexivity. }
  eexists _, _, _. split.
  - unfold KnoxCov. cbn [unpack2 cat2 mbind result_bind fst snd].
    rewrite Hrows. cbn [mbind result_bind]. reflexivity.
  - split; [|split].
    + rewrite map_map. reflexivity.
    + intros b spec Hin Hspec.
      destruct (bin_cls_inv _ _ _ _ _ _ (Ht b spec Hin Hspec)) as (f & nz & H1 & H2 & _ & H4).
      exists f, nz. auto.
    + intros -> -> ->. rewrite map_map. apply map_ext. intros b.
      unfold row, knox_var. cbn [fst snd]. f_equal. ring.
Qed.

End Knox.

(** ** The joint cross-correlation estimator *)

Section JointEstimator.
Import Theory Forecast Spec.

Lemma snRatio_bin_run (self : LensForecast) (fsky : R) (acc : sn_acc) (mw : R * R)
    (v : bin_spectra) :
  bin_values self mw.1 v ->
  Csg v <> 0 -> fsky * (2 * mw.1 + 1) * mw.2 <> 0 -> sigmaZsq v fsky mw <> 0 ->
  snRatio_bin self fsky acc mw
  = Ok {| sumchisq := sumchisq acc + Csg v ^ 2 / sigmaZsq v fsky mw;
          signum := signum acc + Ckg v * Csg v / sigmaZsq v fsky mw;
          sigden := sigden acc + Csg v ^ 2 / sigmaZsq v fsky mw |}.
Proof.
  intros (Hkk & (N1 & HN1 & Hn1) & (N2 & HN2 & Hn2) & (N3 & HN3 & Hn3)
          & Hkg & Hgg & Hks & Hss & Hsg) Hc Hp Hz.
  unfold snRatio_bin, getitem.
  repeat (first [rewrite Hkk | rewrite HN1 | rewrite Hn1 | rewrite HN2 | rewrite Hn2
                | rewrite HN3 | rewrite Hn3 | rewrite Hkg | rewrite Hgg | rewrite Hks
                | rewrite Hss | rewrite Hsg];
          cbn [mbind result_bind]).
  rewrite (fdiv_ok _ _ Hc). cbn [mbind result_bind].
  rewrite (fdiv_ok _ _ Hp). cbn [mbind result_bind].
  fold (sigmaZsq v fsky mw).
  rewrite !(fdiv_ok _ _ Hz). cbn [mbind result_bind]. reflexivity.
Qed.

Lemma snRatio_loop (self : LensForecast) (fsky : R) (vals : R * R -> bin_spectra)
    (bs : list (R * R)) :
  (forall mw, In mw bs ->
              bin_values self mw.1 (vals mw) /\ Csg (vals mw) <> 0 /\
              fsky * (2 * mw.1 + 1) * mw.2 <> 0 /\ sigmaZsq (vals mw) fsky mw <> 0) ->
  forall acc,
    foldM (snRatio_bin self fsky) acc bs
    = Ok {| sumchisq := sumchisq acc + sum_chisq vals fsky bs;
            signum := signum acc + sum_num vals fsky bs;
            sigden := sigden acc + sum_chisq vals fsky bs |}.
Proof.
  unfold sum_chisq, sum_num.
  induction bs as [|mw bs IH]; intros H acc; cbn [foldM map np.sum fold_right].
  - destruct acc. cbn. now rewrite !Rplus_0_r.
  - destruct (H mw (or_introl eq_refl)) as (Hv & Hc & Hp & Hz).
    rewrite (snRatio_bin_run self fsky acc mw (vals mw) Hv Hc Hp Hz).
    cbn [mbind result_bind]. rewrite IH by (intros; apply H; now right).
    cbn [sumchisq signum sigden]. unfold np.sum. f_equal. f_equal; lra.
Qed.

(** C4 (as amended).  [snRatio] accumulates, over the bins,
    [signum = sum of Clkg*Clsg/sigma_Z^2] and
    [sigden = sum of Clsg^2/sigma_Z^2]; it returns the amplitude
    [signum/sigden], the uncertainty [1/sqrt(sum of Clsg^2/sigma_Z^2)]
    (as a percentage of the amplitude) and the signal-to-noise, amplitude
    over uncertainty; when [Clkg = r * Clsg] in every bin the amplitude
    is [r].  All this needs [sigma_Z^2] nonzero in every bin. *)
Theorem snRatio_formula (self : LensForecast) (ellBinEdges : list BinNums.Z) (fsky : R)
    (vals : R * R -> bin_spectra) :
  (forall mw, In mw (mids_widths ellBinEdges) ->
              bin_values self mw.1 (vals mw) /\ Csg (vals mw) <> 0 /\
              fsky * (2 * mw.1 + 1) * mw.2 <> 0 /\ sigmaZsq (vals mw) fsky mw <> 0) ->
  0 < sum_chisq vals fsky (mids_widths ellBinEdges) ->
  sum_num vals fsky (mids_widths ellBinEdges) <> 0 ->
  let signum := sum_num vals fsky (mids_widths ellBinEdges) in
  let sigden := sum_chisq vals fsky (mids_widths ellBinEdges) in
  let maxlike := signum / sigden in
  let sigmaR := 1 / sqrt (sum_chisq vals fsky (mids_widths ellBinEdges)) in
  snRatio self ellBinEdges fsky = Ok (sigmaR * 100 / maxlike, maxlike / sigmaR, maxlike) /\
  forall r, (forall mw, In mw (mids_widths ellBinEdges) ->
                        Ckg (vals mw) = r * Csg (vals mw)) ->
            maxlike = r.
Proof.
  intros Hb Hden Hnum signum sigden maxlike sigmaR.
  assert (Hroot : 0 < sqrt sigden) by now apply sqrt_lt_R0.
  assert (Hml : maxlike <> 0).
  { unfold maxlike, Rdiv. apply Rmult_integral_contrapositive_currified; [assumption|].
    apply Rinv_neq_0_compat. unfold sigden. lra. }
  assert (HsR : sigmaR <> 0).
  { unfold sigmaR, Rdiv. apply Rmult_integral_contrapositive_currified; [lra|].
    apply Rinv_neq_0_compat. fold sigden. lra. }
  split.
  - unfold snRatio. rewrite (snRatio_loop self fsky vals _ Hb).
    cbn [mbind result_bind Forecast.signum Forecast.sigden Forecast.sumchisq].
    rewrite !Rplus_0_l. fold signum. fold sigden.
    rewrite (fdiv_ok signum sigden) by (unfold sigden; lra).
    cbn [mbind result_bind]. unfold fsqrt.
    destruct (Rlt_dec sigden 0) as [Hneg|_]; [unfold sigden in Hneg; lra|].
    cbn [mbind result_bind].
    rewrite (fdiv_ok 1 (sqrt sigden)) by lra. cbn [mbind result_bind].
    fold maxlike. fold sigmaR.
    rewrite (fdiv_ok _ maxlike Hml). cbn [mbind result_bind].
    rewrite (fdiv_ok _ sigmaR HsR). reflexivity.
  - intros r Hr. unfold maxlike, signum, sigden, sum_num, sum_chisq in *.
    assert (E : np.sum (map (fun mw => Ckg (vals mw) * Csg (vals mw)
                                       / sigmaZsq (vals mw) fsky mw)
                          (mids_widths ellBinEdges))
                = r * np.sum (map (fun mw => Csg (vals mw) ^ 2 / sigmaZsq (vals mw) fsky mw)
                                (mids_widths ellBinEdges))).
    { clear - Hr. induction (mids_widths ellBinEdges) as [|mw bs IH]; [cbn; lra|].
      cbn [map]. unfold np.sum in *. cbn [fold_right].
      rewrite IH by (intros; apply Hr; now right).
      rewrite (Hr mw) by now left. unfold Rdiv. ring. }
    rewrite E. field. lra.
Qed.

(** With six identical spectra and no noise the variance of a bin
    vanishes, whatever the bin. *)
Lemma sigmaZsq_flat (c fsky : R) (mw : R * R) :
  c <> 0 ->
  sigmaZsq {| Ckk := c; Nkk := 0; Cgg := c; Ngg := 0; Css := c; Nss := 0;
              Ckg := c; Cks := c; Csg := c |} fsky mw = 0.
Proof.
  intros Hc. unfold sigmaZsq, sigmaZsq_raw. cbn.
  replace (c / c) with 1 by (field; assumption). ring.
Qed.

End JointEstimator.

(** ** The spectrum store *)

Section SpectrumStore.
Import Theory Spec.

Lemma Cl_func_miss_zero (self : TheorySpectra) (XY : string) (lensed : bool) :
  validateMapType (upper XY) = Ok tt ->
  (if String.eqb (upper XY) "ET" then "TE"%string else upper XY) = XY ->
  in_zspecs XY || in_zspecs (String.rev XY) = true ->
  (if lensed then _lCl self else _uCl self) !! XY = None ->
  _Cl_func self XY lensed = Ok (fun ell => num_val ell * 0).
Proof.
  intros Hv Hmap Hz Hmiss. unfold _Cl_func. cbv zeta. rewrite Hv.
  cbn [mbind result_bind]. now rewrite Hmap, Hmiss, Hz.
Qed.

Lemma gCl_func_prefix (self : TheorySpectra) (XY : string) :
  String.length XY = 2%nat ->
  gCl_func self (String "u"%char XY) = _Cl_func self XY false /\
  gCl_func self (String "l"%char XY) = _Cl_func self XY true.
Proof.
  intros H. unfold gCl_func. cbn [String.length]. rewrite H. split; reflexivity.
Qed.

(** C6 (as amended).  The parity-odd codes resolve to zero in the
    polarization tables: for ["EB"], ["TB"] and their reversals,
    [uCl]/[lCl], and [gCl] under the ['u'] or ['l'] prefix, return zero
    when no such spectrum is loaded.  Every other miss is an error: [gCl]
    on a key (["EB"] included) that the generic table holds under
    neither ordering raises [KeyError], and so does [_Cl] on any other
    valid code that is not loaded. *)
Theorem parity_odd_lookup (self : TheorySpectra) (ell : num) :
  (forall XY, In XY ["EB"; "TB"; "BE"; "BT"]%string ->
     (_uCl self !! XY = None ->
      uCl self XY ell = Ok 0 /\ gCl self (String "u"%char XY) ell = Ok 0) /\
     (_lCl self !! XY = None ->
      lCl self XY ell = Ok 0 /\ gCl self (String "l"%char XY) ell = Ok 0)) /\
  (forall keyName,
     String.length keyName <> 3%nat ->
     _gCl self !! keyName = None -> _gCl self !! String.rev keyName = None ->
     gCl self keyName ell = Raise KeyError) /\
  (forall (XYType : string) (lensed : bool),
     validateMapType (upper XYType) = Ok tt ->
     in_zspecs XYType || in_zspecs (String.rev XYType) = false ->
     (if lensed then _lCl self else _uCl self)
       !! (if String.eqb (upper XYType) "ET" then "TE"%string else upper XYType) = None ->
     _Cl self XYType ell lensed = Raise KeyError).
Proof.
  split; [|split].
  - intros XY HXY.
    assert (Hz : Ok (num_val ell * 0) = Ok 0) by (f_equal; ring).
    assert (Hzero : forall lensed : bool,
               (if lensed then _lCl self else _uCl self) !! XY = None ->
               _Cl_func self XY lensed = Ok (fun ell => num_val ell * 0)).
    { intros lensed. cbn [In] in HXY.
      destruct HXY as [<-|[<-|[<-|[<-|[]]]]]; apply Cl_func_miss_zero; reflexivity. }
    assert (Hlen : String.length XY = 2%nat).
    { cbn [In] in HXY. destruct HXY as [<-|[<-|[<-|[<-|[]]]]]; reflexivity. }
    destruct (gCl_func_prefix self XY Hlen) as [Hu Hl].
    split; intros Hmiss; unfold uCl, lCl, gCl, _Cl; rewrite ?Hu, ?Hl.
    + rewrite (Hzero false Hmiss). cbn [mbind result_bind]. auto.
    + rewrite (Hzero true Hmiss). cbn [mbind result_bind]. auto.
  - intros keyName Hlen H1 H2. unfold gCl, gCl_func, getitem.
    destruct (String.length keyName =? 3)%nat eqn:E;
      [apply Nat.eqb_eq in E; contradiction|].
    now rewrite H1, H2.
  - intros XYType lensed Hv Hz Hmiss. unfold _Cl, _Cl_func. cbv zeta.
    rewrite Hv. cbn [mbind result_bind]. rewrite Hmiss, Hz. reflexivity.
Qed.

Lemma Ztrunc_small (v : R) : 0 <= v < 1 -> Ztrunc v = 0%Z.
Proof.
  intros [H0 H1]. unfold Ztrunc. destruct (Rle_dec 0 v); [|contradiction].
  apply Zfloor_eq. simpl. lra.
Qed.

(** The tail of a spectrum loaded without [fill_zero], on a float and on
    an integer multipole above [lpad]. *)
Lemma edge_interp_tail (ells Cls : list R) (lpad : R) (f : spectrum) :
  edge_interp ells Cls lpad false = Ok f ->
  exists fillval,
    last (below ells lpad Cls) = Some fillval /\
    (forall ell, lpad < ell -> f (NFloat ell) = fillval * (lpad / ell) ^ 4) /\
    (0 < lpad -> f (NFloat (2 * lpad)) = fillval / 16) /\
    (forall ell, ell <= lpad ->
       f (NFloat ell) = np.interp1d (below ells lpad ells) (below ells lpad Cls) 0 ell) /\
    (forall n, lpad < IZR n ->
       f (NInt n) = IZR (Ztrunc (fillval * (lpad / IZR n) ^ 4))).
Proof.
  unfold edge_interp. cbn [negb].
  destruct (last (below ells lpad Cls)) as [fillval|]; [|discriminate].
  intros Hf.
  assert (Ef : f = fun x =>
                 num_val
                   (np.piecewise x [Rleb (num_val x) lpad; Rgtb (num_val x) lpad]
                      [np.interp1d (below ells lpad ells) (below ells lpad Cls) 0;
                       fun y => fillval * (lpad / y) ^ 4])) by congruence.
  clear Hf. subst f. exists fillval. split; [reflexivity|].
  assert (Htail : forall x, lpad < num_val x ->
            np.piecewise x [Rleb (num_val x) lpad; Rgtb (num_val x) lpad]
              [np.interp1d (below ells lpad ells) (below ells lpad Cls) 0;
               fun y => fillval * (lpad / y) ^ 4]
            = np.cast_like x (fillval * (lpad / num_val x) ^ 4)).
  { intros x Hx. unfold np.piecewise, Rleb, Rgtb, Rltb. cbn.
    destruct (Rle_dec (num_val x) lpad); [lra|].
    destruct (Rlt_dec lpad (num_val x)); [reflexivity | lra]. }
  split; [|split; [|split]].
  - intros ell Hell. cbv beta. now rewrite (Htail (NFloat ell) Hell).
  - intros Hpos. cbv beta. rewrite (Htail (NFloat (2 * lpad))) by (cbn; lra).
    cbn. field. lra.
  - intros ell Hell. unfold np.piecewise, Rleb, Rgtb, Rltb. cbn.
    destruct (Rle_dec ell lpad); [|lra].
    destruct (Rlt_dec lpad ell); [lra | reflexivity].
  - intros n Hn. cbv beta. now rewrite (Htail (NInt n) Hn).
Qed.

End SpectrumStore.

(** ** The noise model *)

Section NoiseModel.
Import Noise Spec.

Lemma atm_factor_eval (ell lknee alpha : R) :
  0 < ell -> atm_factor ell lknee alpha = Ok (atmosphere_factor ell lknee alpha).
Proof.
  intros Hell. unfold atm_factor, atmosphere_factor, Rgtb, Rltb.
  destruct (Rlt_dec 1e-3 lknee) as [Hk|Hk]; [|reflexivity].
  rewrite fdiv_ok by lra. cbn [mbind result_bind]. unfold fpow.
  destruct (Rlt_dec 0 (lknee / ell)) as [|Hn]; [reflexivity|].
  exfalso. apply Hn. apply Rdiv_lt_0_compat; lra.
Qed.

Lemma noise_func_eval (ell fwhm rms_noise lknee alpha : R)
    (dimensionless : bool) (TCMB : R) :
  0 < ell -> (dimensionless = true -> TCMB <> 0) ->
  noise_func ell fwhm rms_noise lknee alpha dimensionless TCMB
  = Ok ((atmosphere_factor ell lknee alpha + 1) * (rms_noise * PI / (180 * 60)) ^ 2
        * (if dimensionless then 1 / TCMB ^ 2 else 1)
        * exp ((fwhm / 60 * (PI / 180)) ^ 2 * ell ^ 2 / (8 * ln 2))).
Proof.
  intros Hell HT.
  unfold noise_func, white_noise_with_atm_func. rewrite (atm_factor_eval _ _ _ Hell).
  cbn [mbind result_bind].
  assert (Hd : (if dimensionless then fdiv 1 (TCMB ^ 2) else Ok 1)
               = Ok (if dimensionless then 1 / TCMB ^ 2 else 1)).
  { destruct dimensionless; [|reflexivity].
    apply fdiv_ok. apply pow_nonzero. now apply HT. }
  rewrite Hd. cbn [mbind result_bind]. unfold deg2rad.
  f_equal. ring.
Qed.

(** C9 (as amended).  For [ell > 0] the noise model returns
    [(atmosphere_factor + 1) * white_level^2], times [1/TCMB^2] in
    dimensionless units, times the beam factor
    [exp(theta_fwhm^2 * ell^2 / (8 ln 2))]; the atmosphere factor is
    [(lknee/ell)^(-alpha)] when [lknee > 1e-3] and [0] otherwise. *)
Theorem noise_func_formula (ell fwhm rms_noise lknee alpha : R)
    (dimensionless : bool) (TCMB : R) :
  0 < ell -> (dimensionless = true -> TCMB <> 0) ->
  let white_level := rms_noise * PI / (180 * 60) in
  let theta_fwhm := fwhm / 60 * (PI / 180) in
  let dfact := if dimensionless then 1 / TCMB ^ 2 else 1 in
  noise_func ell fwhm rms_noise lknee alpha dimensionless TCMB
  = Ok ((atmosphere_factor ell lknee alpha + 1) * white_level ^ 2 * dfact
        * exp (theta_fwhm ^ 2 * ell ^ 2 / (8 * ln 2))) /\
  (lknee > 1e-3 -> atmosphere_factor ell lknee alpha = Rpower (lknee / ell) (- alpha)) /\
  (lknee <= 1e-3 -> atmosphere_factor ell lknee alpha = 0).
Proof.
  intros Hell HT white_level theta_fwhm dfact.
  split; [|split].
  - now apply noise_func_eval.
  - intros Hk. unfold atmosphere_factor. destruct (Rlt_dec 1e-3 lknee); [reflexivity | lra].
  - intros Hk. unfold atmosphere_factor. destruct (Rlt_dec 1e-3 lknee); [lra | reflexivity].
Qed.

End NoiseModel.

(** ** The parameter stage of [Cosmology.__init__] *)

Section Parameters.
Import CosmoParams.

Lemma getitem_Some {V : Type} (d : gmap string V) (k : string) (v : V) :
  d !! k = Some v -> getitem d k = Ok v.
Proof. intros H. unfold getitem. now rewrite H. Qed.

Lemma getitem_None {V : Type} (d : gmap string V) (k : string) :
  d !! k = None -> getitem d k = Raise KeyError.
Proof. intros H. unfold getitem. now rewrite H. Qed.

Lemma getitem_cases {V : Type} (d : gmap string V) (k : string) :
  (exists v, d !! k = Some v /\ getitem d k = Ok v) \/
  (d !! k = None /\ getitem d k = Raise KeyError).
Proof. unfold getitem. destruct (d !! k); eauto. Qed.

Lemma pydiv_Some (x y : R) : y <> 0 -> pydiv x y = Some (x / y).
Proof. intros H. unfold pydiv. destruct (Req_dec_T y 0); [contradiction | reflexivity]. Qed.

Lemma pydiv_None (x : R) : pydiv x 0 = None.
Proof. unfold pydiv. destruct (Req_dec_T 0 0); [reflexivity | contradiction]. Qed.

Lemma h2_zero (H : R) : (H / 100) ^ 2 = 0 <-> H = 0.
Proof.
  split; [|intros ->; unfold Rdiv; ring].
  intros E.
  assert (Hsq : H * H = 0)
    by (replace (H * H) with ((H / 100) ^ 2 * 10000) by field; rewrite E; ring).
  destruct (Rmult_integral _ _ Hsq); assumption.
Qed.

Lemma pydiv_h (x H : R) :
  pydiv x ((H / 100) ^ 2)
  = if Req_dec_T H 0 then None else Some (x / (H / 100) ^ 2).
Proof.
  destruct (Req_dec_T H 0) as [-> | Hne].
  - replace ((0 / 100) ^ 2) with 0 by (unfold Rdiv; ring). apply pydiv_None.
  - apply pydiv_Some. intros E. apply Hne. exact (proj1 (h2_zero H) E).
Qed.

Ltac params_absurd :=
  repeat match goal with
    | H : is_Some None |- _ => destruct H as [? H]; discriminate
    | H : _ /\ _ |- _ => destruct H
    | H : _ \/ _ |- _ => destruct H
    | H : Some ?x <> Some ?x |- _ => apply H; reflexivity
    end.

(** X1.  When the parameter stage of [Cosmology.__init__] succeeds.  The
    constants need ['TCMB']; the parameters need ['H0'], ['mnu'], ['w0']
    and either the physical densities ['omch2'], ['ombh2'] with a
    non-zero ['H0'], or the fractions ['om'], ['ob'].  Every failure is
    a [KeyError]: a division by zero is swallowed by the [except]. *)
Theorem params_success (paramDict constDict : gmap string R) :
  ((exists r, __init__ paramDict constDict = Ok r) <->
   is_Some (constDict !! "TCMB"%string) /\
   is_Some (paramDict !! "H0"%string) /\
   is_Some (paramDict !! "mnu"%string) /\
   is_Some (paramDict !! "w0"%string) /\
   ((is_Some (paramDict !! "omch2"%string) /\ is_Some (paramDict !! "ombh2"%string) /\
     paramDict !! "H0"%string <> Some 0) \/
    (is_Some (paramDict !! "om"%string) /\ is_Some (paramDict !! "ob"%string)))) /\
  (forall e, __init__ paramDict constDict = Raise e -> e = KeyError).
Proof.
  unfold __init__, getitem.
  destruct (constDict !! "TCMB"%string) as [T|];
    destruct (paramDict !! "H0"%string) as [H|];
    destruct (paramDict !! "omch2"%string) as [a|];
    destruct (paramDict !! "ombh2"%string) as [b|];
    destruct (paramDict !! "om"%string) as [om|];
    destruct (paramDict !! "ob"%string) as [ob|];
    destruct (paramDict !! "mnu"%string) as [mnu|];
    destruct (paramDict !! "w0"%string) as [w0|];
    cbn [mbind result_bind option_bind];
    rewrite ?pydiv_h; try destruct (Req_dec_T H 0) as [-> | HH0];
    cbn [mbind result_bind option_bind].
  all: split;
    [ split;
      [ intros (r & Hr); try discriminate; repeat split; eauto;
        first [ left; repeat split; eauto; congruence | right; split; eauto ]
      | intros Hrhs; try (eexists; reflexivity); exfalso; params_absurd ]
    | intros e He; try discriminate; injection He as <-; reflexivity ].
Qed.

Lemma physical_lookups (p : gmap string R) (x y : R) :
  let p' := <["omch2"%string := x]> (<["ombh2"%string := y]> p) in
  p' !! "omch2"%string = Some x /\ p' !! "ombh2"%string = Some y /\
  p' !! "H0"%string = p !! "H0"%string /\ p' !! "om"%string = p !! "om"%string /\
  p' !! "ob"%string = p !! "ob"%string /\ p' !! "tau"%string = p !! "tau"%string /\
  p' !! "mnu"%string = p !! "mnu"%string /\ p' !! "w0"%string = p !! "w0"%string.
Proof. cbv zeta. repeat split; now simplify_map_eq. Qed.

Lemma fraction_lookups (p : gmap string R) (x y : R) :
  let p' := <["om"%string := x]>
              (<["ob"%string := y]> (delete "omch2"%string (delete "ombh2"%string p))) in
  p' !! "omch2"%string = None /\ p' !! "ombh2"%string = None /\
  p' !! "H0"%string = p !! "H0"%string /\ p' !! "om"%string = Some x /\
  p' !! "ob"%string = Some y /\ p' !! "tau"%string = p !! "tau"%string /\
  p' !! "mnu"%string = p !! "mnu"%string /\ p' !! "w0"%string = p !! "w0"%string.
Proof. cbv zeta. repeat split; now simplify_map_eq. Qed.

(** X2.  The two parametrisations of the densities agree: the physical
    densities the constructor derives from the fractions ['om'], ['ob']
    give back, when supplied as ['omch2'], ['ombh2'], the same
    attributes, and conversely. *)
Theorem params_reparametrise (paramDict constDict c' : gmap string R) (d : derived) :
  __init__ paramDict constDict = Ok (c', d) -> H0 d <> 0 ->
  (paramDict !! "omch2"%string = None -> paramDict !! "ombh2"%string = None ->
   __init__ (<["omch2"%string := omch2 d]> (<["ombh2"%string := ombh2 d]> paramDict))
     constDict = Ok (c', d)) /\
  (is_Some (paramDict !! "omch2"%string) -> is_Some (paramDict !! "ombh2"%string) ->
   __init__ (<["om"%string := om d]>
               (<["ob"%string := ob d]>
                  (delete "omch2"%string (delete "ombh2"%string paramDict))))
     constDict = Ok (c', d)).
Proof.
  intros Hinit Hh. split.
  - intros Ha Hb. revert Hinit. unfold __init__, getitem.
    destruct (physical_lookups paramDict (omch2 d) (ombh2 d))
      as (-> & -> & -> & -> & -> & -> & -> & ->).
    rewrite Ha, Hb. cbn [mbind option_bind].
    destruct (constDict !! "TCMB"%string) as [T|]; [|discriminate].
    destruct (paramDict !! "H0"%string) as [H|]; [|discriminate].
    destruct (paramDict !! "om"%string) as [om|]; [|discriminate].
    destruct (paramDict !! "ob"%string) as [ob|]; [|discriminate].
    destruct (paramDict !! "mnu"%string) as [mnu|]; [|discriminate].
    destruct (paramDict !! "w0"%string) as [w0|]; [|discriminate].
    cbn [mbind result_bind option_bind fst snd]. intros [= <- <-].
    cbn [omch2 ombh2 H0] in *. rewrite !pydiv_h.
    destruct (Req_dec_T H 0) as [-> | _]; [contradiction|].
    cbn [mbind result_bind option_bind fst snd]. do 2 f_equal.
    f_equal; field; exact Hh.
  - intros [a Ha] [b Hb]. revert Hinit. unfold __init__, getitem.
    destruct (fraction_lookups paramDict (om d) (ob d))
      as (-> & -> & -> & -> & -> & -> & -> & ->).
    rewrite Ha, Hb. cbn [mbind option_bind].
    destruct (constDict !! "TCMB"%string) as [T|]; [|discriminate].
    destruct (paramDict !! "H0"%string) as [H|]; [|discriminate].
    cbn [mbind result_bind option_bind]. rewrite !pydiv_h.
    destruct (Req_dec_T H 0) as [-> | HH].
    + cbn [mbind result_bind option_bind].
      destruct (paramDict !! "om"%string) as [om|]; [|discriminate].
      destruct (paramDict !! "ob"%string) as [ob|]; [|discriminate].
      destruct (paramDict !! "mnu"%string) as [mnu|]; [|discriminate].
      destruct (paramDict !! "w0"%string) as [w0|]; [|discriminate].
      cbn [mbind result_bind]. intros [= <- <-]. cbn [H0] in Hh. contradiction.
    + cbn [mbind result_bind option_bind fst snd].
      destruct (paramDict !! "mnu"%string) as [mnu|]; [|discriminate].
      destruct (paramDict !! "w0"%string) as [w0|]; [|discriminate].
      cbn [mbind result_bind]. intros [= <- <-]. cbn [om ob].
      do 2 f_equal. f_equal; field; exact HH.
Qed.

(** X3.  A cold-dark-matter density given without the baryon density is
    ignored: the [try] that reads ['omch2'] fails on ['ombh2'] and the
    fallback recomputes it from the fractions. *)
Theorem params_omch2_needs_ombh2 (paramDict constDict : gmap string R) (x : R) :
  paramDict !! "ombh2"%string = None ->
  __init__ (<["omch2"%string := x]> paramDict) constDict
  = __init__ (delete "omch2"%string paramDict) constDict.
Proof.
  intros Hb. unfold __init__, getitem.
  assert (Hk : forall k : string, k <> "omch2"%string ->
            <["omch2"%string := x]> paramDict !! k = delete "omch2"%string paramDict !! k).
  { intros k Hk. now rewrite lookup_insert_ne, lookup_delete_ne by congruence. }
  rewrite lookup_insert_eq, lookup_delete_eq.
  rewrite !Hk by discriminate.
  rewrite !lookup_delete_ne by discriminate. rewrite Hb. reflexivity.
Qed.

End Parameters.

(** ** What a builder call changes *)

Section Frame.
Import Limber Spec.

Lemma same_but_refl (tag : string) (s : LimberCosmology) : same_but tag s s.
Proof.
  split; [now destruct s | split; [reflexivity | now left]].
Qed.

Lemma same_but_trans (tag : string) (s1 s2 s3 : LimberCosmology) :
  same_but tag s1 s2 -> same_but tag s2 s3 -> same_but tag s1 s3.
Proof.
  intros (E1 & G1 & K1) (E2 & G2 & K2). split; [|split].
  - rewrite E2 at 1. rewrite E1. reflexivity.
  - intros t Ht. rewrite G2, G1 by assumption. reflexivity.
  - destruct K2 as [K2 | (M2 & K2)]; rewrite K2.
    + exact K1.
    + destruct K1 as [K1 | (M1 & K1)].
      * right. split; [|now rewrite K1].
        unfold odict.mem in *. now rewrite <- K1.
      * exfalso. unfold odict.mem in M2. rewrite K1 in M2.
        rewrite existsb_app in M2. cbn in M2. rewrite String.eqb_refl in M2.
        now rewrite orb_true_r in M2.
Qed.

Lemma same_but_set (tag : string) (k : kernel) (s : LimberCosmology) :
  same_but tag s (set_kernels (odict.set tag k (kernels s)) s).
Proof.
  split; [reflexivity | split].
  - intros t Ht. cbn. now apply odict_get_set_ne.
  - cbn. destruct (odict.mem tag (kernels s)) eqn:E.
    + left. now apply odict_keys_set_mem.
    + right. split; [reflexivity | now apply odict_keys_set_new].
Qed.

Lemma touches_ret (tag : string) {A : Type} (a : A) : touches_only tag (ret a).
Proof. intros s. apply same_but_refl. Qed.

Lemma touches_raise (tag : string) {A : Type} (e : exn) : touches_only tag (@raise A e).
Proof. intros s. apply same_but_refl. Qed.

Lemma touches_lift (tag : string) {A : Type} (r : result A) : touches_only tag (lift r).
Proof. intros s. apply same_but_refl. Qed.

Lemma touches_get_self (tag : string) : touches_only tag get_self.
Proof. intros s. apply same_but_refl. Qed.

Lemma touches_bind (tag : string) {A B : Type} (m : M A) (f : A -> M B) :
  touches_only tag m -> (forall a, touches_only tag (f a)) ->
  touches_only tag (bind m f).
Proof.
  intros Hm Hf s. unfold bind. specialize (Hm s).
  destruct (m s) as [[a|e] s'] eqn:E; cbn in Hm.
  - apply (same_but_trans tag s s'); [assumption | apply Hf].
  - exact Hm.
Qed.

Lemma touches_update (tag : string) (f : kernel -> kernel) :
  touches_only tag (update_kernel tag f).
Proof.
  intros s. unfold update_kernel, bind, get_self, lift, modify, odict.getitem.
  destruct (odict.get tag (kernels s)) as [k|]; cbn.
  - apply same_but_set.
  - apply same_but_refl.
Qed.

Lemma touches_fresh (tag : string) :
  touches_only tag
    (modify (fun s => set_kernels (odict.set tag kernel_empty (kernels s)) s)).
Proof. intros s. apply same_but_set. Qed.

Lemma touches_check (tag : string) (ignore_exists : bool) :
  touches_only tag (check_tag tag ignore_exists).
Proof.
  unfold check_tag. apply touches_bind; [apply touches_get_self|].
  intros self. destruct (negb ignore_exists && odict.mem tag (kernels self));
    [apply touches_raise|].
  destruct (String.eqb tag "cmb"); [apply touches_raise | apply touches_ret].
Qed.

Ltac touches :=
  repeat first
    [ apply touches_update
    | apply touches_fresh
    | apply touches_check
    | apply touches_bind
    | apply touches_get_self
    | apply touches_lift
    | apply touches_ret
    | apply touches_raise
    | match goal with |- forall _, _ => intro end
    | progress cbv zeta ].

Lemma touches_generateWindow (tag : string) (bias magbias : option R)
    (numzIntegral : option nat) :
  touches_only tag (_generateWindow tag bias magbias numzIntegral).
Proof.
  unfold _generateWindow. destruct bias as [b|].
  - apply touches_bind; [apply touches_get_self|]. intros self.
    apply touches_bind; [apply touches_lift|]. intros k.
    apply touches_bind; [apply touches_lift|]. intros d.
    destruct d as [|p]; [apply touches_raise|].
    destruct magbias as [m|]; touches.
  - touches.
Qed.

(** X4.  A builder call, whether it returns or raises, changes nothing but the
    kernel registered under its own tag. *)
Theorem builders_touch_own_tag (tag : string) (self : LimberCosmology) :
  (forall zsource bias magbias ignore_exists,
     same_but tag self (addDeltaNz tag zsource bias magbias ignore_exists self).2) /\
  (forall zmin zmax bias magbias numzIntegral ignore_exists,
     same_but tag self
       (addStepNz tag zmin zmax bias magbias numzIntegral ignore_exists self).2) /\
  (forall zedges nz bias magbias numzIntegral ignore_exists,
     same_but tag self
       (addNz tag zedges nz bias magbias numzIntegral ignore_exists self).2).
Proof.
  split; [|split].
  - intros. revert self. change (touches_only tag (addDeltaNz tag zsource bias magbias ignore_exists)).
    unfold addDeltaNz.
    repeat (apply touches_bind; [first [apply touches_check | apply touches_fresh | apply touches_update]|intros _]).
    apply touches_generateWindow.
  - intros. revert self.
    change (touches_only tag (addStepNz tag zmin zmax bias magbias numzIntegral ignore_exists)).
    unfold addStepNz.
    repeat (apply touches_bind; [first [apply touches_check | apply touches_fresh | apply touches_update]|intros _]).
    apply touches_generateWindow.
  - intros. revert self.
    change (touches_only tag (addNz tag zedges nz bias magbias numzIntegral ignore_exists)).
    unfold addNz.
    repeat (apply touches_bind;
            [first [apply touches_check | apply touches_fresh | apply touches_update | apply touches_lift]|intro]).
    apply touches_generateWindow.
Qed.

End Frame.

Section Reject.
Import Limber Spec.

(** X5.  The builders refuse the reserved tag ["cmb"], and a tag that is
    already registered unless [ignore_exists] is set: the call raises
    [AssertionError] and leaves the object as it was. *)
Theorem builders_reject_tag (tag : string) (ignore_exists : bool) (self : LimberCosmology) :
  tag = "cmb"%string \/ (ignore_exists = false /\ odict.mem tag (kernels self) = true) ->
  (forall zsource bias magbias,
     addDeltaNz tag zsource bias magbias ignore_exists self = (Raise AssertionError, self)) /\
  (forall zmin zmax bias magbias numzIntegral,
     addStepNz tag zmin zmax bias magbias numzIntegral ignore_exists self
     = (Raise AssertionError, self)) /\
  (forall zedges nz bias magbias numzIntegral,
     addNz tag zedges nz bias magbias numzIntegral ignore_exists self
     = (Raise AssertionError, self)).
Proof.
  intros H.
  assert (Hc : check_tag tag ignore_exists self = (Raise AssertionError, self)).
  { unfold check_tag, bind, get_self, raise.
    destruct H as [-> | (-> & ->)]; cbn.
    - destruct (negb ignore_exists && odict.mem "cmb" (kernels self)); reflexivity.
    - reflexivity. }
  repeat split; intros; unfold addDeltaNz, addStepNz, addNz, bind at 1; now rewrite Hc.
Qed.

End Reject.

(** ** A bias on a delta-function source *)

Section Poison.
Import Limber Spec.

Lemma foldM_raises {A B : Type} (f : B -> A -> result B) (e : exn) (l : list A) :
  (forall b x, In x l -> (exists b', f b x = Ok b') \/ f b x = Raise e) ->
  (exists x, In x l /\ forall b, f b x = Raise e) ->
  forall b, foldM f b l = Raise e.
Proof.
  induction l as [|x l IH]; intros Hall (y & Hy & Hr) b.
  - destruct Hy.
  - cbn [foldM]. destruct (Hall b x (or_introl eq_refl)) as [(b' & E) | E]; rewrite E; cbn.
    + destruct Hy as [<- | Hy].
      * rewrite Hr in E. discriminate.
      * apply IH; [intros; apply Hall; now right | exists y; auto].
    + reflexivity.
Qed.

Lemma odict_keys_get {V : Type} (k : string) (d : list (string * V)) (v : V) :
  odict.get k d = Some v -> In k (odict.keys d).
Proof.
  induction d as [|[k' v'] d IH]; [discriminate|].
  cbn. destruct (String.eqb k k') eqn:E.
  - apply String.eqb_eq in E. now left.
  - right. auto.
Qed.

Lemma biased_delta_run (self : LimberCosmology) (tag : string) (zsource b : R)
    (magbias : option R) (ignore_exists : bool) :
  tag <> "cmb"%string ->
  ignore_exists = true \/ odict.mem tag (kernels self) = false ->
  addDeltaNz tag zsource (Some b) magbias ignore_exists self
  = (Raise AssertionError,
     set_kernels
       (odict.set tag (set_zdelta zsource (set_dndz dndz_delta kernel_empty)) (kernels self))
       self).
Proof.
  intros Htag Hnew. unfold addDeltaNz.
  unfold bind at 1. rewrite (check_tag_ok _ _ _ Htag Hnew).
  unfold bind at 1. unfold modify at 1.
  unfold bind at 1. erewrite update_kernel_run by (cbn; apply odict_get_set_eq).
  unfold bind at 1. erewrite update_kernel_run by (cbn; apply odict_get_set_eq).
  cbn [kernels set_kernels]. rewrite !odict_set_set.
  unfold _generateWindow, bind, get_self, lift, odict.getitem. cbn [kernels set_kernels].
  rewrite odict_get_set_eq. cbn. reflexivity.
Qed.

(** X6.  A delta-function source cannot carry a bias: [addDeltaNz] with a
    [bias] raises [AssertionError], but only after it has registered the
    tag, so the registry is left with a kernel that has no window, and
    every later [generateCls] over a non-empty multipole range fails with
    [KeyError]. *)
Theorem biased_delta_poisons (self : LimberCosmology) (tag : string) (zsource b : R)
    (magbias : option R) (ignore_exists : bool) (ellrange : list R) (autoOnly : bool)
    (zmin : R) :
  tag <> "cmb"%string ->
  ignore_exists = true \/ odict.mem tag (kernels self) = false ->
  aligned self -> windows_ready self -> power_ready self -> zs self <> [] ->
  ellrange <> [] ->
  let r := addDeltaNz tag zsource (Some b) magbias ignore_exists self in
  r.1 = Raise AssertionError /\
  (exists k, odict.get tag (kernels r.2) = Some k /\ k_W k = None) /\
  (generateCls ellrange autoOnly zmin r.2).1 = Raise KeyError.
Proof.
  intros Htag Hnew _ Hw Hp _ Hne r. subst r.
  rewrite (biased_delta_run _ _ _ _ _ _ Htag Hnew). cbn [fst snd].
  set (k0 := set_zdelta zsource (set_dndz dndz_delta kernel_empty)).
  set (s := set_kernels (odict.set tag k0 (kernels self)) self).
  assert (Hk : odict.get tag (kernels s) = Some k0) by (cbn; apply odict_get_set_eq).
  split; [reflexivity | split; [exists k0; split; [exact Hk | reflexivity]|]].
  destruct ellrange as [|ell rest]; [contradiction|].
  assert (Hgen : exists s1, kernels s1 = kernels s /\
            (exists pk pf, PK s1 = Some pk /\ precalcFactor s1 = Some pf) /\
            generateCls (ell :: rest) autoOnly zmin s
            = match foldM (cls_at s1 (listKeys autoOnly s1) zmin)
                      (fold_left (fun (m : gmap string (list R)) p => <[pairkey p := []]> m)
                         (listKeys autoOnly s1) ∅) (ell :: rest) with
              | Ok m => (Ok tt, set_Cls m (ell :: rest) s1)
              | Raise e => (Raise e, s1)
              end).
  { unfold generateCls, bind, get_self, lift, modify, ret.
    destruct (skipPower s) eqn:E.
    - exists (_initPower None s). split; [reflexivity|]. split; [cbn; eauto|].
      destruct (foldM _ _ _); reflexivity.
    - exists s. split; [reflexivity|]. split.
      + destruct (Hp E) as (pk & H1 & H2). cbn. eauto.
      + destruct (foldM _ _ _); reflexivity. }
  destruct Hgen as (s1 & Hker & HPK & ->).
  destruct HPK as (pk & pf & HPK & Hpf).
  cbn [foldM].
  assert (Hcls : forall m, cls_at s1 (listKeys autoOnly s1) zmin m ell = Raise KeyError).
  { intros m. unfold cls_at. rewrite HPK, Hpf. cbn [mbind result_bind].
    apply foldM_raises.
    - intros m' [a c] Hp'. apply listKeys_in in Hp'. destruct Hp' as (H1 & H2).
      cbn [fst snd].
      rewrite Hker in H1, H2.
      assert (Hfield : forall t, In t (odict.keys (kernels s)) ->
                (exists W, (k ← odict.getitem (kernels s1) t; field (k_W k)) = Ok W) \/
                (k ← odict.getitem (kernels s1) t; field (k_W k)) = @Raise (list R) KeyError).
      { intros t Ht. rewrite Hker. unfold odict.getitem.
        destruct (String.eqb t tag) eqn:E.
        - apply String.eqb_eq in E. subst t. rewrite Hk. right. reflexivity.
        - apply String.eqb_neq in E.
          destruct (odict_get_keys _ _ Ht) as (k & Hkt). rewrite Hkt. cbn.
          assert (Hkt' : odict.get t (kernels self) = Some k).
          { cbn in Hkt. now rewrite odict_get_set_ne in Hkt. }
          destruct (Hw _ _ Hkt') as (W & HW & _). rewrite HW. left. eauto. }
      destruct (Hfield _ H1) as [(W1 & E1) | E1], (Hfield _ H2) as [(W2 & E2) | E2].
      + left. unfold odict.getitem in *.
        destruct (odict.get a (kernels s1)) as [k1|]; [|discriminate].
        cbn in E1 |- *. rewrite E1. cbn.
        destruct (odict.get c (kernels s1)) as [k2|]; [|discriminate].
        cbn in E2 |- *. rewrite E2. cbn. eauto.
      + right. unfold odict.getitem in *.
        destruct (odict.get a (kernels s1)) as [k1|]; [|discriminate].
        cbn in E1 |- *. rewrite E1. cbn.
        destruct (odict.get c (kernels s1)) as [k2|]; [|reflexivity].
        cbn in E2 |- *. rewrite E2. reflexivity.
      + right. unfold odict.getitem in *.
        destruct (odict.get a (kernels s1)) as [k1|]; [|reflexivity].
        cbn in E1 |- *. rewrite E1. reflexivity.
      + right. unfold odict.getitem in *.
        destruct (odict.get a (kernels s1)) as [k1|]; [|reflexivity].
        cbn in E1 |- *. rewrite E1. reflexivity.
    - exists (tag, tag). split.
      + apply listKeys_diag. rewrite Hker. eapply odict_keys_get, Hk.
      + intros m'. cbn [fst snd]. unfold odict.getitem. rewrite Hker, Hk. reflexivity. }
  rewrite Hcls. reflexivity.
Qed.

End Poison.

(** ** Step-function sources *)

Section StepWindow.
Import Limber Spec.

Lemma addStepNz_counts_run (self : LimberCosmology) (tag : string) (zmin zmax b : R)
    (numzIntegral : option nat) (ignore_exists : bool) :
  tag <> "cmb"%string ->
  ignore_exists = true \/ odict.mem tag (kernels self) = false ->
  let p := fun _ : R => 1 / (zmax - zmin) in
  let W0 := map (fun z => z * 0 + b * p z) (zs self) in
  let W1 := np.mask_set W0 (map (fun z => Rltb z zmin) (zs self)) 0 in
  let W2 := np.mask_set W1 (map (fun z => Rgtb z zmax) (zs self)) 0 in
  let k :=
    set_type counts
      (set_W W2 (set_dndz (dndz_func p) (set_zmax zmax (set_zmin zmin kernel_empty)))) in
  addStepNz tag zmin zmax (Some b) None numzIntegral ignore_exists self
  = (Ok tt, set_kernels (odict.set tag k (kernels self)) self).
Proof.
  intros Htag Hnew. cbv zeta. unfold addStepNz.
  unfold bind at 1. rewrite (check_tag_ok _ _ _ Htag Hnew).
  unfold bind at 1. unfold modify at 1.
  unfold bind at 1. erewrite update_kernel_run by (cbn; apply odict_get_set_eq).
  unfold bind at 1. erewrite update_kernel_run by (cbn; apply odict_get_set_eq).
  unfold bind at 1. erewrite update_kernel_run by (cbn; apply odict_get_set_eq).
  cbn [kernels set_kernels]. rewrite !odict_set_set.
  unfold _generateWindow.
  unfold bind at 1. unfold get_self at 1.
  unfold bind at 1. unfold lift at 1. unfold odict.getitem at 1.
  cbn [kernels set_kernels]. rewrite odict_get_set_eq.
  unfold bind at 1. unfold lift at 1. cbn [field k_dndz set_dndz set_zmax set_zmin].
  unfold bind at 1. erewrite update_kernel_run by (cbn; apply odict_get_set_eq).
  unfold bind at 1. unfold lift at 1. cbn [field k_zmin set_dndz set_zmax set_zmin].
  unfold bind at 1. erewrite update_kernel_run by (cbn; apply odict_get_set_eq).
  unfold bind at 1. unfold lift at 1. cbn [field k_zmax set_dndz set_zmax set_zmin].
  unfold bind at 1. erewrite update_kernel_run by (cbn; apply odict_get_set_eq).
  unfold bind at 1. erewrite update_kernel_run by (cbn; apply odict_get_set_eq).
  unfold ret. cbn [kernels set_kernels zs]. rewrite !odict_set_set.
  reflexivity.
Qed.

(** X7.  A step-function galaxy sample with a bias: the counts window is
    [bias / (zmax - zmin)] at the grid points inside [[zmin, zmax]] and
    zero outside; the kernel is tagged ["counts"] and has no lensing
    window. *)
Theorem step_counts_window (self : LimberCosmology) (tag : string) (zmin zmax b : R)
    (numzIntegral : option nat) (ignore_exists : bool) :
  tag <> "cmb"%string ->
  ignore_exists = true \/ odict.mem tag (kernels self) = false ->
  zmin < zmax ->
  exists self' k W,
    addStepNz tag zmin zmax (Some b) None numzIntegral ignore_exists self = (Ok tt, self') /\
    odict.get tag (kernels self') = Some k /\
    k_W k = Some W /\ k_type k = Some counts /\ k_window_z k = None /\
    zs self' = zs self /\ length W = length (zs self) /\
    forall i z, zs self !! i = Some z ->
      (zmin <= z <= zmax -> W !! i = Some (b / (zmax - zmin))) /\
      (z < zmin \/ zmax < z -> W !! i = Some 0).
Proof.
  intros Htag Hnew Hlt.
  pose proof (addStepNz_counts_run self tag zmin zmax b numzIntegral ignore_exists Htag Hnew)
    as Hrun.
  cbv zeta in Hrun.
  eexists _, _, _. split; [exact Hrun|].
  split; [cbn [kernels set_kernels]; apply odict_get_set_eq|].
  split; [reflexivity|]. split; [reflexivity|]. split; [reflexivity|].
  split; [reflexivity|]. split.
  - assert (L1 : forall (a : list R) (f : R -> bool),
              length a = length (zs self) ->
              length (np.mask_set a (map f (zs self)) 0) = length (zs self)).
    { intros a f La. rewrite mask_set_length; [exact La | now rewrite length_map]. }
    apply L1, L1. now rewrite length_map.
  - intros i z Hz.
    assert (Hm :
      np.mask_set
        (np.mask_set (map (fun z0 => z0 * 0 + b * (1 / (zmax - zmin))) (zs self))
           (map (fun z0 => Rltb z0 zmin) (zs self)) 0)
        (map (fun z0 => Rgtb z0 zmax) (zs self)) 0 !! i
      = Some (if Rgtb z zmax then 0
              else if Rltb z zmin then 0 else z * 0 + b * (1 / (zmax - zmin)))).
    { apply mask_set_lookup.
      - apply mask_set_lookup.
        + change (map ?f ?l) with (f <$> l). now rewrite list_lookup_fmap, Hz.
        + change (map ?f ?l) with (f <$> l). now rewrite list_lookup_fmap, Hz.
      - change (map ?f ?l) with (f <$> l). now rewrite list_lookup_fmap, Hz. }
    split; intros Hcmp; (etransitivity; [exact Hm|]); unfold Rgtb, Rltb;
      destruct (Rlt_dec zmax z); destruct (Rlt_dec z zmin); try reflexivity; try lra.
    f_equal. field. lra.
Qed.

Lemma addStepNz_lensing_run (self : LimberCosmology) (tag : string) (zmin zmax : R)
    (magbias : option R) (n : nat) (ignore_exists : bool) :
  tag <> "cmb"%string ->
  ignore_exists = true \/ odict.mem tag (kernels self) = false ->
  let p := fun _ : R => 1 / (zmax - zmin) in
  let retvals :=
    map (fun cz : R * R =>
           if Rgtb cz.2 zmax then 0
           else
             let zs0 := np.linspace (Rmax cz.2 zmin) zmax n in
             np.dot (map (fun d => d / 2) (np.vsub (np.from2 zs0) (np.upto_2 zs0)))
               (map (fun z => p z * (1 - cz.1 / comoving_radial_distance (results (cosmo self)) z))
                  (np.inner zs0)))
      (zip (chis self) (zs self)) in
  let W :=
    zip_with (fun r (g : R * R * R) =>
                r * 1.5 * (omch2 (cosmo self) + ombh2 (cosmo self) + omnuh2 (cosmo self))
                  * 100 * 100 * (1 + g.1.1) * g.1.2 / g.2 / _cSpeedKmPerSec)
      retvals (grid self) in
  let k :=
    set_type lensing
      (set_W W (set_window_z (zs self, retvals)
                  (set_dndz (dndz_func p) (set_zmax zmax (set_zmin zmin kernel_empty))))) in
  addStepNz tag zmin zmax None magbias (Some n) ignore_exists self
  = (Ok tt, set_kernels (odict.set tag k (kernels self)) self).
Proof.
  intros Htag Hnew. cbv zeta. unfold addStepNz.
  unfold bind at 1. rewrite (check_tag_ok _ _ _ Htag Hnew).
  unfold bind at 1. unfold modify at 1.
  unfold bind at 1. erewrite update_kernel_run by (cbn; apply odict_get_set_eq).
  unfold bind at 1. erewrite update_kernel_run by (cbn; apply odict_get_set_eq).
  unfold bind at 1. erewrite update_kernel_run by (cbn; apply odict_get_set_eq).
  cbn [kernels set_kernels]. rewrite !odict_set_set.
  unfold _generateWindow.
  unfold bind at 1. unfold get_self at 1.
  unfold bind at 1. unfold lift at 1. unfold odict.getitem at 1.
  cbn [kernels set_kernels]. rewrite odict_get_set_eq.
  unfold bind at 1. unfold lift at 1.
  unfold _lensWindow. cbn [field k_dndz k_zmax k_zmin set_dndz set_zmax set_zmin mbind result_bind].
  rewrite (forM_pure _
             (fun cz : R * R =>
                if Rgtb cz.2 zmax then 0
                else
                  np.dot
                    (map (fun d => d / 2)
                       (np.vsub (np.from2 (np.linspace (Rmax cz.2 zmin) zmax n))
                          (np.upto_2 (np.linspace (Rmax cz.2 zmin) zmax n))))
                    (map (fun z => 1 / (zmax - zmin)
                                   * (1 - cz.1 / comoving_radial_distance (results (cosmo self)) z))
                       (np.inner (np.linspace (Rmax cz.2 zmin) zmax n)))));
    [|intros cz _; cbn [chis zs cosmo set_kernels];
      destruct (Rgtb cz.2 zmax); reflexivity].
  unfold bind at 1. erewrite update_kernel_run by (cbn; apply odict_get_set_eq).
  unfold bind at 1. erewrite update_kernel_run by (cbn; apply odict_get_set_eq).
  erewrite update_kernel_run by (cbn; apply odict_get_set_eq).
  cbn [kernels set_kernels zs chis cosmo]. rewrite !odict_set_set.
  reflexivity.
Qed.

(** X8.  A step-function source used as a lensing kernel: the window
    vanishes at every grid point beyond [zmax], and vanishes everywhere
    when fewer than three integration points are requested, the
    quadrature keeping only the points strictly inside its interval. *)
Theorem step_lensing_window_zero (self : LimberCosmology) (tag : string) (zmin zmax : R)
    (n : nat) (ignore_exists : bool) :
  tag <> "cmb"%string ->
  ignore_exists = true \/ odict.mem tag (kernels self) = false ->
  zmin < zmax -> aligned self -> (2 <= length (zs self))%nat ->
  exists self' k retvals W,
    addStepNz tag zmin zmax None None (Some n) ignore_exists self = (Ok tt, self') /\
    odict.get tag (kernels self') = Some k /\
    k_window_z k = Some (zs self, retvals) /\
    k_W k = Some W /\ k_type k = Some lensing /\
    length retvals = length (chis self) /\ length W = length (chis self) /\
    (forall i z, zs self !! i = Some z -> zmax < z ->
       retvals !! i = Some 0 /\ W !! i = Some 0) /\
    ((n <= 2)%nat ->
     forall i, (i < length (chis self))%nat -> retvals !! i = Some 0 /\ W !! i = Some 0).
Proof.
  intros Htag Hnew Hlt (Lz & Ld & LH) _.
  pose proof (addStepNz_lensing_run self tag zmin zmax None n ignore_exists Htag Hnew) as Hrun.
  cbv zeta in Hrun.
  eexists _, _, _, _. split; [exact Hrun|].
  split; [cbn [kernels set_kernels]; apply odict_get_set_eq|].
  split; [reflexivity|]. split; [reflexivity|]. split; [reflexivity|].
  set (g := fun cz : R * R =>
           if Rgtb cz.2 zmax then 0
           else
             np.dot
               (map (fun d => d / 2)
                  (np.vsub (np.from2 (np.linspace (Rmax cz.2 zmin) zmax n))
                     (np.upto_2 (np.linspace (Rmax cz.2 zmin) zmax n))))
               (map (fun z => 1 / (zmax - zmin)
                              * (1 - cz.1 / comoving_radial_distance (results (cosmo self)) z))
                  (np.inner (np.linspace (Rmax cz.2 zmin) zmax n)))).
  assert (Lr : length (map g (zip (chis self) (zs self))) = length (chis self)).
  { rewrite length_map, length_zip. lia. }
  assert (Lg : length (grid self) = length (chis self)).
  { unfold grid. rewrite !length_zip. lia. }
  split; [exact Lr|]. split; [rewrite length_zip_with; lia|].
  assert (Hzero : forall i, (i < length (chis self))%nat ->
            map g (zip (chis self) (zs self)) !! i = Some 0 ->
            zip_with (fun r (g0 : R * R * R) =>
                r * 1.5 * (omch2 (cosmo self) + ombh2 (cosmo self) + omnuh2 (cosmo self))
                  * 100 * 100 * (1 + g0.1.1) * g0.1.2 / g0.2 / _cSpeedKmPerSec)
              (map g (zip (chis self) (zs self))) (grid self) !! i = Some 0).
  { intros i Hi Hr.
    destruct (lookup_lt_is_Some_2 (grid self) i) as (gi & Hgi); [lia|].
    rewrite lookup_zip_with, Hr, Hgi. cbn. f_equal. unfold Rdiv. ring. }
  assert (Hget : forall i chi z, chis self !! i = Some chi -> zs self !! i = Some z ->
            map g (zip (chis self) (zs self)) !! i = Some (g (chi, z))).
  { intros i chi z Hc Hz. change (map ?f ?l) with (f <$> l).
    rewrite list_lookup_fmap, lookup_zip_with, Hc. cbn. rewrite Hz.
    reflexivity. }
  split.
  - intros i z Hz Hgt.
    assert (Hi : (i < length (chis self))%nat).
    { rewrite <- Lz. eapply lookup_lt_Some, Hz. }
    destruct (lookup_lt_is_Some_2 (chis self) i Hi) as (chi & Hc).
    assert (Hr : map g (zip (chis self) (zs self)) !! i = Some 0).
    { rewrite (Hget i chi z Hc Hz). f_equal. unfold g. cbn [fst snd].
      unfold Rgtb, Rltb. destruct (Rlt_dec zmax z); [reflexivity | lra]. }
    split; [exact Hr | now apply Hzero].
  - intros Hn i Hi.
    destruct (lookup_lt_is_Some_2 (chis self) i Hi) as (chi & Hc).
    destruct (lookup_lt_is_Some_2 (zs self) i) as (z & Hz); [lia|].
    assert (Hr : map g (zip (chis self) (zs self)) !! i = Some 0).
    { rewrite (Hget i chi z Hc Hz). f_equal. unfold g. cbn [fst snd].
      destruct (Rgtb z zmax); [reflexivity|].
      assert (Hin : np.inner (np.linspace (Rmax z zmin) zmax n) = []).
      { apply length_zero_iff_nil. rewrite inner_length, linspace_length. lia. }
      rewrite Hin. cbn [map]. unfold np.dot, np.vmul.
      assert (Hnil : forall l : list R, zip_with Rmult l [] = []) by (intros []; reflexivity).
      now rewrite Hnil. }
    split; [exact Hr | now apply Hzero].
Qed.

End StepWindow.

(** ** The CMB kernel as a delta-function source *)

Section LastScattering.
Import Limber Spec.

Lemma cmb_window_as_delta (s : LimberCosmology) (zsource : R) :
  aligned s -> chistar s <> 0 ->
  comoving_radial_distance (results (cosmo s)) zsource = chistar s ->
  (forall z, In z (zs s) -> z <= zsource) ->
  let retvals :=
    np.mask_set
      (map (fun chi => 1 - chi / comoving_radial_distance (results (cosmo s)) zsource) (chis s))
      (map (fun z => Rgtb z zsource) (zs s)) 0 in
  let star := map (fun chi => (chistar s - chi) / chistar s) (chis s) in
  retvals = star /\
  zip_with (fun r (g : R * R * R) =>
              r * 1.5 * (omch2 (cosmo s) + ombh2 (cosmo s) + omnuh2 (cosmo s))
                * 100 * 100 * (1 + g.1.1) * g.1.2 / g.2 / _cSpeedKmPerSec)
    retvals (grid s)
  = zip_with (fun (zc : R * R) (wh : R * R) =>
                lens_prefactor (cosmo s) zc.1 zc.2 * wh.1 / wh.2 / _cSpeedKmPerSec)
      (zip (zs s) (chis s)) (zip star (Hzs s)).
Proof.
  intros (Lz & _ & LH) Hne HD Hle. cbv zeta. rewrite HD. unfold grid.
  destruct (tabulated (chis s) _ eq_refl) as (fc & Hc).
  destruct (tabulated (zs s) _ Lz) as (fz & Hz).
  destruct (tabulated (Hzs s) _ LH) as (fH & HH).
  assert (Hzle : forall i, In i (seq 0 (length (chis s))) -> fz i <= zsource).
  { intros i Hi. apply Hle. rewrite Hz. now apply in_map. }
  revert Hc Hz HH Hzle. generalize (seq 0 (length (chis s))) as l.
  intros l Hc Hz HH Hzle.
  rewrite Hc, Hz, HH. clear Hc Hz HH.
  rewrite !map_map.
  rewrite (mask_set_tab (fun i => 1 - fc i / chistar s) (fun i => Rgtb (fz i) zsource) 0 l).
  rewrite !(zip_with_tab pair), !zip_with_tab.
  split; apply map_ext_in; intros i Hi; cbn [fst snd];
    unfold Rgtb, Rltb; (destruct (Rlt_dec zsource (fz i)) as [Hgt|_];
                        [specialize (Hzle i Hi); lra|]).
  - field. exact Hne.
  - replace (1 - fc i / chistar s) with ((chistar s - fc i) / chistar s)
      by (field; exact Hne).
    unfold lens_prefactor, Rdiv. ring.
Qed.

(** X9.  A delta-function source placed at the distance of last scattering
    reproduces the CMB lensing kernel that the constructor registers
    under ["cmb"]: the same window [W] and the same interpolation table
    [window_z]. *)
Theorem delta_at_last_scattering (c : Cosmology) (numz : nat) (kmax0 : R) (skip : bool)
    (pkgrid_override : option (R -> R -> R)) (tag : string) (zsource : R) :
  let self := __init__ c numz kmax0 skip pkgrid_override in
  (4 <= numz)%nat ->
  tag <> "cmb"%string ->
  chistar self <> 0 ->
  comoving_radial_distance (results c) zsource = chistar self ->
  (forall z, In z (zs self) -> z <= zsource) ->
  exists self' k kcmb W wz,
    addDeltaNz tag zsource None None false self = (Ok tt, self') /\
    odict.get tag (kernels self') = Some k /\
    odict.get "cmb" (kernels self') = Some kcmb /\
    k_W k = Some W /\ k_W kcmb = Some W /\
    k_window_z k = Some wz /\ k_window_z kcmb = Some wz.
Proof.
  intros self Hn Htag Hne HD Hle.
  assert (Hcos : cosmo self = c) by (subst self; unfold __init__; now destruct skip).
  assert (Hfresh : odict.mem tag (kernels self) = false).
  { unfold odict.mem. subst self. rewrite init_keys. cbn.
    destruct (String.eqb tag "cmb") eqn:E; [|reflexivity].
    apply String.eqb_eq in E. contradiction. }
  pose proof (addDeltaNz_run self tag zsource None false Htag (or_intror Hfresh)) as Hrun.
  cbv zeta in Hrun.
  pose proof (init_aligned c numz kmax0 skip pkgrid_override) as Ha. fold self in Ha.
  rewrite <- Hcos in HD.
  destruct (cmb_window_as_delta self zsource Ha Hne HD Hle) as (Hr & HW).
  assert (Hk : kernels self
               = [("cmb"%string,
                   set_window_z
                     (zs self, map (fun chi => (chistar self - chi) / chistar self) (chis self))
                     (set_W
                        (zip_with (fun (zc : R * R) (wh : R * R) =>
                             lens_prefactor (cosmo self) zc.1 zc.2 * wh.1 / wh.2
                             / _cSpeedKmPerSec)
                           (zip (zs self) (chis self))
                           (zip (map (fun chi => (chistar self - chi) / chistar self)
                                   (chis self)) (Hzs self)))
                        kernel_empty))]).
  { subst self. unfold __init__. destruct skip; reflexivity. }
  eexists _, _, _, _, _. split; [exact Hrun|].
  cbn [kernels set_kernels].
  split; [apply odict_get_set_eq|].
  split.
  { rewrite odict_get_set_ne by (intros E; apply Htag; now rewrite E).
    rewrite Hk. reflexivity. }
  split; [reflexivity|].
  split; [cbn [k_W set_window_z set_W]; now rewrite HW|].
  split; [reflexivity|].
  cbn [k_window_z set_window_z]. now rewrite Hr.
Qed.

End LastScattering.

(** ** Repeated and late calls of [generateCls] *)

Section Regenerate.
Import Limber Spec.

Lemma provider_ready (self : LimberCosmology) :
  power_ready self -> exists pk, provider self = Some pk.
Proof.
  intros Hp. unfold provider. destruct (skipPower self) eqn:E; [eauto|].
  destruct (Hp E) as (pk & H & _). eauto.
Qed.

Lemma generateCls_ready (self : LimberCosmology) (ellrange : list R) (autoOnly : bool)
    (zmin : R) :
  aligned self -> windows_ready self -> power_ready self ->
  let self' := (generateCls ellrange autoOnly zmin self).2 in
  aligned self' /\ windows_ready self' /\ power_ready self' /\
  provider self' = provider self /\ kernels self' = kernels self.
Proof.
  intros Ha Hw Hp. destruct (provider_ready self Hp) as (pk & Hpk). cbv zeta.
  rewrite (generateCls_run self ellrange autoOnly zmin pk Ha Hw Hp Hpk). cbn [snd].
  unfold aligned, windows_ready, power_ready, provider in *.
  destruct (skipPower self) eqn:E; cbn [skipPower set_Cls _initPower set_power chis zs dchis Hzs
                                        kernels PK precalcFactor cosmo]; rewrite ?E.
  - split; [exact Ha|]. split; [exact Hw|]. split; [intros; discriminate|]. split; reflexivity.
  - split; [exact Ha|]. split; [exact Hw|]. split; [exact Hp|]. split; reflexivity.
Qed.

(** X10.  [generateCls] keeps nothing from one call to the next: the object
    after two calls is the object after the second call alone. *)
Theorem generateCls_last_call_wins (self : LimberCosmology)
    (ell1 ell2 : list R) (auto1 auto2 : bool) (zmin1 zmin2 : R) :
  aligned self -> windows_ready self -> power_ready self -> zs self <> [] ->
  generateCls ell2 auto2 zmin2 (generateCls ell1 auto1 zmin1 self).2
  = generateCls ell2 auto2 zmin2 self.
Proof.
  intros Ha Hw Hp _.
  destruct (provider_ready self Hp) as (pk & Hpk).
  destruct (generateCls_ready self ell1 auto1 zmin1 Ha Hw Hp) as (Ha1 & Hw1 & Hp1 & Hpk1 & _).
  rewrite Hpk in Hpk1.
  rewrite (generateCls_run _ ell2 auto2 zmin2 pk Ha1 Hw1 Hp1 Hpk1).
  rewrite (generateCls_run self ell2 auto2 zmin2 pk Ha Hw Hp Hpk).
  rewrite (generateCls_run self ell1 auto1 zmin1 pk Ha Hw Hp Hpk). cbn [snd].
  destruct (skipPower self) eqn:E; cbn [skipPower set_Cls _initPower set_power]; rewrite ?E;
    reflexivity.
Qed.

(** X11.  With [skipPower] the constructor drops [pkgrid_override]: the
    deferred initialisation in [generateCls] always asks CAMB, so the
    spectra are those of an object built with the CAMB power spectrum. *)
Theorem deferred_power_ignores_override (c : Cosmology) (numz : nat) (kmax0 : R)
    (pkgrid_override : option (R -> R -> R)) (ellrange : list R) (autoOnly : bool)
    (zmin : R) (key1 key2 : string) :
  (4 <= numz)%nat ->
  getCl (generateCls ellrange autoOnly zmin
           (__init__ c numz kmax0 true pkgrid_override)).2 key1 key2
  = getCl (generateCls ellrange autoOnly zmin (__init__ c numz kmax0 false None)).2
      key1 key2.
Proof.
  intros _. unfold getCl.
  rewrite (generateCls_run (__init__ c numz kmax0 true pkgrid_override)
             ellrange autoOnly zmin (matter_power (results c))
             (init_aligned _ _ _ _ _) (init_windows_ready _ _ _ _ _)
             (init_power_ready _ _ _ _ _) eq_refl).
  rewrite (generateCls_run (__init__ c numz kmax0 false None)
             ellrange autoOnly zmin (matter_power (results c))
             (init_aligned _ _ _ _ _) (init_windows_ready _ _ _ _ _)
             (init_power_ready _ _ _ _ _) eq_refl).
  reflexivity.
Qed.

End Regenerate.

Section Stale.
Import Limber Spec.

Lemma limber_sum_none (self : LimberCosmology) (pk : R -> R -> R) (zmin ell : R)
    (W1 W2 : list R) :
  length (zs self) = length (chis self) ->
  (forall z, In z (zs self) -> z < zmin) ->
  limber_sum self pk zmin ell W1 W2 = 0.
Proof.
  intros Lz Hz. unfold limber_sum. rewrite filter_none; [reflexivity|].
  intros i Hi. apply in_seq in Hi. unfold survives.
  assert (Hin : In (nth i (zs self) 0) (zs self)) by (apply nth_In; lia).
  specialize (Hz _ Hin). unfold Rgeb, Rleb.
  destruct (Rle_dec zmin (nth i (zs self) 0)); [lra | reflexivity].
Qed.

(** X12.  When [zmin] lies beyond every redshift of the grid no grid point
    enters the integral: every stored spectrum is identically zero. *)
Theorem generateCls_zmin_beyond_grid (self : LimberCosmology) (ellrange : list R)
    (autoOnly : bool) (zmin : R) :
  aligned self -> windows_ready self -> power_ready self -> zs self <> [] ->
  (forall z, In z (zs self) -> z < zmin) ->
  exists m,
    Clmatrix (generateCls ellrange autoOnly zmin self).2 = Some m /\
    (forall key1 key2, In (key1, key2) (listKeys autoOnly self) ->
                       exists cl, m !! pairkey (key1, key2) = Some cl) /\
    forall key cl x, m !! key = Some cl -> In x cl -> x = 0.
Proof.
  intros Ha Hw Hp _ Hz.
  destruct (provider_ready self Hp) as (pk & Hpk).
  destruct (Clmatrix_lookup self ellrange autoOnly zmin pk "" Ha Hw Hp Hpk) as (m & Hm & _).
  exists m. split; [exact Hm|]. split.
  - intros key1 key2 Hin.
    destruct (Clmatrix_lookup self ellrange autoOnly zmin pk (pairkey (key1, key2))
                Ha Hw Hp Hpk) as (m' & Hm' & Hl).
    assert (m' = m) by congruence. subst m'.
    rewrite (same_key_in _ _ _ Hin) in Hl. eauto.
  - intros key cl x Hl Hx.
    destruct (Clmatrix_lookup self ellrange autoOnly zmin pk key Ha Hw Hp Hpk)
      as (m' & Hm' & Hl').
    assert (m' = m) by congruence. subst m'.
    rewrite Hl in Hl'. destruct (existsb _ _); [|discriminate].
    injection Hl' as ->.
    apply in_flat_map in Hx. destruct Hx as (ell & _ & Hx).
    apply in_map_iff in Hx. destruct Hx as (p & <- & _).
    apply limber_sum_none; [apply Ha | exact Hz].
Qed.

(** X13.  The spectra are a snapshot: a kernel registered after [generateCls]
    leaves the stored spectra as they are and has none of its own
    ([getCl] raises [KeyError]) until [generateCls] runs again. *)
Theorem Clmatrix_stale_until_regenerated (self : LimberCosmology) (ellrange : list R)
    (autoOnly : bool) (zmin : R) (pk : R -> R -> R) (tag : string) (zsource : R) :
  aligned self -> windows_ready self -> power_ready self ->
  (2 <= length (zs self))%nat ->
  provider self = Some pk ->
  NoDup (odict.keys (kernels self)) -> comma_free self ->
  tag <> "cmb"%string -> no_comma tag = true ->
  odict.mem tag (kernels self) = false ->
  let s1 := (generateCls ellrange autoOnly zmin self).2 in
  let s2 := (addDeltaNz tag zsource None None false s1).2 in
  let s3 := (generateCls ellrange autoOnly zmin s2).2 in
  (forall a b, getCl s2 a b = getCl s1 a b) /\
  getCl s2 tag tag = Raise KeyError /\
  getCl s3 tag tag
  = Ok (map (fun ell => limber_sum s2 pk zmin ell (window s2 tag) (window s2 tag)) ellrange).
Proof.
  intros Ha Hw Hp _ Hpk Hnd Hcf Htag Hnc Hfresh s1 s2 s3.
  destruct (generateCls_ready self ellrange autoOnly zmin Ha Hw Hp)
    as (Ha1 & Hw1 & Hp1 & Hpk1 & Hk1).
  fold s1 in Ha1, Hw1, Hp1, Hpk1, Hk1.
  assert (Hfresh1 : odict.mem tag (kernels s1) = false) by now rewrite Hk1.
  pose proof (addDeltaNz_run s1 tag zsource None false Htag (or_intror Hfresh1)) as Hrun.
  cbv zeta in Hrun.
  assert (HC2 : Clmatrix s2 = Clmatrix s1) by (subst s2; now rewrite Hrun).
  destruct (addDeltaNz_ready s1 tag zsource false Htag (or_intror Hfresh1) Ha1 Hw1 Hp1)
    as (Ha2 & Hw2 & Hp2 & Hpk2 & Hk2).
  fold s2 in Ha2, Hw2, Hp2, Hpk2, Hk2.
  rewrite Hpk1, Hpk in Hpk2.
  rewrite odict_keys_set_new, Hk1 in Hk2 by exact Hfresh1.
  assert (Hnin : ~ In tag (odict.keys (kernels self))).
  { intros Hin. unfold odict.mem in Hfresh.
    assert (existsb (String.eqb tag) (odict.keys (kernels self)) = true).
    { apply existsb_exists. exists tag. split; [exact Hin | apply String.eqb_refl]. }
    congruence. }
  split; [|split].
  - intros a b. unfold getCl. now rewrite HC2.
  - destruct (Clmatrix_lookup_pair self ellrange autoOnly zmin pk tag tag
                Ha Hw Hp Hpk Hnd Hcf Hnc) as (m & Hm & _ & Hnone).
    fold s1 in Hm. unfold getCl, getitem. rewrite HC2, Hm.
    rewrite Hnone; [reflexivity|].
    intros Hin. apply listKeys_in in Hin. tauto.
  - assert (Hnd2 : NoDup (odict.keys (kernels s2))).
    { rewrite Hk2. apply NoDup_app. split; [exact Hnd|]. split.
      - intros x Hx Hx'. apply list_elem_of_In in Hx, Hx'.
        destruct Hx' as [-> | []]. contradiction.
      - apply NoDup_singleton. }
    assert (Hcf2 : comma_free s2).
    { intros t Ht. rewrite Hk2 in Ht. apply in_app_or in Ht.
      destruct Ht as [Ht | [<- | []]]; [now apply Hcf | exact Hnc]. }
    destruct (Clmatrix_lookup_pair s2 ellrange autoOnly zmin pk tag tag
                Ha2 Hw2 Hp2 Hpk2 Hnd2 Hcf2 Hnc) as (m & Hm & Hsome & _).
    fold s3 in Hm. unfold getCl. rewrite Hm, Hsome; [reflexivity|].
    unfold listKeys. rewrite Hk2.
    assert (Hin : In tag (odict.keys (kernels self) ++ [tag]))
      by (apply in_or_app; right; now left).
    destruct autoOnly.
    + clear -Hin. induction (odict.keys (kernels self) ++ [tag]) as [|x l IH]; [destruct Hin|].
      destruct Hin as [-> | H]; [now left | right; auto].
    + destruct (combinations_cover _ tag tag Hin Hin); assumption.
Qed.

End Stale.

(** ** Spectra of a biased step sample *)

Section BiasScaling.
Import Limber Spec.

(** After [generateCls] over all pairs, [getCl] of two registered tags is
    the Limber sum of their windows, whichever order the pair is stored
    in. *)
Lemma getCl_generated (self : LimberCosmology) (ellrange : list R) (zmin : R)
    (pk : R -> R -> R) (a b : string) :
  aligned self -> windows_ready self -> power_ready self ->
  provider self = Some pk ->
  NoDup (odict.keys (kernels self)) -> comma_free self ->
  In a (odict.keys (kernels self)) -> In b (odict.keys (kernels self)) ->
  getCl (generateCls ellrange false zmin self).2 a b
  = Ok (map (fun ell => limber_sum self pk zmin ell (window self a) (window self b))
          ellrange).
Proof.
  intros Ha Hw Hp Hpk Hnd Hcf Hina Hinb.
  destruct (Clmatrix_lookup_pair self ellrange false zmin pk a b
              Ha Hw Hp Hpk Hnd Hcf (Hcf a Hina)) as (m & Hm & Hab & Hab').
  destruct (Clmatrix_lookup_pair self ellrange false zmin pk b a
              Ha Hw Hp Hpk Hnd Hcf (Hcf b Hinb)) as (m' & Hm' & Hba & _).
  assert (m' = m) by congruence. subst m'.
  unfold getCl, getitem. rewrite Hm.
  destruct (in_dec (fun x y : string * string => decide (x = y)) (a, b)
              (listKeys false self)) as [Iab|Iab].
  - now rewrite (Hab Iab).
  - rewrite (Hab' Iab).
    destruct (combinations_cover _ _ _ Hina Hinb) as [I | I]; [contradiction|].
    rewrite (Hba I). f_equal. apply map_ext. intros ell. apply limber_sum_comm.
Qed.

Lemma limber_sum_scale (self : LimberCosmology) (pk : R -> R -> R) (zmin ell b : R)
    (W1 W2 : list R) :
  limber_sum self pk zmin ell (map (fun w => b * w) W1) W2
  = b * limber_sum self pk zmin ell W1 W2.
Proof.
  unfold limber_sum, np.sum.
  induction (List.filter (survives self zmin ell) (seq 0 (length (chis self)))) as [|i l IH];
    cbn [map fold_right]; [ring|].
  rewrite IH. unfold limber_term.
  replace (nth i (map (fun w => b * w) W1) 0) with (b * nth i W1 0).
  - ring.
  - replace 0 with (b * 0) at 2 by ring.
    now rewrite (map_nth (fun w => b * w)).
Qed.

(** The counts window of a step sample is proportional to the bias. *)
Lemma step_counts_window_scale (self : LimberCosmology) (zmin zmax b : R) :
  let W := fun bias =>
    np.mask_set
      (np.mask_set (map (fun z => z * 0 + bias * (1 / (zmax - zmin))) (zs self))
         (map (fun z => Rltb z zmin) (zs self)) 0)
      (map (fun z => Rgtb z zmax) (zs self)) 0 in
  W b = map (fun w => b * w) (W 1).
Proof.
  cbv beta zeta. rewrite !mask_set_tab, map_map.
  apply map_ext. intros z.
  destruct (Rgtb z zmax); [ring|]. destruct (Rltb z zmin); ring.
Qed.

(** The state a biased step sample leaves is ready for [generateCls]. *)
Lemma addStepNz_counts_ready (self : LimberCosmology) (tag : string) (zmin zmax b : R)
    (numzIntegral : option nat) :
  tag <> "cmb"%string -> odict.mem tag (kernels self) = false ->
  aligned self -> windows_ready self -> power_ready self ->
  NoDup (odict.keys (kernels self)) -> comma_free self -> no_comma tag = true ->
  let self' := (addStepNz tag zmin zmax (Some b) None numzIntegral false self).2 in
  aligned self' /\ windows_ready self' /\ power_ready self' /\
  provider self' = provider self /\
  NoDup (odict.keys (kernels self')) /\ comma_free self' /\
  In tag (odict.keys (kernels self')) /\
  (forall other, In other (odict.keys (kernels self)) ->
     In other (odict.keys (kernels self')) /\ window self' other = window self other) /\
  window self' tag
  = np.mask_set
      (np.mask_set (map (fun z => z * 0 + b * (1 / (zmax - zmin))) (zs self))
         (map (fun z => Rltb z zmin) (zs self)) 0)
      (map (fun z => Rgtb z zmax) (zs self)) 0 /\
  (forall pk zmin0 ell W1 W2,
     limber_sum self' pk zmin0 ell W1 W2 = limber_sum self pk zmin0 ell W1 W2).
Proof.
  intros Htag Hfresh Ha Hw Hp Hnd Hcf Hnc. cbv zeta.
  rewrite (addStepNz_counts_run self tag zmin zmax b numzIntegral false Htag
             (or_intror Hfresh)).
  cbn [snd].
  assert (Hkeys : odict.keys (kernels
                    (set_kernels
                       (odict.set tag
                          (set_type counts
                             (set_W
                                (np.mask_set
                                   (np.mask_set
                                      (map (fun z => z * 0 + b * (1 / (zmax - zmin))) (zs self))
                                      (map (fun z => Rltb z zmin) (zs self)) 0)
                                   (map (fun z => Rgtb z zmax) (zs self)) 0)
                                (set_dndz (dndz_func (fun _ : R => 1 / (zmax - zmin)))
                                   (set_zmax zmax (set_zmin zmin kernel_empty)))))
                          (kernels self)) self))
                  = odict.keys (kernels self) ++ [tag]).
  { cbn [kernels set_kernels]. now apply odict_keys_set_new. }
  assert (Hnin : ~ In tag (odict.keys (kernels self))).
  { intros Hin. unfold odict.mem in Hfresh.
    assert (existsb (String.eqb tag) (odict.keys (kernels self)) = true).
    { apply existsb_exists. exists tag. split; [exact Hin | apply String.eqb_refl]. }
    congruence. }
  split; [exact Ha|]. split; [|split; [exact Hp|split; [reflexivity|]]].
  - intros tag' k'. cbn [kernels set_kernels chis].
    destruct (String.eqb tag' tag) eqn:E.
    + apply String.eqb_eq in E. subst tag'. rewrite odict_get_set_eq.
      intros [= <-]. eexists. split; [reflexivity|].
      destruct Ha as (Hz & _ & _).
      rewrite !mask_set_length; rewrite ?length_map; try rewrite !mask_set_length;
        rewrite ?length_map; lia.
    + rewrite odict_get_set_ne; [apply Hw|].
      intros ->. now rewrite String.eqb_refl in E.
  - split; [|split; [|split; [|split; [|split]]]].
    + rewrite Hkeys. apply NoDup_app. split; [exact Hnd|]. split.
      * intros x Hx Hx'. apply list_elem_of_In in Hx, Hx'.
        destruct Hx' as [-> | []]. contradiction.
      * apply NoDup_singleton.
    + intros t Ht. rewrite Hkeys in Ht. apply in_app_or in Ht.
      destruct Ht as [Ht | [<- | []]]; [now apply Hcf | exact Hnc].
    + rewrite Hkeys. apply in_or_app. right. now left.
    + intros other Hin. split; [rewrite Hkeys; apply in_or_app; now left|].
      unfold window. cbn [kernels set_kernels].
      rewrite odict_get_set_ne; [reflexivity|]. intros ->. contradiction.
    + unfold window. cbn [kernels set_kernels]. rewrite odict_get_set_eq. reflexivity.
    + reflexivity.
Qed.

(** X14.  The spectra of a step sample of galaxies scale with its bias: the
    auto spectrum as [bias^2] and the cross spectrum with any other
    kernel as [bias]. *)
Theorem counts_spectra_scale_with_bias (self : LimberCosmology) (tag other : string)
    (zmin zmax b : R) (numzIntegral : option nat) (ellrange : list R) (zmin0 : R)
    (pk : R -> R -> R) :
  aligned self -> windows_ready self -> power_ready self -> zs self <> [] ->
  provider self = Some pk ->
  NoDup (odict.keys (kernels self)) -> comma_free self ->
  tag <> "cmb"%string -> no_comma tag = true ->
  odict.mem tag (kernels self) = false ->
  In other (odict.keys (kernels self)) ->
  zmin < zmax ->
  let spectra := fun bias =>
    (generateCls ellrange false zmin0
       (addStepNz tag zmin zmax (Some bias) None numzIntegral false self).2).2 in
  exists auto cross,
    getCl (spectra 1) tag tag = Ok auto /\
    getCl (spectra 1) other tag = Ok cross /\
    getCl (spectra b) tag tag = Ok (map (fun c => b ^ 2 * c) auto) /\
    getCl (spectra b) other tag = Ok (map (fun c => b * c) cross).
Proof.
  intros Ha Hw Hp _ Hpk Hnd Hcf Htag Hnc Hfresh Hother _ spectra. subst spectra.
  cbv beta.
  destruct (addStepNz_counts_ready self tag zmin zmax 1 numzIntegral
              Htag Hfresh Ha Hw Hp Hnd Hcf Hnc)
    as (Ha1 & Hw1 & Hp1 & Hpk1 & Hnd1 & Hcf1 & Hin1 & Ho1 & HW1 & HL1).
  destruct (addStepNz_counts_ready self tag zmin zmax b numzIntegral
              Htag Hfresh Ha Hw Hp Hnd Hcf Hnc)
    as (Hab & Hwb & Hpb & Hpkb & Hndb & Hcfb & Hinb & Hob & HWb & HLb).
  rewrite Hpk in Hpk1, Hpkb.
  destruct (Ho1 other Hother) as (Hin1' & Hwo1).
  destruct (Hob other Hother) as (Hinb' & Hwob).
  eexists _, _.
  rewrite !(getCl_generated _ ellrange zmin0 pk _ _ Ha1 Hw1 Hp1 Hpk1 Hnd1 Hcf1) by assumption.
  rewrite !(getCl_generated _ ellrange zmin0 pk _ _ Hab Hwb Hpb Hpkb Hndb Hcfb) by assumption.
  split; [reflexivity|]. split; [reflexivity|].
  rewrite !map_map.
  pose proof (step_counts_window_scale self zmin zmax b) as Hs. cbv beta zeta in Hs.
  rewrite HWb, Hwob, HW1, Hwo1, Hs.
  split; f_equal; apply map_ext; intros ell; rewrite HLb, HL1.
  - rewrite limber_sum_scale, limber_sum_comm, limber_sum_scale. ring.
  - rewrite limber_sum_comm, limber_sum_scale. f_equal. apply limber_sum_comm.
Qed.

End BiasScaling.

(** ** Linear interpolation on increasing samples *)

Section Interp.
Import Limber Spec.

Lemma increasing_tail (a : R) (l : list R) : increasing (a :: l) -> increasing l.
Proof. destruct l; [trivial | intros [_ H]; exact H]. Qed.

Lemma increasing_head (a : R) (l : list R) :
  increasing (a :: l) -> forall x, In x l -> a < x.
Proof.
  revert a. induction l as [|b l IH]; intros a H x Hx; [destruct Hx|].
  destruct H as [Hab H]. destruct Hx as [<- | Hx]; [exact Hab|].
  apply (Rlt_trans _ b); [exact Hab | now apply IH].
Qed.

Lemma sort_samples_increasing (xs ys : list R) :
  increasing xs -> np.sort_samples (zip xs ys) = zip xs ys.
Proof.
  revert ys. induction xs as [|a xs IH]; intros ys H; [reflexivity|].
  destruct ys as [|y ys]; [reflexivity|].
  cbn [zip_with np.sort_samples foldr].
  change (foldr np.insert_sample [] (zip xs ys)) with (np.sort_samples (zip xs ys)).
  rewrite IH by (eapply increasing_tail, H).
  destruct xs as [|b xs]; [reflexivity|]. destruct ys as [|y' ys]; [reflexivity|].
  cbn [zip_with np.insert_sample fst]. destruct H as [Hab _].
  unfold Rleb. destruct (Rle_dec a b); [reflexivity | lra].
Qed.

Lemma zip_fst (xs ys : list R) :
  length xs = length ys -> map fst (zip xs ys) = xs.
Proof.
  revert ys. induction xs as [|a xs IH]; intros [|y ys] L; try discriminate; [reflexivity|].
  cbn. f_equal. apply IH. now injection L.
Qed.

Lemma zip_snd (xs ys : list R) :
  length xs = length ys -> map snd (zip xs ys) = ys.
Proof.
  revert ys. induction xs as [|a xs IH]; intros [|y ys] L; try discriminate; [reflexivity|].
  cbn. f_equal. apply IH. now injection L.
Qed.

Lemma interp1d_unsorted_increasing (xs ys : list R) (fill x : R) :
  increasing xs -> length xs = length ys ->
  np.interp1d_unsorted xs ys fill x = np.interp1d xs ys fill x.
Proof.
  intros H L. unfold np.interp1d_unsorted.
  now rewrite sort_samples_increasing, zip_fst, zip_snd.
Qed.

Lemma interp_segment_cons (x0 x1 y0 y1 : R) (xs ys : list R) (x : R) :
  np.interp_segment (x0 :: x1 :: xs) (y0 :: y1 :: ys) x
  = if Rleb x0 x && Rleb x x1
    then Some ((y1 - y0) / (x1 - x0) * (x - x0) + y0)
    else np.interp_segment (x1 :: xs) (y1 :: ys) x.
Proof. reflexivity. Qed.

(** At a sample the interpolant returns the sampled value. *)
Lemma interp_segment_node (xs ys : list R) (i : nat) (x y : R) :
  increasing xs -> length xs = length ys -> (2 <= length xs)%nat ->
  xs !! i = Some x -> ys !! i = Some y ->
  np.interp_segment xs ys x = Some y.
Proof.
  revert ys i. induction xs as [|x0 xs IH]; intros ys i H L L2 Hx Hy; [discriminate|].
  destruct ys as [|y0 ys]; [discriminate|].
  destruct xs as [|x1 xs]; [cbn in L2; lia|].
  destruct ys as [|y1 ys]; [discriminate|].
  destruct H as [H01 H]. rewrite interp_segment_cons.
  destruct i as [|[|i]].
  - injection Hx as <-. injection Hy as <-.
    unfold Rleb. destruct (Rle_dec x0 x0); [|lra]. destruct (Rle_dec x0 x1); [|lra].
    cbn. f_equal. field. lra.
  - injection Hx as <-. injection Hy as <-.
    unfold Rleb. destruct (Rle_dec x0 x1); [|lra]. destruct (Rle_dec x1 x1); [|lra].
    cbn. f_equal. field. lra.
  - cbn in Hx, Hy.
    assert (Hin : In x xs).
    { apply list_elem_of_In. eapply list_elem_of_lookup_2, Hx. }
    pose proof (increasing_head _ _ H x Hin) as Hlt.
    unfold Rleb at 2. destruct (Rle_dec x x1); [lra|].
    rewrite andb_false_r.
    apply (IH (y1 :: ys) (S i)); try assumption.
    + cbn in L |- *. lia.
    + apply lookup_lt_Some in Hx. cbn. lia.
Qed.

(** Outside the sampled range there is no segment. *)
Lemma interp_segment_below (xs ys : list R) (x0 x : R) :
  increasing (x0 :: xs) -> x < x0 -> np.interp_segment (x0 :: xs) ys x = None.
Proof.
  revert ys x0. induction xs as [|x1 xs IH]; intros ys x0 H Hlt.
  - destruct ys as [|y0 [|y1 ys]]; reflexivity.
  - destruct ys as [|y0 [|y1 ys]]; try reflexivity.
    rewrite interp_segment_cons. destruct H as [H01 H].
    unfold Rleb at 1. destruct (Rle_dec x0 x); [lra|]. cbn [andb].
    apply IH; [exact H | lra].
Qed.

Lemma interp_segment_above (xs ys : list R) (x : R) :
  (forall a, In a xs -> a < x) -> np.interp_segment xs ys x = None.
Proof.
  revert ys. induction xs as [|x0 xs IH]; intros ys H; [reflexivity|].
  destruct ys as [|y0 ys]; [reflexivity|].
  destruct xs as [|x1 xs]; [destruct ys; reflexivity|].
  destruct ys as [|y1 ys]; [reflexivity|].
  rewrite interp_segment_cons.
  assert (x1 < x) by (apply H; right; now left).
  unfold Rleb at 2. destruct (Rle_dec x x1); [lra|]. rewrite andb_false_r.
  apply IH. intros a Ha. apply H. now right.
Qed.

End Interp.

Section Bins.
Import Limber Spec.

(** Bin widths and bin centres, as the source computes them. *)
Lemma bins_cons (a b : R) (l : list R) :
  np.vsub (np.from1 (a :: b :: l)) (np.upto_1 (a :: b :: l))
  = (b - a) :: np.vsub (np.from1 (b :: l)) (np.upto_1 (b :: l)) /\
  map (fun s => s / 2) (np.vadd (np.from1 (a :: b :: l)) (np.upto_1 (a :: b :: l)))
  = (b + a) / 2
    :: map (fun s => s / 2) (np.vadd (np.from1 (b :: l)) (np.upto_1 (b :: l))).
Proof.
  unfold np.vsub, np.vadd, np.from1, np.upto_1.
  replace (length (a :: b :: l) - 1)%nat with (S (length (b :: l) - 1)) by (cbn; lia).
  split; reflexivity.
Qed.

Lemma bins_length (l : list R) :
  length (np.vsub (np.from1 l) (np.upto_1 l)) = (length l - 1)%nat /\
  length (map (fun s => s / 2) (np.vadd (np.from1 l) (np.upto_1 l))) = (length l - 1)%nat.
Proof.
  unfold np.vsub, np.vadd, np.from1, np.upto_1.
  rewrite length_map, !length_zip_with, length_drop, length_take. lia.
Qed.

Lemma mids_increasing (l : list R) :
  increasing l ->
  increasing (map (fun s => s / 2) (np.vadd (np.from1 l) (np.upto_1 l))).
Proof.
  induction l as [|a l IH]; [trivial|]. intros H.
  destruct l as [|b l]; [exact I|].
  destruct (bins_cons a b l) as [_ ->].
  destruct l as [|c l]; [exact I|].
  destruct (bins_cons b c l) as [_ E]. rewrite E.
  destruct H as [Hab [Hbc H]].
  split; [lra|]. rewrite <- E. apply IH. split; assumption.
Qed.

Lemma mids_between (l : list R) (m : R) :
  increasing l ->
  In m (map (fun s => s / 2) (np.vadd (np.from1 l) (np.upto_1 l))) ->
  exists a b, In a l /\ In b l /\ a < m < b.
Proof.
  induction l as [|a l IH]; [intros _ []|]. intros H Hm.
  destruct l as [|b l]; [destruct Hm|].
  destruct (bins_cons a b l) as [_ E]. rewrite E in Hm.
  destruct Hm as [<- | Hm].
  - destruct H as [Hab _]. exists a, b. repeat split; [now left | right; now left | lra | lra].
  - destruct (IH (increasing_tail _ _ H) Hm) as (a' & b' & Ha & Hb & Hlt).
    exists a', b'. repeat split; try (now right); lra.
Qed.

Lemma amin_increasing (a : R) (l : list R) :
  increasing (a :: l) -> np.amin (a :: l) = Ok a.
Proof.
  intros H. cbn [np.amin]. f_equal.
  pose proof (increasing_head _ _ H) as Hh. clear H.
  induction l as [|b l IH]; [reflexivity|].
  cbn [fold_left]. rewrite Rmin_left by (left; apply Hh; now left).
  apply IH. intros x Hx. apply Hh. now right.
Qed.

Lemma amax_increasing (a : R) (l : list R) :
  increasing (a :: l) -> Some (fold_left Rmax l a) = last (a :: l).
Proof.
  revert a. induction l as [|b l IH]; intros a H; [reflexivity|].
  destruct H as [Hab H]. cbn [fold_left]. rewrite Rmax_right by lra.
  rewrite IH by exact H. reflexivity.
Qed.

End Bins.

(** ** Sources given as a histogram: [addNz] *)

Section Histogram.
Import Limber Spec.

Lemma same_source_refl (k : kernel) : same_source k k.
Proof. repeat split. Qed.

Lemma same_source_trans (k1 k2 k3 : kernel) :
  same_source k1 k2 -> same_source k2 k3 -> same_source k1 k3.
Proof.
  intros (A1 & B1 & C1 & D1) (A2 & B2 & C2 & D2).
  repeat split; congruence.
Qed.

Lemma keeps_pure (tag : string) {A : Type} (m : M A) :
  (forall s, (m s).2 = s) -> keeps_source tag m.
Proof. intros H s k Hk. rewrite H. exists k. split; [exact Hk | apply same_source_refl]. Qed.

Lemma keeps_bind (tag : string) {A B : Type} (m : M A) (f : A -> M B) :
  keeps_source tag m -> (forall a, keeps_source tag (f a)) ->
  keeps_source tag (bind m f).
Proof.
  intros Hm Hf s k Hk. unfold bind. destruct (Hm s k Hk) as (k1 & Hk1 & S1).
  destruct (m s) as [[a|e] s'] eqn:E; cbn in Hk1.
  - destruct (Hf a s' k1 Hk1) as (k2 & Hk2 & S2).
    exists k2. split; [exact Hk2 | eapply same_source_trans; eassumption].
  - exists k1. split; [exact Hk1 | exact S1].
Qed.

Lemma keeps_update (tag : string) (f : kernel -> kernel) :
  (forall k, same_source k (f k)) -> keeps_source tag (update_kernel tag f).
Proof.
  intros Hf s k Hk. rewrite (update_kernel_run tag f s k Hk). cbn.
  exists (f k). split; [apply odict_get_set_eq | apply Hf].
Qed.

Lemma keeps_generateWindow (tag : string) (bias magbias : option R)
    (numzIntegral : option nat) :
  keeps_source tag (_generateWindow tag bias magbias numzIntegral).
Proof.
  assert (HW : forall w k, same_source k (set_W w k)) by (intros; repeat split).
  assert (Hz : forall w k, same_source k (set_window_z w k)) by (intros; repeat split).
  assert (Ht : forall t k, same_source k (set_type t k)) by (intros; repeat split).
  assert (Hl : forall A (r : result A), keeps_source tag (lift r))
    by (intros; now apply keeps_pure).
  assert (Hg : keeps_source tag get_self) by now apply keeps_pure.
  unfold _generateWindow. destruct bias as [b|].
  - apply keeps_bind; [exact Hg|]. intros self.
    apply keeps_bind; [apply Hl|]. intros k.
    apply keeps_bind; [apply Hl|]. intros [|p]; [now apply keeps_pure|].
    apply keeps_bind; [apply keeps_update, HW|]. intros _.
    apply keeps_bind; [apply Hl|]. intros zmin.
    apply keeps_bind; [apply keeps_update, HW|]. intros _.
    apply keeps_bind; [apply Hl|]. intros zmax.
    apply keeps_bind; [apply keeps_update, HW|]. intros _.
    apply keeps_bind; [apply keeps_update, Ht|]. intros _.
    destruct magbias as [m|]; [|now apply keeps_pure].
    apply keeps_bind; [apply Hl|]. intros retvals.
    apply keeps_update, HW.
  - apply keeps_bind; [exact Hg|]. intros self.
    apply keeps_bind; [apply Hl|]. intros k.
    apply keeps_bind; [apply Hl|]. intros retvals.
    apply keeps_bind; [apply keeps_update, Hz|]. intros _.
    apply keeps_bind; [apply keeps_update, HW|]. intros _.
    apply keeps_update, Ht.
Qed.

Lemma dot_scale (c : R) (a b : list R) :
  np.dot a (map (fun v => c * v) b) = c * np.dot a b.
Proof.
  unfold np.dot, np.vmul, np.sum. revert b.
  induction a as [|x a IH]; intros [|y b]; cbn [map zip_with fold_right]; try ring.
  rewrite IH. ring.
Qed.

Lemma forM_fdiv (norm : R) (nz : list R) :
  norm <> 0 -> forM (fun n => fdiv n norm) nz = Ok (map (fun v => v / norm) nz).
Proof. intros H. apply forM_pure. intros x _. now apply fdiv_ok. Qed.

(** The part of [addNz] that precedes [_generateWindow]. *)
Lemma addNz_prefix (self : LimberCosmology) (tag : string) (e0 : R) (rest nz : list R)
    (bias magbias : option R) (numzIntegral : option nat) (ignore_exists : bool) (hi : R) :
  tag <> "cmb"%string ->
  ignore_exists = true \/ odict.mem tag (kernels self) = false ->
  length rest = length nz -> nz <> [] -> increasing (e0 :: rest) ->
  last (e0 :: rest) = Some hi ->
  let zedges := e0 :: rest in
  let dzs := np.vsub (np.from1 zedges) (np.upto_1 zedges) in
  let norm := np.dot dzs nz in
  let zmids := map (fun s => s / 2) (np.vadd (np.from1 zedges) (np.upto_1 zedges)) in
  norm <> 0 ->
  addNz tag zedges nz bias magbias numzIntegral ignore_exists self
  = _generateWindow tag bias magbias numzIntegral
      (set_kernels
         (odict.set tag
            (set_zmax hi
               (set_zmin e0
                  (set_dndz
                     (dndz_func (np.interp1d_unsorted zmids (map (fun v => v / norm) nz) 0))
                     kernel_empty)))
            (kernels self))
         self).
Proof.
  intros Htag Hnew L Hnz Hinc Hlast zedges dzs norm zmids Hnorm.
  destruct (bins_length zedges) as (Ld & Lm). fold dzs in Ld. fold zmids in Lm.
  assert (Lz : length zedges = S (length nz)) by (subst zedges; cbn; lia).
  unfold addNz. fold zedges. fold dzs. fold zmids.
  unfold bind at 1. rewrite (check_tag_ok _ _ _ Htag Hnew).
  unfold bind at 1. unfold lift at 1. unfold np.dot_checked.
  replace (length dzs =? length nz)%nat with true by (symmetry; apply Nat.eqb_eq; lia).
  fold norm.
  unfold bind at 1. unfold modify at 1.
  unfold bind at 1. unfold lift at 1. rewrite (forM_fdiv norm nz Hnorm).
  unfold bind at 1. unfold lift at 1.
  replace (length zmids =? 0)%nat with false
    by (symmetry; apply Nat.eqb_neq; destruct nz; [contradiction | cbn in *; lia]).
  unfold bind at 1. erewrite update_kernel_run by (cbn; apply odict_get_set_eq).
  unfold bind at 1. unfold lift at 1. subst zedges. rewrite (amin_increasing _ _ Hinc).
  unfold bind at 1. erewrite update_kernel_run by (cbn; apply odict_get_set_eq).
  unfold bind at 1. unfold lift at 1. cbn [np.amax].
  pose proof (amax_increasing _ _ Hinc) as Hmax. rewrite Hlast in Hmax.
  injection Hmax as ->.
  unfold bind at 1. erewrite update_kernel_run by (cbn; apply odict_get_set_eq).
  cbn [kernels set_kernels]. rewrite !odict_set_set.
  reflexivity.
Qed.

(** X15.  [addNz] registers a redshift distribution that takes the value
    [nz_i / norm] at the centre of bin [i], is normalised over the bins
    ([sum_i dz_i * dndz(zmid_i) = 1]) and vanishes outside the range of
    the bin centres, so also in the outer halves of the first and last
    bins; the source range is that of the edges.  This holds whatever
    the window stage does afterwards. *)
Theorem addNz_registers_normalised_dndz (self : LimberCosmology) (tag : string)
    (zedges nz : list R) (bias magbias : option R) (numzIntegral : option nat)
    (ignore_exists : bool) :
  let dzs := np.vsub (np.from1 zedges) (np.upto_1 zedges) in
  let norm := np.dot dzs nz in
  let zmids := map (fun s => s / 2) (np.vadd (np.from1 zedges) (np.upto_1 zedges)) in
  tag <> "cmb"%string ->
  ignore_exists = true \/ odict.mem tag (kernels self) = false ->
  length zedges = S (length nz) -> (2 <= length nz)%nat ->
  increasing zedges -> norm <> 0 ->
  exists k p,
    odict.get tag
      (kernels (addNz tag zedges nz bias magbias numzIntegral ignore_exists self).2) = Some k /\
    k_dndz k = Some (dndz_func p) /\
    k_zmin k = head zedges /\ k_zmax k = last zedges /\
    (forall i zm v, zmids !! i = Some zm -> nz !! i = Some v -> p zm = v / norm) /\
    np.dot dzs (map p zmids) = 1 /\
    (forall z, (forall zm, In zm zmids -> z < zm) \/ (forall zm, In zm zmids -> zm < z) ->
               p z = 0).
Proof.
  intros dzs norm zmids Htag Hnew L L2 Hinc Hnorm.
  destruct zedges as [|e0 rest]; [discriminate|].
  assert (Lr : length rest = length nz) by (cbn in L; lia).
  assert (Hnz : nz <> []) by (destruct nz; [cbn in L2; lia | discriminate]).
  destruct (last (e0 :: rest)) as [hi|] eqn:Hlast;
    [|apply last_None in Hlast; discriminate].
  rewrite (addNz_prefix self tag e0 rest nz bias magbias numzIntegral ignore_exists hi
             Htag Hnew Lr Hnz Hinc Hlast Hnorm).
  fold dzs norm zmids.
  set (p := np.interp1d_unsorted zmids (map (fun v => v / norm) nz) 0).
  set (K := set_zmax hi (set_zmin e0 (set_dndz (dndz_func p) kernel_empty))).
  set (s := set_kernels (odict.set tag K (kernels self)) self).
  assert (Hk : odict.get tag (kernels s) = Some K) by (cbn; apply odict_get_set_eq).
  destruct (keeps_generateWindow tag bias magbias numzIntegral s K Hk)
    as (k' & Hk' & (Hd & _ & Hlo & Hhi)).
  destruct (bins_length (e0 :: rest)) as (Ld & Lm). fold dzs in Ld. fold zmids in Lm.
  assert (Lp : length zmids = length (map (fun v => v / norm) nz))
    by (rewrite length_map, Lm; cbn; lia).
  assert (Hmi : increasing zmids) by now apply mids_increasing.
  assert (Hp : forall z, p z = np.interp1d zmids (map (fun v => v / norm) nz) 0 z).
  { intros z. unfold p. now apply interp1d_unsorted_increasing. }
  assert (Hnode : forall i zm v, zmids !! i = Some zm -> nz !! i = Some v -> p zm = v / norm).
  { intros i zm v Hzm Hv. rewrite Hp. unfold np.interp1d.
    rewrite (interp_segment_node zmids (map (fun v0 => v0 / norm) nz) i zm (v / norm));
      try assumption; [reflexivity | rewrite Lm; cbn; lia |].
    change (map ?f ?l) with (f <$> l). now rewrite list_lookup_fmap, Hv. }
  exists k', p. split; [exact Hk'|]. split; [now rewrite Hd|].
  split; [now rewrite Hlo|]. split; [now rewrite Hhi|].
  split; [exact Hnode|]. split.
  - assert (Hmap : map p zmids = map (fun v => v / norm) nz).
    { apply list_eq. intros i. change (map ?f ?l) with (f <$> l).
      rewrite !list_lookup_fmap.
      destruct (zmids !! i) as [zm|] eqn:Ei; destruct (nz !! i) as [v|] eqn:Ev; cbn.
      - f_equal. eapply Hnode; eassumption.
      - apply lookup_lt_Some in Ei. apply lookup_ge_None in Ev. rewrite Lm in Ei. cbn in *. lia.
      - apply lookup_lt_Some in Ev. apply lookup_ge_None in Ei. rewrite Lm in Ei. cbn in *. lia.
      - reflexivity. }
    rewrite Hmap.
    replace (map (fun v => v / norm) nz) with (map (fun v => / norm * v) nz)
      by (apply map_ext; intros; unfold Rdiv; ring).
    rewrite dot_scale. fold norm. now apply Rinv_l.
  - intros z Hz. rewrite Hp. unfold np.interp1d.
    destruct Hz as [Hz | Hz].
    + destruct zmids as [|m0 ms] eqn:Em; [reflexivity|].
      rewrite interp_segment_below; [reflexivity | exact Hmi | apply Hz; now left].
    + rewrite interp_segment_above; [reflexivity | exact Hz].
Qed.

(** X16.  Only the shape of [nz] matters: multiplying every [nz_i] by the same
    non-zero factor registers the same kernel. *)
Theorem addNz_scale_invariant (self : LimberCosmology) (tag : string)
    (zedges nz : list R) (bias magbias : option R) (numzIntegral : option nat)
    (ignore_exists : bool) (c : R) :
  c <> 0 ->
  np.dot (np.vsub (np.from1 zedges) (np.upto_1 zedges)) nz <> 0 ->
  addNz tag zedges (map (fun v => c * v) nz) bias magbias numzIntegral ignore_exists self
  = addNz tag zedges nz bias magbias numzIntegral ignore_exists self.
Proof.
  intros Hc Hnorm. unfold addNz.
  set (dzs := np.vsub (np.from1 zedges) (np.upto_1 zedges)) in *.
  unfold bind, lift, modify.
  destruct (check_tag tag ignore_exists self) as [[[]|e] s0]; [|reflexivity].
  unfold np.dot_checked. rewrite length_map.
  destruct (length dzs =? length nz)%nat; [|reflexivity].
  rewrite dot_scale.
  rewrite (forM_fdiv _ _ Hnorm).
  rewrite (forM_fdiv (c * np.dot dzs nz) (map (fun v => c * v) nz))
    by (apply Rmult_integral_contrapositive; split; assumption).
  rewrite map_map.
  replace (map (fun x => c * x / (c * np.dot dzs nz)) nz)
    with (map (fun v => v / np.dot dzs nz) nz); [reflexivity|].
  apply map_ext. intros v. field. split; assumption.
Qed.

End Histogram.

(** ** Loading and reading back spectra *)

Section Strings.
Import Theory Spec.

Lemma rev_app_length (s acc : string) :
  String.length (String.rev_app s acc) = (String.length s + String.length acc)%nat.
Proof.
  revert acc. induction s as [|a s IH]; intros acc; [reflexivity|].
  cbn. rewrite IH. cbn. lia.
Qed.

Lemma rev_length (s : string) : String.length (String.rev s) = String.length s.
Proof. unfold String.rev. rewrite rev_app_length. cbn. lia. Qed.

Lemma append_nil_r (s : string) : (s +:+ "")%string = s.
Proof.
  induction s as [|a s IH]; [reflexivity|].
  change (String a s +:+ "")%string with (String a (s +:+ "")). now rewrite IH.
Qed.

Lemma rev_app_rev_app (s a b : string) :
  String.rev_app (String.rev_app s a) b = String.rev_app a (s +:+ b).
Proof.
  revert a b. induction s as [|c s IH]; intros a b; [reflexivity|].
  change (String.rev_app (String c s) a) with (String.rev_app s (String c a)).
  rewrite IH. reflexivity.
Qed.

Lemma rev_involutive (s : string) : String.rev (String.rev s) = s.
Proof. unfold String.rev. rewrite rev_app_rev_app. cbn. apply append_nil_r. Qed.

End Strings.

Section Store.
Import Theory Spec.

Lemma valid_codes (s : string) :
  validateMapType s = Ok tt ->
  In s ["TT"; "TE"; "TB"; "ET"; "EE"; "EB"; "BT"; "BE"; "BB"]%string.
Proof.
  unfold validateMapType.
  destruct s as [|a [|b [|c s]]]; cbn [String.length Nat.eqb];
    rewrite ?andb_false_r; try discriminate.
  cbn [all_TEB]. rewrite andb_true_r.
  destruct (Ascii.eqb a "T") eqn:Ea1; [apply Ascii.eqb_eq in Ea1; subst a|];
    [|destruct (Ascii.eqb a "E") eqn:Ea2; [apply Ascii.eqb_eq in Ea2; subst a|];
      [|destruct (Ascii.eqb a "B") eqn:Ea3; [apply Ascii.eqb_eq in Ea3; subst a|discriminate]]];
    (destruct (Ascii.eqb b "T") eqn:Eb1; [apply Ascii.eqb_eq in Eb1; subst b|];
     [|destruct (Ascii.eqb b "E") eqn:Eb2; [apply Ascii.eqb_eq in Eb2; subst b|];
       [|destruct (Ascii.eqb b "B") eqn:Eb3;
         [apply Ascii.eqb_eq in Eb3; subst b|discriminate]]]);
    intros _; cbn; tauto.
Qed.

Lemma zspec_fixed (XY : string) :
  in_zspecs XY || in_zspecs (String.rev XY) = true -> lookup_key XY = XY.
Proof.
  intros H. apply orb_true_iff in H.
  assert (Hin : In XY ["EB"; "TB"; "BE"; "BT"]%string).
  { destruct H as [H | H]; unfold in_zspecs, zspecs in H; cbn [existsb] in H;
      rewrite orb_false_r in H; apply orb_true_iff in H;
      destruct H as [H | H]; apply String.eqb_eq in H.
    - subst. cbn. tauto.
    - subst. cbn. tauto.
    - apply (f_equal String.rev) in H. rewrite rev_involutive in H. subst. cbn. tauto.
    - apply (f_equal String.rev) in H. rewrite rev_involutive in H. subst. cbn. tauto. }
  cbn in Hin. destruct Hin as [<- | [<- | [<- | [<- | []]]]]; reflexivity.
Qed.

(** X17.  Loading a polarization spectrum and reading it back.  Under an
    upper-case code other than ["ET"] the loaded interpolant is what
    [uCl] (or [lCl]) evaluates, for either letter case of the query; the
    other table and the generic table are untouched. *)
Theorem loadCls_then_Cl (self : TheorySpectra) (ell Cl : list R) (XYType : string)
    (lensed : bool) (lpad : R) (fill_zero : bool) (f : num -> R) :
  validateMapType XYType = Ok tt -> XYType <> "ET"%string ->
  length ell = length Cl -> (2 <= length (below ell lpad ell))%nat ->
  edge_interp ell Cl lpad fill_zero = Ok f ->
  exists self',
    loadCls self ell Cl XYType lensed lpad fill_zero = Ok self' /\
    (forall query x, lookup_key query = XYType ->
                     _Cl self' query x lensed = Ok (f x)) /\
    (forall query x, _Cl self' query x (negb lensed) = _Cl self query x (negb lensed)) /\
    (forall query x, lookup_key query <> XYType ->
                     _Cl self' query x lensed = _Cl self query x lensed) /\
    _gCl self' = _gCl self.
Proof.
  intros Hv Het _ _ Hf.
  assert (Hup : upper XYType = XYType).
  { apply valid_codes in Hv. cbn in Hv.
    repeat (destruct Hv as [<- | Hv]; [reflexivity|]). destruct Hv. }
  assert (Hq : forall query, lookup_key query = XYType ->
                             validateMapType (upper query) = Ok tt).
  { intros query <-. unfold lookup_key in Hv.
    destruct (String.eqb (upper query) "ET") eqn:E; [|exact Hv].
    apply String.eqb_eq in E. now rewrite E. }
  unfold loadCls. rewrite Hup, Hv, Hf. cbn [mbind result_bind].
  destruct lensed; eexists; (split; [reflexivity|]);
    (split; [|split; [|split; [|reflexivity]]]).
  all: intros query x; unfold _Cl, _Cl_func; fold (lookup_key query);
    cbn [negb _lCl _uCl]; try reflexivity.
  - intros Hk. rewrite (Hq _ Hk), Hk. cbn. now rewrite lookup_insert_eq.
  - intros Hne. now rewrite lookup_insert_ne by congruence.
  - intros Hk. rewrite (Hq _ Hk), Hk. cbn. now rewrite lookup_insert_eq.
  - intros Hne. now rewrite lookup_insert_ne by congruence.
Qed.

(** X18.  The store keeps a spectrum under the code as given but looks codes
    up in upper case, ["ET"] as ["TE"]: a spectrum loaded under a
    lower-case code, or under ["ET"], cannot be read back. *)
Theorem loadCls_unreadable_code (self : TheorySpectra) (ell Cl : list R) (XYType : string)
    (lensed : bool) (lpad : R) (fill_zero : bool) (f : num -> R) :
  validateMapType (upper XYType) = Ok tt ->
  lookup_key XYType <> XYType ->
  (if lensed then _lCl self else _uCl self) !! lookup_key XYType = None ->
  length ell = length Cl -> (2 <= length (below ell lpad ell))%nat ->
  edge_interp ell Cl lpad fill_zero = Ok f ->
  exists self',
    loadCls self ell Cl XYType lensed lpad fill_zero = Ok self' /\
    (if lensed then _lCl self' else _uCl self') !! XYType = Some f /\
    forall x, _Cl self' XYType x lensed = Raise KeyError.
Proof.
  intros Hv Hne Hmiss _ _ Hf.
  unfold loadCls. rewrite Hv, Hf. cbn [mbind result_bind].
  assert (Hz : in_zspecs XYType || in_zspecs (String.rev XYType) = false).
  { destruct (in_zspecs XYType || in_zspecs (String.rev XYType)) eqn:E; [|reflexivity].
    apply zspec_fixed in E. contradiction. }
  destruct lensed; eexists; (split; [reflexivity|]);
    (split; [cbn; apply lookup_insert_eq|]);
    intros x; unfold _Cl, _Cl_func; fold (lookup_key XYType); rewrite Hv;
    cbn [mbind result_bind _lCl _uCl];
    rewrite lookup_insert_ne by congruence; rewrite Hmiss, Hz; reflexivity.
Qed.

(** X19.  A generic spectrum is found under its key and under the reversed
    key, unless the reversed key holds a spectrum of its own. *)
Theorem gCl_reversed_key (self : TheorySpectra) (ells Cls : list R) (keyName : string)
    (lpad : R) (fill_zero : bool) (f : num -> R) :
  String.length keyName <> 3%nat ->
  _gCl self !! String.rev keyName = None \/ String.rev keyName = keyName ->
  length ells = length Cls -> (2 <= length (below ells lpad ells))%nat ->
  edge_interp ells Cls lpad fill_zero = Ok f ->
  exists self',
    loadGenericCls self ells Cls keyName lpad fill_zero = Ok self' /\
    forall x, gCl self' keyName x = Ok (f x) /\
              gCl self' (String.rev keyName) x = Ok (f x).
Proof.
  intros H3 Hrev _ _ Hf. unfold loadGenericCls. rewrite Hf. cbn [mbind result_bind].
  eexists. split; [reflexivity|]. intros x.
  assert (H3' : (String.length keyName =? 3)%nat = false) by now apply Nat.eqb_neq.
  unfold gCl, gCl_func, getitem. rewrite rev_length, H3'. cbn [_gCl].
  rewrite rev_involutive, lookup_insert_eq. split; [reflexivity|].
  destruct Hrev as [Hnone | Heq].
  - destruct (String.eqb (String.rev keyName) keyName) eqn:E.
    + apply String.eqb_eq in E. rewrite E, lookup_insert_eq. reflexivity.
    + apply String.eqb_neq in E. rewrite lookup_insert_ne by congruence.
      rewrite Hnone. reflexivity.
  - rewrite Heq, lookup_insert_eq. reflexivity.
Qed.

(** X20.  [gCl] reads every three-character name as a lensed or unlensed
    polarization code: a generic spectrum stored under such a name is
    never returned, and a name that starts with neither [u] nor [l]
    raises [ValueError]. *)
Theorem gCl_three_letter_key (self : TheorySpectra) (ells Cls : list R) (keyName : string)
    (lpad : R) (fill_zero : bool) (f : num -> R) :
  String.length keyName = 3%nat ->
  length ells = length Cls -> (2 <= length (below ells lpad ells))%nat ->
  edge_interp ells Cls lpad fill_zero = Ok f ->
  exists self',
    loadGenericCls self ells Cls keyName lpad fill_zero = Ok self' /\
    _gCl self' !! keyName = Some f /\
    (forall x, gCl self' keyName x = gCl self keyName x) /\
    (forall c rest x, keyName = String c rest ->
                      ~ In c ["u"; "U"; "l"; "L"]%char ->
                      gCl self' keyName x = Raise ValueError).
Proof.
  intros H3 _ _ Hf. unfold loadGenericCls. rewrite Hf. cbn [mbind result_bind].
  eexists. split; [reflexivity|]. split; [cbn; apply lookup_insert_eq|].
  assert (H3' : (String.length keyName =? 3)%nat = true) by now apply Nat.eqb_eq.
  split.
  - intros x. unfold gCl, gCl_func. rewrite H3'. reflexivity.
  - intros c rest x -> Hc. unfold gCl, gCl_func. rewrite H3'.
    assert (Hu : Ascii.eqb (lower_ascii c) "u" = false).
    { apply Ascii.eqb_neq. intros E. apply Hc.
      destruct c as [[] [] [] [] [] [] [] []]; cbn in E; try discriminate; cbn; tauto. }
    assert (Hl : Ascii.eqb (lower_ascii c) "l" = false).
    { apply Ascii.eqb_neq. intros E. apply Hc.
      destruct c as [[] [] [] [] [] [] [] []]; cbn in E; try discriminate; cbn; tauto. }
    rewrite Hu, Hl. reflexivity.
Qed.

End Store.

(** ** Generic spectra around [lpad] *)

Section Edges.
Import Theory Spec.

(** On increasing multipoles the samples below [lpad] are a prefix. *)
Lemma below_prefix (ells : list R) (lpad : R) :
  increasing ells ->
  exists k,
    (forall (A : Type) (a : list A), length a = length ells -> below ells lpad a = take k a) /\
    (forall i l, ells !! i = Some l -> (l < lpad <-> (i < k)%nat)).
Proof.
  induction ells as [|l0 ells IH]; intros Hinc.
  - exists 0%nat. split; [intros A [|x a]; [reflexivity | discriminate]|].
    intros i l Hl. discriminate.
  - destruct (IH (increasing_tail _ _ Hinc)) as (k & Hk & Hi).
    unfold below. cbn [map]. unfold Rltb at 1. destruct (Rlt_dec l0 lpad) as [Hlt|Hge].
    + exists (S k). split.
      * intros A [|x a] L; [discriminate|]. cbn [np.mask_select take]. f_equal.
        apply (Hk A a). cbn in L. lia.
      * intros [|i] l Hl; cbn in Hl.
        -- injection Hl as <-. split; [lia | intros _; exact Hlt].
        -- rewrite (Hi i l Hl). lia.
    + exists 0%nat. split.
      * intros A [|x a] L; [reflexivity|]. cbn [np.mask_select take].
        assert (Hnone : forall (m : list R) (b : list A),
                  (forall y, In y m -> ~ y < lpad) ->
                  np.mask_select (map (fun l => Rltb l lpad) m) b = []).
        { induction m as [|y m IHm]; intros b Hm; [reflexivity|].
          destruct b as [|z b]; [reflexivity|]. cbn [map np.mask_select].
          unfold Rltb at 1. destruct (Rlt_dec y lpad) as [Hy|_].
          - exfalso. apply (Hm y); [now left | exact Hy].
          - apply IHm. intros y' Hy'. apply Hm. now right. }
        apply Hnone. intros y Hy Hlt.
        pose proof (increasing_head _ _ Hinc y Hy). lra.
      * intros [|i] l Hl; cbn in Hl.
        -- injection Hl as <-. split; [intros; contradiction | lia].
        -- split; [|lia]. intros Hlt.
           assert (Hin : In l ells) by (apply list_elem_of_In; eapply list_elem_of_lookup_2, Hl).
           pose proof (increasing_head _ _ Hinc l Hin). lra.
Qed.

Lemma increasing_take (k : nat) (l : list R) : increasing l -> increasing (take k l).
Proof.
  revert k. induction l as [|a l IH]; intros [|k] H; try exact I.
  cbn [take]. destruct l as [|b l]; [destruct k; exact I|]. destruct k as [|k]; [exact I|].
  destruct H as [Hab H]. split; [exact Hab|]. apply (IH (S k)), H.
Qed.

Lemma increasing_last (l : list R) (x m : R) :
  increasing l -> last l = Some m -> In x l -> x <= m.
Proof.
  revert x. induction l as [|a l IH]; intros x Hinc Hlast Hx; [destruct Hx|].
  destruct l as [|b l].
  - cbn in Hlast. injection Hlast as <-. destruct Hx as [<- | []]. lra.
  - change (last (a :: b :: l)) with (last (b :: l)) in Hlast.
    destruct Hx as [<- | Hx].
    + assert (a < b) by apply Hinc.
      assert (b <= m) by (apply IH; [apply Hinc | exact Hlast | now left]). lra.
    + apply IH; [apply Hinc | exact Hlast | exact Hx].
Qed.

(** The interpolant on the samples below [lpad]. *)
Lemma below_interp (ells Cls : list R) (lpad : R) :
  length ells = length Cls -> increasing ells ->
  (2 <= length (below ells lpad ells))%nat ->
  let g := np.interp1d (below ells lpad ells) (below ells lpad Cls) 0 in
  (forall i l c, ells !! i = Some l -> Cls !! i = Some c -> l < lpad -> g l = c) /\
  (forall x m, last (below ells lpad ells) = Some m -> m < x -> g x = 0) /\
  (forall x l0, head ells = Some l0 -> x < l0 -> g x = 0).
Proof.
  intros L Hinc L2 g. subst g.
  destruct (below_prefix ells lpad Hinc) as (k & Hk & Hi).
  rewrite (Hk R ells eq_refl), (Hk R Cls (eq_sym L)) in *.
  pose proof (increasing_take k ells Hinc) as Hinck.
  split; [|split].
  - intros i l c Hl Hc Hlt. unfold np.interp1d.
    rewrite (interp_segment_node (take k ells) (take k Cls) i l c); try assumption.
    + reflexivity.
    + rewrite !length_take. lia.
    + rewrite lookup_take_lt; [exact Hl | now apply (Hi i l Hl)].
    + rewrite lookup_take_lt; [exact Hc | now apply (Hi i l Hl)].
  - intros x m Hlast Hlt. unfold np.interp1d.
    rewrite interp_segment_above; [reflexivity|].
    intros a Ha. pose proof (increasing_last _ a m Hinck Hlast Ha). lra.
  - intros x l0 Hhead Hlt. unfold np.interp1d.
    destruct ells as [|l0' ells]; [discriminate|]. injection Hhead as ->.
    destruct k as [|k]; [cbn in L2; lia|]. cbn [take].
    rewrite interp_segment_below; [reflexivity | exact Hinck | exact Hlt].
Qed.

Lemma piecewise_float (x lpad : R) (g t : R -> R) :
  num_val (np.piecewise (NFloat x) [Rleb x lpad; Rgtb x lpad] [g; t])
  = if Rle_dec x lpad then g x else t x.
Proof.
  unfold np.piecewise, Rleb, Rgtb, Rltb. cbn.
  destruct (Rle_dec x lpad), (Rlt_dec lpad x); cbn; try reflexivity; lra.
Qed.

(** X21.  A generic spectrum loaded with [fill_zero]: the samples below [lpad]
    are returned at their multipoles, and the spectrum is zero from
    [lpad] on and below the first sample. *)
Theorem generic_spectrum_fill_zero (self : TheorySpectra) (ells Cls : list R)
    (keyName : string) (lpad : R) :
  String.length keyName <> 3%nat ->
  length ells = length Cls -> increasing ells ->
  (2 <= length (below ells lpad ells))%nat ->
  exists self',
    loadGenericCls self ells Cls keyName lpad true = Ok self' /\
    (forall i l c, ells !! i = Some l -> Cls !! i = Some c -> l < lpad ->
                   gCl self' keyName (NFloat l) = Ok c) /\
    (forall x, lpad <= num_val x -> gCl self' keyName x = Ok 0) /\
    (forall x l0, head ells = Some l0 -> num_val x < l0 -> gCl self' keyName x = Ok 0).
Proof.
  intros H3 L Hinc L2.
  destruct (below_interp ells Cls lpad L Hinc L2) as (Hnode & Habove & Hbelow).
  cbv zeta in Hnode, Habove, Hbelow.
  eexists. split; [reflexivity|].
  assert (H3' : (String.length keyName =? 3)%nat = false) by now apply Nat.eqb_neq.
  assert (Hg : forall x,
            gCl {| _uCl := _uCl self; _lCl := _lCl self;
                   _gCl := <[keyName := fun x : num =>
                               np.interp1d (below ells lpad ells) (below ells lpad Cls) 0
                                 (num_val x)]> (_gCl self) |} keyName x
            = Ok (np.interp1d (below ells lpad ells) (below ells lpad Cls) 0 (num_val x))).
  { intros x. unfold gCl, gCl_func. rewrite H3'. cbn [_gCl].
    rewrite lookup_insert_eq. reflexivity. }
  split; [|split].
  - intros i l c Hl Hc Hlt. rewrite Hg. f_equal. now apply (Hnode i l c).
  - intros x Hx. rewrite Hg. f_equal.
    destruct (last (below ells lpad ells)) as [m|] eqn:Hlast.
    + apply (Habove _ m eq_refl).
      destruct (below_prefix ells lpad Hinc) as (k & Hk & Hi).
      rewrite (Hk R ells eq_refl) in Hlast.
      assert (Hin : In m (take k ells)).
      { apply list_elem_of_In. now apply last_Some_elem_of. }
      apply list_elem_of_In, list_elem_of_lookup_1 in Hin. destruct Hin as (i & Hi').
      assert (Hik : (i < k)%nat).
      { apply lookup_lt_Some in Hi'. rewrite length_take in Hi'. lia. }
      rewrite lookup_take_lt in Hi' by exact Hik.
      pose proof (proj2 (Hi i m Hi') Hik). lra.
    + apply last_None in Hlast. rewrite Hlast in L2. cbn in L2. lia.
  - intros x l0 Hh Hx. rewrite Hg. f_equal. now apply (Hbelow _ l0).
Qed.

(** X22.  A generic spectrum loaded without [fill_zero]: the samples below
    [lpad] at their multipoles, the tail [fillval * (lpad/ell)^4] above
    [lpad], and zero in between, from the last sample below [lpad] up to
    [lpad] itself (float multipoles). *)
Theorem generic_spectrum_tail_gap (self : TheorySpectra) (ells Cls : list R)
    (keyName : string) (lpad : R) :
  String.length keyName <> 3%nat ->
  length ells = length Cls -> increasing ells ->
  (2 <= length (below ells lpad ells))%nat ->
  exists self' fillval lastell,
    loadGenericCls self ells Cls keyName lpad false = Ok self' /\
    last (below ells lpad Cls) = Some fillval /\
    last (below ells lpad ells) = Some lastell /\
    (forall i l c, ells !! i = Some l -> Cls !! i = Some c -> l < lpad ->
                   gCl self' keyName (NFloat l) = Ok c) /\
    (forall ell, lastell < ell <= lpad -> gCl self' keyName (NFloat ell) = Ok 0) /\
    (forall ell, lpad < ell ->
                 gCl self' keyName (NFloat ell) = Ok (fillval * (lpad / ell) ^ 4)).
Proof.
  intros H3 L Hinc L2.
  destruct (below_interp ells Cls lpad L Hinc L2) as (Hnode & Habove & _).
  cbv zeta in Hnode, Habove.
  destruct (last (below ells lpad ells)) as [lastell|] eqn:Hle;
    [|apply last_None in Hle; rewrite Hle in L2; cbn in L2; lia].
  destruct (last (below ells lpad Cls)) as [fillval|] eqn:Hlc.
  2:{ apply last_None in Hlc.
      destruct (below_prefix ells lpad Hinc) as (k & Hk & _).
      rewrite (Hk R ells eq_refl) in L2. rewrite (Hk R Cls (eq_sym L)) in Hlc.
      apply (f_equal length) in Hlc. rewrite length_take in *. cbn in Hlc. lia. }
  unfold loadGenericCls, edge_interp. cbn [negb]. rewrite Hlc. cbn [mbind result_bind].
  eexists _, fillval, lastell. split; [reflexivity|].
  split; [reflexivity|]. split; [reflexivity|].
  assert (H3' : (String.length keyName =? 3)%nat = false) by now apply Nat.eqb_neq.
  assert (Hg : forall s x,
            gCl {| _uCl := _uCl self; _lCl := _lCl self;
                   _gCl := <[keyName := s]> (_gCl self) |} keyName x = Ok (s x)).
  { intros s x. unfold gCl, gCl_func. rewrite H3'. cbn [_gCl].
    rewrite lookup_insert_eq. reflexivity. }
  split; [|split].
  - intros i l c Hl Hc Hlt. rewrite Hg. cbn [num_val]. rewrite piecewise_float.
    destruct (Rle_dec l lpad); [|lra]. f_equal. now apply (Hnode i l c).
  - intros ell [H1 H2]. rewrite Hg. cbn [num_val]. rewrite piecewise_float.
    destruct (Rle_dec ell lpad); [|lra]. f_equal. now apply (Habove _ lastell).
  - intros ell Hlt. rewrite Hg. cbn [num_val]. rewrite piecewise_float.
    destruct (Rle_dec ell lpad); [lra | reflexivity].
Qed.

(** X23.  Without [fill_zero] both load operations take the tail amplitude
    from the last sample below [lpad]; when no multipole lies below
    [lpad] (an empty table, for one) they raise [IndexError]. *)
Theorem tail_needs_sample_below_lpad (self : TheorySpectra) (ells Cls : list R)
    (lpad : R) :
  (forall l, In l ells -> lpad <= l) ->
  (forall keyName, loadGenericCls self ells Cls keyName lpad false = Raise IndexError) /\
  (forall XYType lensed,
     validateMapType (upper XYType) = Ok tt ->
     loadCls self ells Cls XYType lensed lpad false = Raise IndexError).
Proof.
  intros Hall.
  assert (Hb : below ells lpad Cls = []).
  { unfold below. revert Cls. induction ells as [|l ells IH]; intros Cls; [reflexivity|].
    destruct Cls as [|c Cls]; [reflexivity|]. cbn [map np.mask_select].
    unfold Rltb at 1. destruct (Rlt_dec l lpad) as [Hlt|_].
    - specialize (Hall l (or_introl eq_refl)). lra.
    - apply IH. intros l' Hl'. apply Hall. now right. }
  assert (He : edge_interp ells Cls lpad false = Raise IndexError).
  { unfold edge_interp. cbn [negb]. now rewrite Hb. }
  split.
  - intros keyName. unfold loadGenericCls. now rewrite He.
  - intros XYType lensed Hv. unfold loadCls. now rewrite Hv, He.
Qed.

End Edges.

(** ** Symmetry of the Knox covariance *)

Section KnoxSymmetry.
Import Theory Forecast Spec.

Lemma gCl_func_swap (th : TheorySpectra) (a b : ascii) :
  one_order th -> gCl_func th (cat2 a b) = gCl_func th (cat2 b a).
Proof.
  intros H. destruct (Ascii.eqb a b) eqn:E.
  - apply Ascii.eqb_eq in E. now subst.
  - apply Ascii.eqb_neq in E. unfold gCl_func, getitem.
    change (String.length (cat2 a b) =? 3)%nat with false.
    change (String.length (cat2 b a) =? 3)%nat with false.
    change (String.rev (cat2 a b)) with (cat2 b a).
    change (String.rev (cat2 b a)) with (cat2 a b).
    destruct (H a b E) as [Hn | Hn]; rewrite Hn;
      destruct (_gCl th !! _); reflexivity.
Qed.

Lemma bin_cls_swap (self : LensForecast) (a b : ascii) (ell_left ell_right : BinNums.Z)
    (noise : bool) :
  one_order (theory self) ->
  _bin_cls self (cat2 a b) ell_left ell_right noise
  = _bin_cls self (cat2 b a) ell_left ell_right noise.
Proof.
  intros H. destruct (Ascii.eqb a b) eqn:E.
  - apply Ascii.eqb_eq in E. now subst.
  - unfold _bin_cls. cbn [unpack2 cat2 mbind result_bind fst snd].
    change (String a (String b "")) with (cat2 a b).
    change (String b (String a "")) with (cat2 b a).
    rewrite (gCl_func_swap _ a b H), E.
    assert (E' : Ascii.eqb b a = false).
    { apply Ascii.eqb_neq. intros ->. now rewrite Ascii.eqb_refl in E. }
    rewrite E'. reflexivity.
Qed.

Lemma KnoxCov_bin_swap (self : LensForecast) (X Y W Z : ascii) (fsky : R)
    (bin : BinNums.Z * BinNums.Z) (r : R * R * R) :
  one_order (theory self) ->
  KnoxCov_bin self (cat2 X Y) (cat2 W Z) X Y W Z fsky bin = Ok r ->
  KnoxCov_bin self (cat2 W Z) (cat2 X Y) W Z X Y fsky bin = Ok (r.1.1, r.2, r.1.2).
Proof.
  intros H. unfold KnoxCov_bin. cbv zeta.
  rewrite (bin_cls_swap self W X _ _ true H), (bin_cls_swap self Z Y _ _ true H),
    (bin_cls_swap self W Y _ _ true H), (bin_cls_swap self Z X _ _ true H).
  destruct (_bin_cls self (cat2 X W) bin.1 bin.2 true) as [cXW|]; [|discriminate].
  destruct (_bin_cls self (cat2 Y Z) bin.1 bin.2 true) as [cYZ|]; [|discriminate].
  destruct (_bin_cls self (cat2 X Z) bin.1 bin.2 true) as [cXZ|]; [|discriminate].
  destruct (_bin_cls self (cat2 Y W) bin.1 bin.2 true) as [cYW|]; [|discriminate].
  cbn [mbind result_bind].
  replace (cXW * cYZ + cYW * cXZ) with (cXW * cYZ + cXZ * cYW) by ring.
  destruct (fdiv (cXW * cYZ + cXZ * cYW) _) as [v1|]; [|discriminate]. cbn [mbind result_bind].
  destruct (fdiv v1 _) as [v2|]; [|discriminate]. cbn [mbind result_bind].
  destruct (fdiv v2 fsky) as [var|]; [|discriminate]. cbn [mbind result_bind].
  destruct (_bin_cls self (cat2 X Y) bin.1 bin.2 false) as [s1|]; [|discriminate].
  destruct (_bin_cls self (cat2 W Z) bin.1 bin.2 false) as [s2|]; [|discriminate].
  cbn [mbind result_bind]. intros [= <-]. reflexivity.
Qed.

Lemma forM_related {A B : Type} (f g : A -> result B) (h : B -> B) (xs : list A)
    (ys : list B) :
  (forall x y, In x xs -> f x = Ok y -> g x = Ok (h y)) ->
  forM f xs = Ok ys -> forM g xs = Ok (map h ys).
Proof.
  revert ys. induction xs as [|x xs IH]; intros ys Hfg; cbn [forM].
  - intros [= <-]. reflexivity.
  - destruct (f x) as [y|] eqn:E; [|discriminate]. cbn [mbind result_bind].
    destruct (forM f xs) as [ys'|] eqn:E'; [|discriminate]. cbn [mbind result_bind].
    intros [= <-]. rewrite (Hfg x y (or_introl eq_refl) E). cbn [mbind result_bind].
    rewrite (IH ys' (fun x0 y0 Hin => Hfg x0 y0 (or_intror Hin)) eq_refl). reflexivity.
Qed.

(** X24.  The Knox covariance is symmetric in its two spectra: exchanging
    [specTypeXY] and [specTypeWZ] returns the same covariances, with the
    two signal-to-noise arrays exchanged. *)
Theorem KnoxCov_symmetric (self : LensForecast) (X Y W Z : ascii)
    (ellBinEdges : list BinNums.Z) (fsky : R) (covs sigs1 sigs2 : list R) :
  one_order (theory self) ->
  KnoxCov self (cat2 X Y) (cat2 W Z) ellBinEdges fsky = Ok (covs, sigs1, sigs2) ->
  KnoxCov self (cat2 W Z) (cat2 X Y) ellBinEdges fsky = Ok (covs, sigs2, sigs1).
Proof.
  intros H. unfold KnoxCov. cbn [unpack2 cat2 mbind result_bind fst snd].
  change (String X (String Y "")) with (cat2 X Y).
  change (String W (String Z "")) with (cat2 W Z).
  destruct (forM (KnoxCov_bin self (cat2 X Y) (cat2 W Z) X Y W Z fsky) (bins ellBinEdges))
    as [rows|] eqn:E; [|discriminate].
  cbn [mbind result_bind]. intros [= <- <- <-].
  rewrite (forM_related (KnoxCov_bin self (cat2 X Y) (cat2 W Z) X Y W Z fsky)
             (KnoxCov_bin self (cat2 W Z) (cat2 X Y) W Z X Y fsky)
             (fun r : R * R * R => (r.1.1, r.2, r.1.2)) (bins ellBinEdges) rows);
    [|intros b r _ Hr; now apply KnoxCov_bin_swap|exact E].
  cbn [mbind result_bind]. rewrite !map_map. reflexivity.
Qed.

End KnoxSymmetry.

(** ** Signal-to-noise of one spectrum: [sn] *)

Section SignalToNoise.
Import Theory Forecast Spec.

Lemma arange_incl_bounds (lo hi l : Z) :
  In l (np.arange_incl lo hi) -> (lo <= l <= hi)%Z.
Proof.
  unfold np.arange_incl. intros H. apply in_map_iff in H.
  destruct H as (i & <- & Hi). apply in_seq in Hi. lia.
Qed.

Lemma arange_incl_last (lo hi : Z) : (lo <= hi)%Z -> In hi (np.arange_incl lo hi).
Proof.
  intros H. unfold np.arange_incl. apply in_map_iff.
  exists (Z.to_nat (hi - lo)). split; [lia|]. apply in_seq. lia.
Qed.

Lemma sum_nonneg (l : list R) : (forall x, In x l -> 0 <= x) -> 0 <= np.sum l.
Proof.
  induction l as [|x l IH]; intros H; cbn; [lra|].
  assert (0 <= x) by (apply H; now left).
  assert (0 <= np.sum l) by (apply IH; intros; apply H; now right).
  unfold np.sum in *. lra.
Qed.

Lemma sum_pos (l : list R) (y : R) :
  (forall x, In x l -> 0 <= x) -> In y l -> 0 < y -> 0 < np.sum l.
Proof.
  induction l as [|x l IH]; intros H Hy Hpos; [destruct Hy|].
  cbn. assert (0 <= x) by (apply H; now left).
  assert (0 <= np.sum l) by (apply sum_nonneg; intros; apply H; now right).
  destruct Hy as [-> | Hy].
  - unfold np.sum in *. lra.
  - assert (0 < np.sum l) by (apply IH; auto; intros; apply H; now right).
    unfold np.sum in *. lra.
Qed.

Lemma sum_le (A : Type) (g h : A -> R) (l : list A) :
  (forall x, In x l -> g x <= h x) -> np.sum (map g l) <= np.sum (map h l).
Proof.
  induction l as [|x l IH]; intros H; cbn; [lra|].
  assert (g x <= h x) by (apply H; now left).
  assert (np.sum (map g l) <= np.sum (map h l)) by (apply IH; intros; apply H; now right).
  unfold np.sum in *. lra.
Qed.

Lemma arange_sum_pos (lo hi : Z) :
  (0 <= lo < hi)%Z -> 0 < np.sum (map IZR (np.arange_incl lo hi)).
Proof.
  intros H. apply (sum_pos _ (IZR hi)).
  - intros x Hx. apply in_map_iff in Hx. destruct Hx as (l & <- & Hl).
    apply arange_incl_bounds in Hl. apply IZR_le. lia.
  - apply in_map. apply arange_incl_last. lia.
  - apply IZR_lt. lia.
Qed.

Lemma weighted_as_map (ells : list Z) (s n : Z -> R) :
  zip_with (fun l t => IZR l * t) ells (zip_with Rplus (map s ells) (map n ells))
  = map (fun l => IZR l * (s l + n l)) ells.
Proof.
  rewrite zip_with_tab.
  replace ells with (map (fun l : Z => l) ells) at 1 by apply map_id.
  now rewrite zip_with_tab.
Qed.

(** The binned signal and the binned total of an auto spectrum with
    non-negative signal and noise. *)
Lemma bin_auto (self : LensForecast) (a : ascii) (lo hi : Z) (f : num -> R)
    (N : num -> result R) (nz : Z -> R) :
  gCl_func (theory self) (cat2 a a) = Ok f ->
  Nls self !! cat2 a a = Some N ->
  (0 <= lo < hi)%Z ->
  (forall l, In l (np.arange_incl lo hi) ->
             N (NInt l) = Ok (nz l) /\ 0 <= nz l /\ 0 <= f (NInt l)) ->
  exists S T,
    _bin_cls self (cat2 a a) lo hi false = Ok S /\
    _bin_cls self (cat2 a a) lo hi true = Ok T /\
    0 <= S <= T /\
    ((forall l, In l (np.arange_incl lo hi) -> nz l = 0) -> T = S) /\
    ((forall l, In l (np.arange_incl lo hi) -> 0 < f (NInt l)) -> 0 < S).
Proof.
  intros Hf HN Hb Hl.
  set (ells := np.arange_incl lo hi) in *.
  pose proof (arange_sum_pos lo hi Hb) as HD. fold ells in HD.
  set (D := np.sum (map IZR ells)) in *.
  assert (Hw : forall l, In l ells -> 0 <= IZR l).
  { intros l Hin. apply arange_incl_bounds in Hin. apply IZR_le. lia. }
  rewrite !(bin_cls_unfold self _ lo hi _ f Hf). fold ells. fold D.
  unfold bin_noise. cbn [unpack2 cat2 mbind result_bind fst snd andb].
  rewrite Ascii.eqb_refl. unfold getitem.
  change (String a (String a "")) with (cat2 a a). rewrite HN.
  cbn [mbind result_bind].
  rewrite (forM_pure (fun l => N (NInt l)) nz ells) by (intros l Hin; apply Hl, Hin).
  cbn [mbind result_bind].
  rewrite (weighted_as_map ells (fun l => f (NInt l)) nz).
  rewrite (weighted_as_map ells (fun l => f (NInt l)) (fun _ => 0)).
  rewrite !fdiv_ok by lra.
  eexists _, _. split; [reflexivity|]. split; [reflexivity|].
  assert (H0 : 0 <= np.sum (map (fun l => IZR l * (f (NInt l) + 0)) ells)).
  { apply sum_nonneg. intros x Hx. apply in_map_iff in Hx. destruct Hx as (l & <- & Hin).
    destruct (Hl l Hin) as (_ & _ & Hs). specialize (Hw l Hin). nra. }
  assert (H1 : np.sum (map (fun l => IZR l * (f (NInt l) + 0)) ells)
               <= np.sum (map (fun l => IZR l * (f (NInt l) + nz l)) ells)).
  { apply sum_le. intros l Hin. destruct (Hl l Hin) as (_ & Hn & _).
    specialize (Hw l Hin). nra. }
  split; [|split].
  - split.
    + apply Rmult_le_pos; [exact H0 | left; now apply Rinv_0_lt_compat].
    + apply Rmult_le_compat_r; [left; now apply Rinv_0_lt_compat | exact H1].
  - intros Hz. f_equal. f_equal. apply map_ext_in. intros l Hin. now rewrite (Hz l Hin).
  - intros Hpos. apply Rdiv_lt_0_compat; [|exact HD].
    apply (sum_pos _ (IZR hi * (f (NInt hi) + 0))).
    + intros x Hx. apply in_map_iff in Hx. destruct Hx as (l & <- & Hin).
      destruct (Hl l Hin) as (_ & _ & Hs). specialize (Hw l Hin). nra.
    + apply in_map_iff. exists hi. split; [reflexivity | apply arange_incl_last; lia].
    + assert (0 < IZR hi) by (apply IZR_lt; lia).
      assert (0 < f (NInt hi)) by (apply Hpos, arange_incl_last; lia). nra.
Qed.

Lemma bin_modes_pos (fsky : R) (b : Z * Z) :
  0 < fsky -> (0 <= b.1 < b.2)%Z -> 0 < bin_modes fsky b.
Proof.
  intros Hf Hb. unfold bin_modes.
  assert (0 <= IZR b.1) by (apply IZR_le; lia).
  assert (IZR b.1 < IZR b.2) by (apply IZR_lt; lia).
  apply Rmult_lt_0_compat; [apply Rmult_lt_0_compat|]; lra.
Qed.

(** One bin of [KnoxCov] for an auto spectrum against itself. *)
Lemma KnoxCov_bin_auto (self : LensForecast) (a : ascii) (fsky : R) (b : Z * Z) (S T : R) :
  0 < fsky -> (0 <= b.1 < b.2)%Z ->
  _bin_cls self (cat2 a a) b.1 b.2 false = Ok S ->
  _bin_cls self (cat2 a a) b.1 b.2 true = Ok T ->
  0 <= S <= T ->
  exists var sig,
    KnoxCov_bin self (cat2 a a) (cat2 a a) a a a a fsky b = Ok (var, sig, sig) /\
    0 <= var /\ 0 <= sig <= bin_modes fsky b / 2 /\
    (T = S -> 0 < S -> sig = bin_modes fsky b / 2).
Proof.
  intros Hf Hb HS HT HST.
  pose proof (bin_modes_pos fsky b Hf Hb) as HK.
  destruct (bin_positive b Hb) as [Hm Hw].
  unfold KnoxCov_bin. cbv zeta. rewrite HT, HS. cbn [mbind result_bind].
  rewrite (fdiv_ok _ _ Hm). cbn [mbind result_bind].
  rewrite (fdiv_ok _ _ Hw). cbn [mbind result_bind].
  rewrite (fdiv_ok _ fsky) by lra. cbn [mbind result_bind].
  set (var := (T * T + T * T) / (2 * ((IZR b.2 + IZR b.1) / 2) + 1)
              / (IZR b.2 - IZR b.1) / fsky).
  assert (Hvar : var = 2 * T ^ 2 / bin_modes fsky b).
  { unfold var, bin_modes. field. repeat split; lra. }
  eexists _, _. split; [reflexivity|].
  assert (HT2 : 0 <= T ^ 2) by (apply pow2_ge_0).
  assert (HS2 : 0 <= S ^ 2) by (apply pow2_ge_0).
  split; [|split].
  - rewrite Hvar. apply Rmult_le_pos; [lra | left; now apply Rinv_0_lt_compat].
  - unfold nan_to_num_recip. destruct (Req_dec_T var 0) as [Hz | Hnz].
    + assert (T = 0).
      { rewrite Hvar in Hz. apply (Rmult_eq_compat_r (bin_modes fsky b)) in Hz.
        unfold Rdiv in Hz. rewrite Rmult_assoc, Rinv_l, Rmult_1_r, Rmult_0_l in Hz by lra.
        assert (T ^ 2 = 0) by lra. nra. }
      assert (S = 0) by lra. subst S. rewrite pow_i by lia. lra.
    + assert (HTn : T <> 0).
      { intros ->. apply Hnz. rewrite Hvar. unfold Rdiv. ring. }
      assert (HTp : 0 < T ^ 2) by (apply pow_lt; lra).
      assert (Hsig : S ^ 2 * (1 / var) = S ^ 2 / T ^ 2 * (bin_modes fsky b / 2)).
      { rewrite Hvar. field. split; [exact HTn | lra]. }
      rewrite Hsig.
      assert (Hr : 0 <= S ^ 2 / T ^ 2 <= 1).
      { split.
        - apply Rmult_le_pos; [exact HS2 | left; now apply Rinv_0_lt_compat].
        - apply (Rmult_le_reg_r (T ^ 2)); [exact HTp|].
          unfold Rdiv. rewrite Rmult_assoc, Rinv_l by lra. nra. }
      split; nra.
  - intros -> HSp. unfold nan_to_num_recip.
    destruct (Req_dec_T var 0) as [Hz | Hnz].
    + exfalso. rewrite Hvar in Hz. apply (Rmult_eq_compat_r (bin_modes fsky b)) in Hz.
      unfold Rdiv in Hz. rewrite Rmult_assoc, Rinv_l, Rmult_1_r, Rmult_0_l in Hz by lra.
      nra.
    + rewrite Hvar. field. split; lra.
Qed.

Lemma forM_exists {A B : Type} (f : A -> result B) (P : A -> B -> Prop) (xs : list A) :
  (forall x, In x xs -> exists y, f x = Ok y /\ P x y) ->
  exists ys, forM f xs = Ok ys /\ Forall2 P xs ys.
Proof.
  induction xs as [|x xs IH]; intros H.
  - exists []. split; [reflexivity | constructor].
  - destruct (H x (or_introl eq_refl)) as (y & Hy & Py).
    destruct IH as (ys & Hys & Pys); [intros; apply H; now right|].
    exists (y :: ys). split; [|now constructor].
    cbn [forM]. rewrite Hy. cbn [mbind result_bind]. rewrite Hys. reflexivity.
Qed.

(** X25.  The signal-to-noise of an auto spectrum.  With non-negative signal
    and noise, [sn] returns, its errors are one per bin, and the
    signal-to-noise never exceeds the cosmic-variance limit
    [sqrt (sum over the bins of (2 ell_mid + 1) * width * fsky / 2)]; it
    reaches the limit, whatever the spectrum, when the noise vanishes and
    the signal is positive. *)
Theorem sn_cosmic_variance_limit (self : LensForecast) (a : ascii)
    (ellBinEdges : list BinNums.Z) (fsky : R) (f : num -> R) (N : num -> result R)
    (nz : BinNums.Z -> R) :
  0 < fsky ->
  (forall b, In b (bins ellBinEdges) -> (0 <= b.1 < b.2)%Z) ->
  gCl_func (theory self) (cat2 a a) = Ok f ->
  Nls self !! cat2 a a = Some N ->
  (forall b l, In b (bins ellBinEdges) -> In l (np.arange_incl b.1 b.2) ->
               N (NInt l) = Ok (nz l) /\ 0 <= nz l /\ 0 <= f (NInt l)) ->
  exists signoise errs,
    sn self ellBinEdges fsky (cat2 a a) = Ok (signoise, errs) /\
    length errs = length (bins ellBinEdges) /\
    0 <= signoise <= sqrt (cosmic_variance_limit ellBinEdges fsky) /\
    ((forall b l, In b (bins ellBinEdges) -> In l (np.arange_incl b.1 b.2) ->
                  nz l = 0 /\ 0 < f (NInt l)) ->
     signoise = sqrt (cosmic_variance_limit ellBinEdges fsky)).
Proof.
  intros Hf Hb Hg HN Hl.
  set (P := fun (b : BinNums.Z * BinNums.Z) (r : R * R * R) =>
              r.1.2 = r.2 /\ 0 <= r.1.1 /\ 0 <= r.1.2 <= bin_modes fsky b / 2 /\
              ((forall l, In l (np.arange_incl b.1 b.2) -> nz l = 0 /\ 0 < f (NInt l)) ->
               r.1.2 = bin_modes fsky b / 2)).
  destruct (forM_exists (KnoxCov_bin self (cat2 a a) (cat2 a a) a a a a fsky) P
              (bins ellBinEdges)) as (rows & Hrows & HP).
  { intros b Hin.
    destruct (bin_auto self a b.1 b.2 f N nz Hg HN (Hb b Hin)
                (fun l Hl' => Hl b l Hin Hl')) as (S & T & HS & HT & HST & Heq & Hpos).
    destruct (KnoxCov_bin_auto self a fsky b S T Hf (Hb b Hin) HS HT HST)
      as (var & sig & Hk & Hv & Hsig & Hlim).
    exists (var, sig, sig). split; [exact Hk|]. unfold P. cbn [fst snd].
    split; [reflexivity|]. split; [exact Hv|]. split; [exact Hsig|].
    intros Hz. apply Hlim.
    - apply Heq. intros l Hl'. apply Hz, Hl'.
    - apply Hpos. intros l Hl'. apply Hz, Hl'. }
  assert (Hsum : 0 <= np.sum (map (fun r : R * R * R => r.1.2) rows)
                 <= cosmic_variance_limit ellBinEdges fsky).
  { unfold cosmic_variance_limit. clear -HP.
    revert HP. generalize (bins ellBinEdges) as bs. intros bs HP.
    induction HP as [|b r bs rs (_ & _ & Hr & _) _ IH]; cbn; [lra|].
    unfold np.sum in *. lra. }
  assert (Herrs : forM fsqrt (map (fun r : R * R * R => r.1.1) rows)
                  = Ok (map sqrt (map (fun r : R * R * R => r.1.1) rows))).
  { apply forM_pure. intros v Hv. apply in_map_iff in Hv. destruct Hv as (r & <- & Hr).
    unfold fsqrt. destruct (Rlt_dec r.1.1 0) as [Hneg|]; [|reflexivity].
    exfalso. clear -HP Hr Hneg.
    revert HP. generalize (bins ellBinEdges) as bs. intros bs HP.
    induction HP as [|b r' bs rs (_ & Hv & _) _ IH]; [destruct Hr|].
    destruct Hr as [-> | Hr]; [lra | auto]. }
  exists (sqrt (np.sum (map (fun r : R * R * R => r.1.2) rows))),
         (map sqrt (map (fun r : R * R * R => r.1.1) rows)).
  split; [|split; [|split]].
  - unfold sn, KnoxCov. cbn [unpack2 cat2 mbind result_bind fst snd].
    change (String a (String a "")) with (cat2 a a).
    rewrite Hrows. cbn [mbind result_bind fst snd].
    assert (Hs : fsqrt (np.sum (map (fun r : R * R * R => r.1.2) rows))
                 = Ok (sqrt (np.sum (map (fun r : R * R * R => r.1.2) rows)))).
    { unfold fsqrt. destruct (Rlt_dec (np.sum (map (fun r : R * R * R => r.1.2) rows)) 0);
        [lra | reflexivity]. }
    rewrite Hs. cbn [mbind result_bind]. rewrite Herrs. reflexivity.
  - rewrite !length_map. symmetry. eapply Forall2_length, HP.
  - split; [apply sqrt_pos | apply sqrt_le_1_alt; lra].
  - intros Hz. f_equal. unfold cosmic_variance_limit. clear -HP Hz.
    revert Hz HP. generalize (bins ellBinEdges) as bs. intros bs Hz HP.
    induction HP as [|b r bs rs (_ & _ & _ & Hr) _ IH]; [reflexivity|].
    cbn [map]. unfold np.sum in *. cbn [fold_right].
    rewrite Hr by (intros l Hin; apply (Hz b l); [now left | exact Hin]).
    f_equal. apply IH. intros b' l Hb' Hl'. apply (Hz b' l); [now right | exact Hl'].
Qed.

End SignalToNoise.

(** ** Constant noise in a bin: [loadGG], [loadSS] *)

Section ShotNoise.
Import Theory Forecast Spec.

Lemma sum_weighted_shift (ells : list BinNums.Z) (s : BinNums.Z -> R) (c : R) :
  np.sum (map (fun l => IZR l * (s l + c)) ells)
  = np.sum (map (fun l => IZR l * (s l + 0)) ells) + c * np.sum (map IZR ells).
Proof.
  unfold np.sum. induction ells as [|l ells IH]; cbn [map fold_right]; [ring|].
  rewrite IH. ring.
Qed.

(** The bin average of an auto spectrum whose noise curve is the
    constant [c]. *)
Lemma bin_cls_constant_noise (self : LensForecast) (a : ascii) (lo hi : BinNums.Z)
    (f : num -> R) (N : num -> result R) (c : R) :
  gCl_func (theory self) (cat2 a a) = Ok f ->
  Nls self !! cat2 a a = Some N -> (forall x, N x = Ok c) ->
  (0 <= lo < hi)%Z ->
  exists S,
    _bin_cls self (cat2 a a) lo hi false = Ok S /\
    _bin_cls self (cat2 a a) lo hi true = Ok (S + c).
Proof.
  intros Hf HN Hc Hb.
  pose proof (arange_sum_pos lo hi Hb) as HD.
  rewrite !(bin_cls_unfold self _ lo hi _ f Hf).
  unfold bin_noise. cbn [unpack2 cat2 mbind result_bind fst snd andb].
  rewrite Ascii.eqb_refl. unfold getitem.
  change (String a (String a "")) with (cat2 a a). rewrite HN.
  cbn [mbind result_bind].
  rewrite (forM_pure (fun l => N (NInt l)) (fun _ => c)) by (intros; apply Hc).
  cbn [mbind result_bind].
  rewrite (weighted_as_map _ (fun l => f (NInt l)) (fun _ => c)).
  rewrite (weighted_as_map _ (fun l => f (NInt l)) (fun _ => 0)).
  rewrite !fdiv_ok by lra.
  eexists. split; [reflexivity|]. f_equal.
  rewrite (sum_weighted_shift _ (fun l => f (NInt l)) c). field. lra.
Qed.

(** X26.  The shot noise of the galaxies and the shape noise of the sources
    add to the band power: over a bin [0 <= left < right] the total of
    ['gg'] is its signal plus [1 / (ngal * 1.18e7)], and the total of
    ['ss'] is its signal plus [shapeNoise^2 / (2 * ngal * 1.18e7)], the
    shape noise being [0.3] when none, or one below [1e-9], is given. *)
Theorem shot_noise_adds_to_bandpower (self : LensForecast) (ellsCls Cls : list R)
    (ngal : R) (shapeNoise : option R) (lo hi : BinNums.Z) :
  length ellsCls = length Cls -> (2 <= length (below ellsCls 9000 ellsCls))%nat ->
  ngal <> 0 -> (0 <= lo < hi)%Z ->
  let sigma := match shapeNoise with
               | Some s => if Rltb s 1e-9 then 0.3 else s
               | None => 0.3
               end in
  (exists self' S,
     loadGG self ellsCls Cls ngal = Ok self' /\
     _bin_cls self' "gg" lo hi false = Ok S /\
     _bin_cls self' "gg" lo hi true = Ok (S + 1 / (ngal * 1.18e7))) /\
  (exists self' S,
     loadSS self ellsCls Cls ngal shapeNoise = Ok self' /\
     _bin_cls self' "ss" lo hi false = Ok S /\
     _bin_cls self' "ss" lo hi true = Ok (S + sigma * sigma / (2 * ngal * 1.18e7))).
Proof.
  intros _ _ Hn Hb sigma.
  assert (Hd : ngal * 1.18e7 <> 0) by (apply Rmult_integral_contrapositive; split; lra).
  assert (Hd2 : 2 * ngal * 1.18e7 <> 0) by lra.
  split.
  - unfold loadGG, Theory.loadGenericCls, edge_interp. cbn [negb mbind result_bind].
    eexists.
    match goal with |- exists S, Ok ?s = _ /\ _ => set (self' := s) end.
    destruct (bin_cls_constant_noise self' "g" lo hi
                (fun x => np.interp1d (below ellsCls 9000 ellsCls) (below ellsCls 9000 Cls) 0
                            (num_val x))
                (fun _ => fdiv 1 (ngal * 1.18e7)) (1 / (ngal * 1.18e7)))
      as (S & HS & HT).
    + unfold gCl_func, getitem. cbn. now rewrite lookup_insert_eq.
    + cbn. now rewrite lookup_insert_eq.
    + intros x. now apply fdiv_ok.
    + exact Hb.
    + exists S. split; [reflexivity|]. split; [exact HS | exact HT].
  - unfold loadSS, Theory.loadGenericCls, edge_interp. cbn [negb mbind result_bind].
    eexists.
    match goal with |- exists S, Ok ?s = _ /\ _ => set (self' := s) end.
    destruct (bin_cls_constant_noise self' "s" lo hi
                (fun x => np.interp1d (below ellsCls 9000 ellsCls) (below ellsCls 9000 Cls) 0
                            (num_val x))
                (fun x => n ← fdiv (sigma * sigma) (2 * ngal * 1.18e7);
                          Ok (num_val x * 0 + n))
                (sigma * sigma / (2 * ngal * 1.18e7)))
      as (S & HS & HT).
    + unfold gCl_func, getitem. cbn. now rewrite lookup_insert_eq.
    + subst self'. unfold with_spec. cbn [Nls]. now rewrite lookup_insert_eq.
    + intros x. rewrite fdiv_ok by exact Hd2. cbn [mbind result_bind]. f_equal. ring.
    + exact Hb.
    + exists S. split; [reflexivity|]. split; [exact HS | exact HT].
Qed.

End ShotNoise.

(** ** Bounds on the noise curves *)

Section NoiseBounds.
Import Noise Spec.

Lemma white_noise_eval (ell uk_arcmin lknee alpha : R) (dimensionless : bool) (TCMB : R) :
  0 < ell -> (dimensionless = true -> TCMB <> 0) ->
  white_noise_with_atm_func ell uk_arcmin lknee alpha dimensionless TCMB
  = Ok ((atmosphere_factor ell lknee alpha + 1) * (uk_arcmin * PI / (180 * 60)) ^ 2
        * (if dimensionless then 1 / TCMB ^ 2 else 1)).
Proof.
  intros Hell HT. unfold white_noise_with_atm_func.
  rewrite (atm_factor_eval _ _ _ Hell). cbn [mbind result_bind].
  destruct dimensionless.
  - rewrite fdiv_ok by (apply pow_nonzero; now apply HT). cbn [mbind result_bind].
    f_equal. ring.
  - cbn [mbind result_bind]. f_equal. ring.
Qed.

Lemma atmosphere_factor_nonneg (ell lknee alpha : R) :
  0 <= atmosphere_factor ell lknee alpha.
Proof.
  unfold atmosphere_factor. destruct (Rlt_dec 1e-3 lknee); [|lra].
  unfold Rpower. left. apply exp_pos.
Qed.

(** X27.  The noise curves are bounded below: the white noise with atmosphere
    is at least the white level, the beam-deconvolved noise is at least
    the noise before deconvolution, with equality for a zero beam; and
    the dimensionless curve is the dimensionful one divided by
    [TCMB^2]. *)
Theorem noise_floor_and_beam (ell fwhm rms_noise lknee alpha TCMB : R)
    (dimensionless : bool) :
  0 < ell -> TCMB <> 0 ->
  let white := (rms_noise * PI / (180 * 60)) ^ 2 in
  let dfact := if dimensionless then 1 / TCMB ^ 2 else 1 in
  exists w n,
    white_noise_with_atm_func ell rms_noise lknee alpha dimensionless TCMB = Ok w /\
    noise_func ell fwhm rms_noise lknee alpha dimensionless TCMB = Ok n /\
    white * dfact <= w /\ w <= n /\
    (lknee <= 1e-3 -> w = white * dfact) /\
    (fwhm = 0 -> n = w) /\
    noise_func ell fwhm rms_noise lknee alpha false TCMB
    = Ok (n * (if dimensionless then TCMB ^ 2 else 1)).
Proof.
  intros Hell HT white dfact.
  rewrite (white_noise_eval ell rms_noise lknee alpha dimensionless TCMB Hell (fun _ => HT)).
  rewrite (noise_func_eval ell fwhm rms_noise lknee alpha dimensionless TCMB Hell
             (fun _ => HT)).
  rewrite (noise_func_eval ell fwhm rms_noise lknee alpha false TCMB Hell)
    by (intros; discriminate).
  fold white dfact.
  set (a := atmosphere_factor ell lknee alpha).
  set (beam := exp ((fwhm / 60 * (PI / 180)) ^ 2 * ell ^ 2 / (8 * ln 2))).
  pose proof (atmosphere_factor_nonneg ell lknee alpha) as Ha. fold a in Ha.
  assert (Hw : 0 <= white) by (apply pow2_ge_0).
  assert (HT2 : 0 < TCMB ^ 2) by (rewrite <- Rsqr_pow2; apply Rlt_0_sqr; exact HT).
  assert (Hd : 0 < dfact).
  { unfold dfact. destruct dimensionless; [|lra].
    apply Rdiv_lt_0_compat; lra. }
  assert (Hln : 0 < ln 2) by (rewrite <- ln_1; apply ln_increasing; lra).
  assert (Hb : 1 <= beam).
  { unfold beam. rewrite <- exp_0.
    assert (Harg : 0 <= (fwhm / 60 * (PI / 180)) ^ 2 * ell ^ 2 / (8 * ln 2)).
    { apply Rmult_le_pos; [apply Rmult_le_pos; apply pow2_ge_0|].
      left. apply Rinv_0_lt_compat. lra. }
    destruct Harg as [Hlt | <-]; [left; now apply exp_increasing | right; reflexivity]. }
  assert (Hwd : 0 <= white * dfact) by (apply Rmult_le_pos; lra).
  eexists _, _. split; [reflexivity|]. split; [reflexivity|].
  split; [|split; [|split; [|split]]].
  - nra.
  - assert (0 <= (a + 1) * white * dfact) by nra. nra.
  - intros Hk. unfold a, atmosphere_factor.
    destruct (Rlt_dec 1e-3 lknee); [lra | ring].
  - intros ->. unfold beam.
    replace ((0 / 60 * (PI / 180)) ^ 2 * ell ^ 2 / (8 * ln 2)) with 0
      by (unfold Rdiv; ring).
    rewrite exp_0. ring.
  - f_equal. unfold dfact. destruct dimensionless; [|ring]. fold beam. field. exact HT.
Qed.

(** X28.  With a knee above the threshold the exponent [alpha = 0] does not
    switch the atmosphere off: the factor [(lknee/ell)^(-0)] is [1] and
    the noise is twice the noise without a knee. *)
Theorem noise_alpha_zero_doubles (ell fwhm rms_noise lknee TCMB : R) (dimensionless : bool) :
  0 < ell -> TCMB <> 0 -> lknee > 1e-3 ->
  exists n0,
    noise_func ell fwhm rms_noise 0 0 dimensionless TCMB = Ok n0 /\
    noise_func ell fwhm rms_noise lknee 0 dimensionless TCMB = Ok (2 * n0).
Proof.
  intros Hell HT Hk.
  rewrite !(noise_func_eval ell fwhm rms_noise _ 0 dimensionless TCMB Hell (fun _ => HT)).
  eexists. split; [reflexivity|]. f_equal.
  unfold atmosphere_factor.
  destruct (Rlt_dec 1e-3 0); [lra|]. destruct (Rlt_dec 1e-3 lknee); [|lra].
  unfold Rpower. rewrite Ropp_0, Rmult_0_l, exp_0. ring.
Qed.

End NoiseBounds.

(** * Worked examples *)

(** Decide the comparisons of concrete reals met while evaluating. *)
Ltac Rdec :=
  repeat match goal with
    | |- context [Rlt_dec ?a ?b] => destruct (Rlt_dec a b); try (exfalso; lra)
    | |- context [Rle_dec ?a ?b] => destruct (Rle_dec a b); try (exfalso; lra)
    end.

Section LimberExamples.
Import Limber Spec Examples.



Lemma toy0_ready : aligned toy0 /\ windows_ready toy0 /\ power_ready toy0.
Proof.
  exact (conj (init_aligned toy_cosmo 4 1000 false None)
           (conj (init_windows_ready toy_cosmo 4 1000 false None)
              (init_power_ready toy_cosmo 4 1000 false None))).
Qed.

Lemma toy1_ready :
  aligned toy1 /\ windows_ready toy1 /\ power_ready toy1 /\
  provider toy1 = Some (fun _ _ => 1).
Proof.
  destruct toy0_ready as (Ha & Hw & Hp).
  assert (H1 : "p"%string <> "cmb"%string) by discriminate.
  assert (H2 : false = true \/ odict.mem "p" (kernels toy0) = false)
    by (right; reflexivity).
  destruct (addDeltaNz_ready toy0 "p" 4 false H1 H2 Ha Hw Hp) as (Ha' & Hw' & Hp' & Hpr & _).
  split; [exact Ha'|]. split; [exact Hw'|]. split; [exact Hp'|].
  etransitivity; [exact Hpr | reflexivity].
Qed.

Lemma tagged3_ready :
  aligned tagged3 /\ windows_ready tagged3 /\ power_ready tagged3 /\
  provider tagged3 = Some (fun _ _ => 1).
Proof.
  destruct toy1_ready as (Ha & Hw & Hp & Hpr).
  assert (H1 : "p,q"%string <> "cmb"%string) by discriminate.
  assert (H2 : false = true \/ odict.mem "p,q" (kernels toy1) = false)
    by (right; reflexivity).
  destruct (addDeltaNz_ready toy1 "p,q" 4 false H1 H2 Ha Hw Hp)
    as (Ha2 & Hw2 & Hp2 & Hpr2 & _).
  assert (H3 : "q,p"%string <> "cmb"%string) by discriminate.
  assert (H4 : false = true \/ odict.mem "q,p" (kernels tagged2) = false)
    by (right; reflexivity).
  destruct (addDeltaNz_ready tagged2 "q,p" 8 false H3 H4 Ha2 Hw2 Hp2)
    as (Ha3 & Hw3 & Hp3 & Hpr3 & _).
  split; [exact Ha3|]. split; [exact Hw3|]. split; [exact Hp3|].
  reflexivity.
Qed.

Lemma tagged3_keys : odict.keys (kernels tagged3) = ["cmb"; "p"; "p,q"; "q,p"]%string.
Proof. reflexivity. Qed.

Lemma tagged3_grid :
  chis tagged3 = [1; 2] /\ zs tagged3 = [1; 2] /\ dchis tagged3 = [1; 1] /\
  Hzs tagged3 = [1; 1] /\ kmax tagged3 = 1000.
Proof.
  cbn. repeat split; repeat f_equal; lra.
Qed.

Lemma tagged3_windows :
  window tagged3 "p" = [22500 / _cSpeedKmPerSec; 45000 / _cSpeedKmPerSec] /\
  window tagged3 "p,q" = [22500 / _cSpeedKmPerSec; 45000 / _cSpeedKmPerSec] /\
  window tagged3 "q,p" = [26250 / _cSpeedKmPerSec; 67500 / _cSpeedKmPerSec].
Proof.
  cbn. unfold Rgtb, Rltb. Rdec.
  unfold _cSpeedKmPerSec. repeat split; repeat f_equal; lra.
Qed.

Lemma tagged3_limber (W1 W2 : list R) :
  limber_sum tagged3 (fun _ _ => 1) 0 1 W1 W2
  = 1 * (1 * (1 ^ 2 / 1 ^ 2 / _cSpeedKmPerSec ^ 2) * nth 0 W1 0 * nth 0 W2 0)
    + (1 * (1 * (1 ^ 2 / 2 ^ 2 / _cSpeedKmPerSec ^ 2) * nth 1 W1 0 * nth 1 W2 0) + 0).
Proof.
  destruct tagged3_grid as (Hc & Hz & Hd & HH & Hk).
  unfold limber_sum, limber_term, survives. rewrite Hc, Hz, Hd, HH, Hk.
  cbn [length seq List.filter nth].
  unfold Rgeb, Rleb, Rltb. Rdec. reflexivity.
Qed.

Lemma flat_map_single {A B C : Type} (g : A -> B -> C) (p : B) (x : A) :
  flat_map (fun ell => map (g ell) [p]) [x] = [g x p].
Proof. reflexivity. Qed.

Lemma tagged_cls_lookup :
  exists m,
    Clmatrix (generateCls [1] false 0 tagged3).2 = Some m /\
    m !! "p,p,q"%string
    = Some [limber_sum tagged3 (fun _ _ => 1) 0 1 (window tagged3 "p") (window tagged3 "p,q")] /\
    m !! "p,q,p"%string
    = Some [limber_sum tagged3 (fun _ _ => 1) 0 1 (window tagged3 "p") (window tagged3 "q,p")].
Proof.
  destruct tagged3_ready as (Ha & Hw & Hp & Hpr).
  destruct (Clmatrix_lookup tagged3 [1] false 0 (fun _ _ => 1) "p,p,q" Ha Hw Hp Hpr)
    as (m & Hm & H1).
  destruct (Clmatrix_lookup tagged3 [1] false 0 (fun _ _ => 1) "p,q,p" Ha Hw Hp Hpr)
    as (m' & Hm' & H2).
  assert (m' = m) by congruence. subst m'.
  assert (K1 : existsb (fun p => String.eqb (pairkey p) "p,p,q") (listKeys false tagged3)
               = true) by reflexivity.
  assert (K2 : existsb (fun p => String.eqb (pairkey p) "p,q,p") (listKeys false tagged3)
               = true) by reflexivity.
  assert (F1 : same_key "p,p,q" (listKeys false tagged3) = [("p", "p,q")]%string)
    by reflexivity.
  assert (F2 : same_key "p,q,p" (listKeys false tagged3) = [("p", "q,p")]%string)
    by reflexivity.
  rewrite K1, F1 in H1. rewrite K2, F2 in H2.
  rewrite (flat_map_single
             (fun ell p => limber_sum tagged3 (fun _ _ => 1) 0 ell
                             (window tagged3 p.1) (window tagged3 p.2))) in H1, H2.
  exists m. split; [exact Hm|]. split; [exact H1 | exact H2].
Qed.

Lemma tagged_cls_values :
  getCl tagged_cls "p" "p,q"
  = Ok [1012500000 * / _cSpeedKmPerSec ^ 4] /\
  getCl tagged_cls "p,q" "p"
  = Ok [1350000000 * / _cSpeedKmPerSec ^ 4].
Proof.
  destruct tagged_cls_lookup as (m & Hm & H1 & H2).
  destruct tagged3_windows as (Wp & Wpq & Wqp).
  assert (Hc : _cSpeedKmPerSec <> 0) by (unfold _cSpeedKmPerSec; lra).
  unfold tagged_cls, getCl. rewrite Hm.
  change (pairkey ("p"%string, "p,q"%string)) with "p,p,q"%string.
  change (pairkey ("p,q"%string, "p"%string)) with "p,q,p"%string.
  rewrite H1, H2, !tagged3_limber, Wp, Wpq, Wqp. cbn [nth].
  split; do 2 f_equal; field; exact Hc.
Qed.

(** With the tags ["p"], ["p,q"] and ["q,p"] two pairs share the key
    ["p,q,p"]: [getCl("p", "p,q")] finds the spectrum of [("p", "p,q")]
    under ["p,p,q"], while [getCl("p,q", "p")] finds under ["p,q,p"] the
    spectrum of [("p", "q,p")]. *)
Lemma getCl_collision : getCl tagged_cls "p" "p,q" <> getCl tagged_cls "p,q" "p".
Proof.
  destruct tagged_cls_values as [-> ->].
  intros E.
  assert (E' : 1012500000 * / _cSpeedKmPerSec ^ 4 = 1350000000 * / _cSpeedKmPerSec ^ 4)
    by congruence.
  apply Rmult_eq_reg_r in E'; [lra|].
  apply Rinv_neq_0_compat, pow_nonzero. unfold _cSpeedKmPerSec. lra.
Qed.
Lemma toy1_keys : odict.keys (kernels toy1) = ["cmb"; "p"]%string.
Proof. reflexivity. Qed.

(** The grid of the worked example: [numz - 2 = 2] samples, weights
    summing to the target distance less one step. *)
Lemma RedshiftGrid_weights_witness :
  length (chis toy0) = 2%nat /\ np.sum (dchis toy0) = 3 - 0 - (3 - 0) / INR (4 - 1).
Proof.
  assert (H1 : (4 <= 4)%nat) by lia.
  assert (H2 : 0 < conformal_time (results toy_cosmo) 0 - tau_maxvis (results toy_cosmo))
    by (cbn; lra).
  destruct (RedshiftGrid_weights toy_cosmo 4 1000 false None H1 H2)
    as (L & _ & _ & _ & S & _).
  split; [exact L | exact S].
Defined.

(** [addDeltaNz("p", 4)] on the worked grid registers a delta kernel
    whose window has one value per grid point. *)
Lemma delta_window_closed_form_witness :
  exists self' k retvals,
    addDeltaNz "p" 4 None None false toy0 = (Ok tt, self') /\
    odict.get "p" (kernels self') = Some k /\
    _lensWindow self' k None = Ok retvals /\
    length retvals = length (chis toy0).
Proof.
  assert (H0 : length (zs toy0) = length (chis toy0)) by reflexivity.
  assert (H1 : "p"%string <> "cmb"%string) by discriminate.
  assert (H2 : false = true \/ odict.mem "p" (kernels toy0) = false)
    by (right; reflexivity).
  destruct (delta_window_closed_form toy0 "p" 4 false H0 H1 H2)
    as (self' & k & retvals & R1 & R2 & _ & R4 & _ & _ & _ & R8 & _).
  exists self', k, retvals.
  exact (conj R1 (conj R2 (conj R4 R8))).
Defined.

(** [generateCls([1])] on the worked example stores under ["cmb,p"] the
    Limber sum of the two windows. *)
Lemma generateCls_limber_witness :
  exists self' m,
    generateCls [1] false 0 toy1 = (Ok tt, self') /\
    Clmatrix self' = Some m /\
    m !! "cmb,p"%string
    = Some [limber_sum toy1 (fun _ _ => 1) 0 1 (window toy1 "cmb") (window toy1 "p")].
Proof.
  destruct toy1_ready as (Ha & Hw & Hp & Hpr).
  destruct (generateCls_limber toy1 [1] false 0 (fun _ _ => 1) Ha Hw Hp Hpr)
    as (self' & m & R1 & R2 & _ & _ & R5).
  exists self', m. split; [exact R1|]. split; [exact R2|].
  assert (Hin : In ("cmb"%string, "p"%string) (listKeys false toy1)).
  { unfold listKeys. rewrite toy1_keys. cbn. tauto. }
  assert (Hsame : same_key (pairkey ("cmb"%string, "p"%string)) (listKeys false toy1)
                  = [("cmb"%string, "p"%string)]).
  { unfold listKeys, same_key. rewrite toy1_keys. reflexivity. }
  exact (proj2 (R5 "cmb"%string "p"%string Hin) Hsame).
Defined.

Lemma toy1_tags : NoDup (odict.keys (kernels toy1)) /\ comma_free toy1.
Proof.
  split.
  - rewrite toy1_keys. apply NoDup_cons. split; [|apply NoDup_singleton].
    intros H. apply list_elem_of_In in H. cbn in H. destruct H as [H|[]]. discriminate.
  - intros tag. rewrite toy1_keys. cbn. intros [<-|[<-|[]]]; reflexivity.
Qed.

(** On the worked example the two orders of ["cmb"] and ["p"] give the
    same outcome. *)
Lemma getCl_symmetric_witness :
  getCl (generateCls [1] false 0 toy1).2 "cmb" "p"
  = getCl (generateCls [1] false 0 toy1).2 "p" "cmb" /\
  getCl (generateCls [1] false 0 toy1).2 "cmb" "p"
  = Ok (map (fun ell => limber_sum toy1 (fun _ _ => 1) 0 ell
                          (window toy1 "cmb") (window toy1 "p")) [1]).
Proof.
  destruct toy1_ready as (Ha & Hw & Hp & Hpr).
  destruct toy1_tags as [Hnd Hcf].
  assert (Hz : zs toy1 <> []).
  { intros E. assert (L : length (zs toy1) = 0%nat) by now rewrite E. discriminate L. }
  assert (H1 : In "cmb"%string (odict.keys (kernels toy1)))
    by (rewrite toy1_keys; cbn; tauto).
  assert (H2 : In "p"%string (odict.keys (kernels toy1)))
    by (rewrite toy1_keys; cbn; tauto).
  destruct (getCl_symmetric toy1 [1] false 0 (fun _ _ => 1) "cmb" "p"
              Ha Hw Hp Hz Hpr Hnd Hcf H1 H2) as (R1 & _ & R3 & _).
  exact (conj R1 (R3 (or_introl eq_refl))).
Defined.

(** With [autoOnly] only the auto spectra are stored: both tags of the
    worked example are registered and [generateCls] has run, yet
    [getCl] returns no array for the pair, in either order. *)
Lemma getCl_autoOnly_cross_not_found :
  In "cmb"%string (odict.keys (kernels toy1)) /\
  In "p"%string (odict.keys (kernels toy1)) /\
  getCl (generateCls [1] true 0 toy1).2 "cmb" "p" = Raise KeyError /\
  getCl (generateCls [1] true 0 toy1).2 "p" "cmb" = Raise KeyError.
Proof.
  destruct toy1_ready as (Ha & Hw & Hp & Hpr).
  destruct toy1_tags as [Hnd Hcf].
  assert (H1 : In "cmb"%string (odict.keys (kernels toy1)))
    by (rewrite toy1_keys; cbn; tauto).
  assert (H2 : In "p"%string (odict.keys (kernels toy1)))
    by (rewrite toy1_keys; cbn; tauto).
  split; [exact H1|]. split; [exact H2|].
  destruct (Clmatrix_lookup_pair toy1 [1] true 0 (fun _ _ => 1) "cmb" "p"
              Ha Hw Hp Hpr Hnd Hcf (Hcf _ H1)) as (m & Hm & _ & Hab).
  destruct (Clmatrix_lookup_pair toy1 [1] true 0 (fun _ _ => 1) "p" "cmb"
              Ha Hw Hp Hpr Hnd Hcf (Hcf _ H2)) as (m' & Hm' & _ & Hba).
  assert (m' = m) by congruence. subst m'.
  assert (Iab : ~ In ("cmb"%string, "p"%string) (listKeys true toy1)).
  { unfold listKeys. rewrite toy1_keys. cbn. intros [E | [E | []]]; discriminate E. }
  assert (Iba : ~ In ("p"%string, "cmb"%string) (listKeys true toy1)).
  { unfold listKeys. rewrite toy1_keys. cbn. intros [E | [E | []]]; discriminate E. }
  unfold getCl, getitem. rewrite Hm, (Hab Iab), (Hba Iba). split; reflexivity.
Qed.

End LimberExamples.

Section ForecastExamples.
Import Theory Forecast Spec Examples.


Lemma flat_spectrum_val (c : R) (x : num) :
  2 <= num_val x <= 1000 -> flat_spectrum c x = c.
Proof.
  intros [H1 H2]. unfold flat_spectrum, below, np.interp1d.
  cbn [map np.mask_select]. unfold Rltb. Rdec.
  cbn [np.interp_segment]. unfold Rleb. Rdec. cbn. field.
Qed.

Lemma zero_noise_val (x : num) :
  2 <= num_val x <= 1000 -> zero_noise x = Ok 0.
Proof.
  intros [H1 H2]. unfold zero_noise, np.interp1d_inf.
  cbn [np.interp_segment]. unfold Rleb. Rdec. cbn. f_equal. field.
Qed.

Lemma flat_load_tables (spec : string) (c : R) (noise : bool) (self : LensForecast) :
  _gCl (theory (flat_load spec c noise self))
  = <[spec := flat_spectrum c]> (_gCl (theory self)) /\
  Nls (flat_load spec c noise self)
  = if noise then <[spec := zero_noise]> (Nls self) else Nls self.
Proof.
  unfold flat_load, Forecast.loadGenericCls, Theory.loadGenericCls, edge_interp.
  destruct noise; split; reflexivity.
Qed.


(** The tables of a forecast loaded with six flat spectra. *)
Lemma six_flat_tables (ckk : R) :
  let self :=
    flat_load "sg" 1 false
      (flat_load "ks" 1 false
         (flat_load "kg" 1 false
            (flat_load "ss" 1 true
               (flat_load "gg" 1 true
                  (flat_load "kk" ckk true (Forecast.__init__ None)))))) in
  (forall x, 2 <= num_val x <= 1000 ->
     gCl (theory self) "kk" x = Ok ckk /\
     gCl (theory self) "gg" x = Ok 1 /\ gCl (theory self) "ss" x = Ok 1 /\
     gCl (theory self) "kg" x = Ok 1 /\ gCl (theory self) "ks" x = Ok 1 /\
     gCl (theory self) "sg" x = Ok 1) /\
  gCl_func (theory self) "kk" = Ok (flat_spectrum ckk) /\
  Nls self !! "kk"%string = Some zero_noise /\
  Nls self !! "gg"%string = Some zero_noise /\
  Nls self !! "ss"%string = Some zero_noise.
Proof.
  cbv zeta.
  assert (HG : forall key : string,
             _gCl (theory
                     (flat_load "sg" 1 false
                        (flat_load "ks" 1 false
                           (flat_load "kg" 1 false
                              (flat_load "ss" 1 true
                                 (flat_load "gg" 1 true
                                    (flat_load "kk" ckk true (Forecast.__init__ None)))))))) !! key
             = (<["sg"%string := flat_spectrum 1]>
                  (<["ks"%string := flat_spectrum 1]>
                     (<["kg"%string := flat_spectrum 1]>
                        (<["ss"%string := flat_spectrum 1]>
                           (<["gg"%string := flat_spectrum 1]>
                              (<["kk"%string := flat_spectrum ckk]>
                                 (∅ : gmap string (num -> R)))))))) !! key).
  { intros key. repeat rewrite (proj1 (flat_load_tables _ _ _ _)). reflexivity. }
  assert (HN : Nls (flat_load "sg" 1 false
                      (flat_load "ks" 1 false
                         (flat_load "kg" 1 false
                            (flat_load "ss" 1 true
                               (flat_load "gg" 1 true
                                  (flat_load "kk" ckk true (Forecast.__init__ None)))))))
               = <["ss"%string := zero_noise]>
                   (<["gg"%string := zero_noise]>
                      (<["kk"%string := zero_noise]> (∅ : gmap string (num -> result R))))).
  { repeat (rewrite (proj2 (flat_load_tables _ _ _ _)); cbv iota). reflexivity. }
  split; [|split].
  - intros x Hx. unfold gCl, gCl_func, getitem. cbn [String.length Nat.eqb].
    rewrite (HG "kk"%string), (HG "gg"%string), (HG "ss"%string), (HG "kg"%string),
      (HG "ks"%string), (HG "sg"%string).
    repeat (rewrite lookup_insert_eq || rewrite lookup_insert_ne by discriminate).
    cbn [mbind result_bind]. rewrite !flat_spectrum_val by assumption. auto 10.
  - unfold gCl_func. cbn [String.length Nat.eqb]. rewrite HG.
    repeat (rewrite lookup_insert_eq || rewrite lookup_insert_ne by discriminate).
    reflexivity.
  - rewrite HN.
    repeat split;
      repeat (rewrite lookup_insert_eq || rewrite lookup_insert_ne by discriminate);
      reflexivity.
Qed.


Lemma six_flat_bin_values (ckk mid : R) :
  2 <= mid <= 1000 ->
  bin_values
    (flat_load "sg" 1 false
       (flat_load "ks" 1 false
          (flat_load "kg" 1 false
             (flat_load "ss" 1 true
                (flat_load "gg" 1 true
                   (flat_load "kk" ckk true (Forecast.__init__ None)))))))
    mid
    {| Ckk := ckk; Nkk := 0; Cgg := 1; Ngg := 0; Css := 1; Nss := 0;
       Ckg := 1; Cks := 1; Csg := 1 |}.
Proof.
  intros Hmid.
  destruct (six_flat_tables ckk) as (HC & _ & Nk & Ng & Ns).
  destruct (HC (NFloat mid) Hmid) as (C1 & C2 & C3 & C4 & C5 & C6).
  unfold bin_values, noise_at. cbn [Ckk Nkk Cgg Ngg Css Nss Ckg Cks Csg].
  repeat split; try assumption;
    (eexists; split; [eassumption | now apply zero_noise_val]).
Qed.

(** A bin whose variance vanishes stops the estimator. *)
Lemma snRatio_bin_degenerate (self : LensForecast) (fsky : R) (acc : sn_acc) (mw : R * R)
    (v : bin_spectra) :
  bin_values self mw.1 v ->
  Csg v <> 0 -> fsky * (2 * mw.1 + 1) * mw.2 <> 0 -> sigmaZsq v fsky mw = 0 ->
  snRatio_bin self fsky acc mw = Raise NonFinite.
Proof.
  intros (Hkk & (N1 & HN1 & Hn1) & (N2 & HN2 & Hn2) & (N3 & HN3 & Hn3)
          & Hkg & Hgg & Hks & Hss & Hsg) Hc Hp Hz.
  unfold snRatio_bin, getitem.
  repeat (first [rewrite Hkk | rewrite HN1 | rewrite Hn1 | rewrite HN2 | rewrite Hn2
                | rewrite HN3 | rewrite Hn3 | rewrite Hkg | rewrite Hgg | rewrite Hks
                | rewrite Hss | rewrite Hsg];
          cbn [mbind result_bind]).
  rewrite (fdiv_ok _ _ Hc). cbn [mbind result_bind].
  rewrite (fdiv_ok _ _ Hp). cbn [mbind result_bind].
  fold (sigmaZsq v fsky mw). rewrite Hz. unfold fdiv.
  destruct (Req_dec_T 0 0); [reflexivity | contradiction].
Qed.

Lemma mids_widths_2_4_6 :
  mids_widths [2; 4; 6]%Z = [((4 + 2) / 2, 2); ((6 + 4) / 2, 2)].
Proof. reflexivity. Qed.

(** Identical flat spectra and no noise: the variance of the first bin
    is zero and [snRatio] has no amplitude to return. *)
Lemma snRatio_flat_no_amplitude : snRatio flat_forecast [2; 4; 6]%Z 1 = Raise NonFinite.
Proof.
  unfold snRatio. rewrite mids_widths_2_4_6. cbn [foldM].
  rewrite (snRatio_bin_degenerate flat_forecast 1 _ _
             {| Ckk := 1; Nkk := 0; Cgg := 1; Ngg := 0; Css := 1; Nss := 0;
                Ckg := 1; Cks := 1; Csg := 1 |}).
  - reflexivity.
  - apply (six_flat_bin_values 1). cbn. lra.
  - cbn. lra.
  - cbn. lra.
  - apply sigmaZsq_flat. lra.
Qed.


Lemma mids_widths_2_4 : mids_widths [2; 4]%Z = [((4 + 2) / 2, 2)].
Proof. reflexivity. Qed.

(** With [C^kk = 2] and the other spectra [1] the variance is positive
    and the amplitude is the common ratio [Clkg / Clsg = 1]. *)
Lemma snRatio_formula_witness :
  exists percentR snR maxlike,
    snRatio kk2_forecast [2; 4]%Z 1 = Ok (percentR, snR, maxlike) /\ maxlike = 1.
Proof.
  set (vals := fun _ : R * R =>
                 {| Ckk := 2; Nkk := 0; Cgg := 1; Ngg := 0; Css := 1; Nss := 0;
                    Ckg := 1; Cks := 1; Csg := 1 |}).
  assert (Hs : sigmaZsq (vals ((4 + 2) / 2, 2)) 1 ((4 + 2) / 2, 2) = / 14).
  { unfold sigmaZsq, sigmaZsq_raw, vals. cbn. field. }
  assert (H1 : forall mw, In mw (mids_widths [2; 4]%Z) ->
                 bin_values kk2_forecast mw.1 (vals mw) /\ Csg (vals mw) <> 0 /\
                 1 * (2 * mw.1 + 1) * mw.2 <> 0 /\ sigmaZsq (vals mw) 1 mw <> 0).
  { rewrite mids_widths_2_4. intros mw [<-|[]]. split; [|split; [|split]].
    - apply (six_flat_bin_values 2). cbn. lra.
    - cbn. lra.
    - cbn. lra.
    - rewrite Hs. lra. }
  assert (H2 : 0 < sum_chisq vals 1 (mids_widths [2; 4]%Z)).
  { rewrite mids_widths_2_4. unfold sum_chisq. cbn [map np.sum fold_right].
    rewrite Hs. cbn. lra. }
  assert (H3 : sum_num vals 1 (mids_widths [2; 4]%Z) <> 0).
  { rewrite mids_widths_2_4. unfold sum_num. cbn [map np.sum fold_right].
    rewrite Hs. cbn. lra. }
  destruct (snRatio_formula kk2_forecast [2; 4]%Z 1 vals H1 H2 H3) as [Hrun Hr].
  eexists _, _, _. split; [exact Hrun|].
  apply Hr. intros mw _. cbn. lra.
Defined.

Lemma flat_bin_cls (noise : bool) :
  _bin_cls flat_forecast "kk" 2 4 noise = Ok 1.
Proof.
  destruct (six_flat_tables 1) as (_ & Hf & Nk & _).
  rewrite (bin_cls_unfold flat_forecast "kk" 2 4 noise (flat_spectrum 1) Hf).
  assert (He : np.arange_incl 2 4 = [2; 3; 4]%Z) by reflexivity.
  rewrite He.
  assert (Hn : bin_noise flat_forecast "kk" noise [2; 3; 4]%Z = Ok [0; 0; 0]).
  { unfold bin_noise, getitem. cbn [unpack2 mbind result_bind fst snd].
    destruct noise; cbn [andb]; [|reflexivity].
    change (Ascii.eqb "k" "k") with true. cbv iota.
    change (Nls flat_forecast !! "kk"%string) with
      (Nls (flat_load "sg" 1 false
              (flat_load "ks" 1 false
                 (flat_load "kg" 1 false
                    (flat_load "ss" 1 true
                       (flat_load "gg" 1 true
                          (flat_load "kk" 1 true (Forecast.__init__ None)))))))
         !! "kk"%string).
    rewrite Nk. cbn [mbind result_bind forM].
    rewrite !zero_noise_val by (cbn; lra). reflexivity. }
  rewrite Hn. cbn [mbind result_bind map zip_with np.sum fold_right].
  rewrite !flat_spectrum_val by (cbn; lra).
  rewrite fdiv_ok by lra. f_equal. field.
Qed.

(** The Knox variance of the bin [[2, 4]] for flat unit spectra. *)
Lemma KnoxCov_formula_witness :
  exists covs sigs1 sigs2,
    KnoxCov flat_forecast "kk" "kk" [2; 4]%Z 1 = Ok (covs, sigs1, sigs2) /\
    covs = [2 * 1 ^ 2 / ((2 * ((IZR 4 + IZR 2) / 2) + 1) * (IZR 4 - IZR 2) * 1)].
Proof.
  assert (H0 : 0 < 1) by lra.
  assert (Hb : forall b, In b (bins [2; 4]%Z) -> (0 <= b.1 < b.2)%Z).
  { intros b [<-|[]]. cbn. lia. }
  assert (Ht : forall b spec, In b (bins [2; 4]%Z) ->
                 In spec [cat2 "k" "k"; cat2 "k" "k"; cat2 "k" "k"; cat2 "k" "k"] ->
                 _bin_cls flat_forecast spec b.1 b.2 true = Ok ((fun _ _ => 1) spec b)).
  { intros b spec [<-|[]] Hs. cbn in Hs.
    destruct Hs as [<-|[<-|[<-|[<-|[]]]]]; apply flat_bin_cls. }
  assert (Hg : forall b spec, In b (bins [2; 4]%Z) ->
                 In spec [cat2 "k" "k"; cat2 "k" "k"] ->
                 _bin_cls flat_forecast spec b.1 b.2 false = Ok ((fun _ _ => 1) spec b)).
  { intros b spec [<-|[]] Hs. cbn in Hs.
    destruct Hs as [<-|[<-|[]]]; apply flat_bin_cls. }
  destruct (KnoxCov_formula flat_forecast "k" "k" "k" "k" [2; 4]%Z 1
              (fun _ _ => 1) (fun _ _ => 1) H0 Hb Ht Hg)
    as (covs & s1 & s2 & Hrun & _ & _ & Hauto).
  exists covs, s1, s2. split; [exact Hrun|].
  exact (Hauto eq_refl eq_refl eq_refl).
Defined.

(** The bin average of the flat auto spectrum ["kk"] over [[2, 4]]. *)
Lemma bin_cls_noise_auto_only_witness :
  _bin_cls flat_forecast "kk" 2 4 false
  = Ok (weighted_mean (np.arange_incl 2 4)
          (map (fun l => flat_spectrum 1 (NInt l)) (np.arange_incl 2 4))).
Proof.
  destruct (six_flat_tables 1) as (_ & Hf & _).
  assert (Hs : np.sum (map IZR (np.arange_incl 2 4)) <> 0).
  { change (np.arange_incl 2 4) with [2; 3; 4]%Z. cbn. lra. }
  exact (proj2 (proj2 (bin_cls_noise_auto_only flat_forecast "k" "k" 2 4
                         (flat_spectrum 1) Hf Hs))).
Defined.

End ForecastExamples.

Section StoreExamples.
Import Theory Spec Examples.


Lemma tail_theory_kk :
  exists f,
    _gCl tail_theory !! "kk"%string = Some f /\
    edge_interp [2; 3] [3e-7; 2e-7] 4 false = Ok f /\
    last (below [2; 3] 4 [3e-7; 2e-7]) = Some 2e-7.
Proof.
  assert (Hb : below [2; 3] 4 [3e-7; 2e-7] = [3e-7; 2e-7]).
  { unfold below. cbn [map np.mask_select]. unfold Rltb. Rdec. reflexivity. }
  unfold tail_theory, loadGenericCls.
  destruct (edge_interp [2; 3] [3e-7; 2e-7] 4 false) as [f|e] eqn:E.
  - exists f. cbn [mbind result_bind _gCl]. rewrite lookup_insert_eq, Hb. auto.
  - exfalso. unfold edge_interp in E. cbn [negb] in E. rewrite Hb in E. discriminate.
Qed.

(** C5, at a failing input.  The store holds ["kk"] loaded with
    [fill_zero=False], [lpad = 4] and last sample [fillval = 2e-7].  At
    the integer multipole [8 = 2*lpad] the query returns [0], not
    [fillval/16]: [np.piecewise] gives its output the integer dtype of
    its argument and the tail value is truncated.  At the float [8.0] it
    returns [fillval/16]. *)
Theorem tail_truncated_on_integer_ell :
  gCl tail_theory "kk" (NInt 8) = Ok 0 /\
  gCl tail_theory "kk" (NFloat 8) = Ok (2e-7 / 16) /\
  2e-7 / 16 <> 0.
Proof.
  destruct tail_theory_kk as (f & Hk & Hf & Hlast).
  destruct (edge_interp_tail _ _ _ _ Hf) as (fillval & Hl & Hfloat & Hdouble & _ & Hint).
  assert (fillval = 2e-7) by congruence. subst fillval.
  unfold gCl, gCl_func. cbn [String.length Nat.eqb]. rewrite Hk.
  cbn [mbind result_bind]. split; [|split].
  - rewrite Hint by lra. rewrite Ztrunc_small by lra. reflexivity.
  - rewrite (Hfloat 8) by lra. f_equal. field.
  - lra.
Qed.

(** On a fresh store [gCl("EB", ell)] raises [KeyError]. *)
Lemma gCl_EB_raises :
  gCl Theory.__init__ "EB" (NFloat 2) = Raise KeyError.
Proof.
  unfold gCl, gCl_func, getitem. cbn [String.length Nat.eqb Theory.__init__ _gCl].
  now rewrite !lookup_empty.
Qed.

(** On a fresh store [uCl("EB", ell)] is zero. *)
Lemma parity_odd_lookup_witness : uCl Theory.__init__ "EB" (NFloat 2) = Ok 0.
Proof.
  assert (Hin : In "EB"%string ["EB"; "TB"; "BE"; "BT"]%string) by (cbn; tauto).
  assert (Hmiss : _uCl Theory.__init__ !! "EB"%string = None) by apply lookup_empty.
  exact (proj1 (proj1 (proj1 (parity_odd_lookup Theory.__init__ (NFloat 2)) "EB"%string Hin)
                  Hmiss)).
Defined.

End StoreExamples.

Section NoiseExamples.
Import Noise Spec.

(** With [lknee = 0.0005], positive but below the threshold [1e-3], the
    atmosphere factor of the source is [0], not [(lknee/ell)^(-alpha)]. *)
Lemma noise_small_knee :
  noise_func 1 0 1 (1 / 2000) 1 false 1
  <> Ok ((Rpower (1 / 2000 / 1) (- 1) + 1) * (1 * PI / (180 * 60)) ^ 2
         * exp ((0 / 60 * (PI / 180)) ^ 2 * 1 ^ 2 / (8 * ln 2))).
Proof.
  rewrite noise_func_eval by (lra || discriminate).
  unfold atmosphere_factor. destruct (Rlt_dec 1e-3 (1 / 2000)) as [H|_]; [lra|].
  intros E.
  assert (E' : (0 + 1) * (1 * PI / (180 * 60)) ^ 2 * 1
               * exp ((0 / 60 * (PI / 180)) ^ 2 * 1 ^ 2 / (8 * ln 2))
               = (Rpower (1 / 2000 / 1) (- 1) + 1) * (1 * PI / (180 * 60)) ^ 2
                 * exp ((0 / 60 * (PI / 180)) ^ 2 * 1 ^ 2 / (8 * ln 2))) by congruence.
  pose proof (exp_pos ((0 / 60 * (PI / 180)) ^ 2 * 1 ^ 2 / (8 * ln 2))) as He.
  pose proof PI_RGT_0 as Hpi.
  assert (Hp : 0 < Rpower (1 / 2000 / 1) (- 1)) by (unfold Rpower; apply exp_pos).
  assert (Hw : 0 < (1 * PI / (180 * 60)) ^ 2).
  { apply pow_lt. apply Rdiv_lt_0_compat; lra. }
  set (w := (1 * PI / (180 * 60)) ^ 2) in *.
  set (b := exp ((0 / 60 * (PI / 180)) ^ 2 * 1 ^ 2 / (8 * ln 2))) in *.
  set (a := Rpower (1 / 2000 / 1) (- 1)) in *.
  assert (0 < a * w * b) by (apply Rmult_lt_0_compat; [apply Rmult_lt_0_compat|]; assumption).
  assert ((a + 1) * w * b = a * w * b + w * b) by ring.
  assert ((0 + 1) * w * 1 * b = w * b) by ring.
  lra.
Qed.

(** The noise model at [ell = 1], [lknee = 1], [alpha = 1]. *)
Lemma noise_func_formula_witness :
  noise_func 1 1 1 1 1 false 1
  = Ok ((atmosphere_factor 1 1 1 + 1) * (1 * PI / (180 * 60)) ^ 2 * 1
        * exp ((1 / 60 * (PI / 180)) ^ 2 * 1 ^ 2 / (8 * ln 2))).
Proof.
  assert (H0 : 0 < 1) by lra.
  assert (H1 : false = true -> 1 <> 0) by discriminate.
  exact (proj1 (noise_func_formula 1 1 1 1 1 false 1 H0 H1)).
Defined.

End NoiseExamples.
(** ** Parameters *)

Section ParameterExamples.
Import CosmoParams Examples.

Lemma frac_params_init :
  __init__ frac_params toy_consts
  = Ok (<["TCMBmuK"%string := 2.7255 * 1e6]> toy_consts, frac_derived).
Proof. reflexivity. Qed.

(** The fractions [om = 0.3], [ob = 0.05] at [H0 = 70], given back as
    the physical densities they imply. *)
Lemma params_reparametrise_witness :
  __init__ (<["omch2"%string := omch2 frac_derived]>
              (<["ombh2"%string := ombh2 frac_derived]> frac_params)) toy_consts
  = Ok (<["TCMBmuK"%string := 2.7255 * 1e6]> toy_consts, frac_derived).
Proof.
  assert (Hh : H0 frac_derived <> 0) by (cbn; lra).
  exact (proj1 (params_reparametrise frac_params toy_consts _ frac_derived
                  frac_params_init Hh) eq_refl eq_refl).
Defined.

(** ['omch2'] added to parameters that hold no ['ombh2']. *)
Lemma params_omch2_needs_ombh2_witness :
  __init__ (<["omch2"%string := 0.12]> frac_params) toy_consts
  = __init__ (delete "omch2"%string frac_params) toy_consts.
Proof. exact (params_omch2_needs_ombh2 frac_params toy_consts 0.12 eq_refl). Defined.

End ParameterExamples.

(** ** Builders *)

Section BuilderExamples.
Import Limber Spec Examples.

Lemma toy_grid : zs toy0 = [1; 2] /\ zs toy1 = [1; 2].
Proof. cbn. split; repeat f_equal; lra. Qed.

Lemma toy_grid_length : length (zs toy0) = 2%nat /\ length (zs toy1) = 2%nat.
Proof. destruct toy_grid as [-> ->]. split; reflexivity. Qed.

(** The tag ["p"] of the worked example is taken. *)
Lemma builders_reject_tag_witness :
  addDeltaNz "p" 4 None None false toy1 = (Raise AssertionError, toy1).
Proof.
  assert (H : "p"%string = "cmb"%string \/
              (false = false /\ odict.mem "p" (kernels toy1) = true))
    by (right; split; reflexivity).
  exact (proj1 (builders_reject_tag "p" false toy1 H) 4 None None).
Defined.

(** A biased delta-function source ["g"] on the toy grid. *)
Lemma biased_delta_poisons_witness :
  (addDeltaNz "g" 1 (Some 1) None false toy0).1 = Raise AssertionError /\
  (generateCls [1] false 0 (addDeltaNz "g" 1 (Some 1) None false toy0).2).1
  = Raise KeyError.
Proof.
  destruct toy0_ready as (Ha & Hw & Hp).
  assert (H1 : "g"%string <> "cmb"%string) by discriminate.
  assert (H2 : false = true \/ odict.mem "g" (kernels toy0) = false)
    by (right; reflexivity).
  assert (H3 : zs toy0 <> []) by (rewrite (proj1 toy_grid); discriminate).
  assert (H4 : [1] <> @nil R) by discriminate.
  destruct (biased_delta_poisons toy0 "g" 1 1 None false [1] false 0
              H1 H2 Ha Hw Hp H3 H4) as (R1 & _ & R3).
  exact (conj R1 R3).
Defined.

(** Galaxies with unit bias between redshift 0 and 3 on the toy grid. *)
Lemma step_counts_window_witness :
  exists self' k W,
    addStepNz "g" 0 3 (Some 1) None None false toy0 = (Ok tt, self') /\
    odict.get "g" (kernels self') = Some k /\
    k_W k = Some W /\ k_type k = Some counts /\ length W = length (zs toy0).
Proof.
  assert (H1 : "g"%string <> "cmb"%string) by discriminate.
  assert (H2 : false = true \/ odict.mem "g" (kernels toy0) = false)
    by (right; reflexivity).
  assert (H3 : 0 < 3) by lra.
  destruct (step_counts_window toy0 "g" 0 3 1 None false H1 H2 H3)
    as (self' & k & W & R1 & R2 & R3 & R4 & _ & _ & R7 & _).
  exists self', k, W. exact (conj R1 (conj R2 (conj R3 (conj R4 R7)))).
Defined.

(** Sources between redshift 0 and 1.5, integrated with two points. *)
Lemma step_lensing_window_zero_witness :
  exists self' k (retvals W : list R),
    addStepNz "s" 0 1.5 None None (Some 2%nat) false toy0 = (Ok tt, self') /\
    odict.get "s" (kernels self') = Some k /\
    k_W k = Some W /\ k_type k = Some lensing /\
    length retvals = length (chis toy0).
Proof.
  destruct toy0_ready as (Ha & _ & _).
  assert (H1 : "s"%string <> "cmb"%string) by discriminate.
  assert (H2 : false = true \/ odict.mem "s" (kernels toy0) = false)
    by (right; reflexivity).
  assert (H3 : 0 < 1.5) by lra.
  assert (H4 : (2 <= length (zs toy0))%nat) by (rewrite (proj1 toy_grid_length); lia).
  destruct (step_lensing_window_zero toy0 "s" 0 1.5 2 false H1 H2 H3 Ha H4)
    as (self' & k & retvals & W & R1 & R2 & _ & R4 & R5 & R6 & _).
  exists self', k, retvals, W. exact (conj R1 (conj R2 (conj R4 (conj R5 R6)))).
Defined.

(** On the toy background the surface of last scattering is at distance
    and redshift 3. *)
Lemma delta_at_last_scattering_witness :
  exists self' k kcmb W,
    addDeltaNz "p" 3 None None false toy0 = (Ok tt, self') /\
    odict.get "p" (kernels self') = Some k /\
    odict.get "cmb" (kernels self') = Some kcmb /\
    k_W k = Some W /\ k_W kcmb = Some W.
Proof.
  assert (H0 : (4 <= 4)%nat) by lia.
  assert (H1 : "p"%string <> "cmb"%string) by discriminate.
  assert (H2 : chistar (__init__ toy_cosmo 4 1000 false None) <> 0) by (cbn; lra).
  assert (H3 : comoving_radial_distance (results toy_cosmo) 3
               = chistar (__init__ toy_cosmo 4 1000 false None)) by (cbn; lra).
  assert (H4 : forall z, In z (zs (__init__ toy_cosmo 4 1000 false None)) -> z <= 3).
  { intros z Hz. change (__init__ toy_cosmo 4 1000 false None) with toy0 in Hz.
    rewrite (proj1 toy_grid) in Hz. destruct Hz as [<- | [<- | []]]; lra. }
  destruct (delta_at_last_scattering toy_cosmo 4 1000 false None "p" 3 H0 H1 H2 H3 H4)
    as (self' & k & kcmb & W & wz & R1 & R2 & R3 & R4 & R5 & _).
  exists self', k, kcmb, W. exact (conj R1 (conj R2 (conj R3 (conj R4 R5)))).
Defined.

Lemma toy_histogram :
  length ([0; 1; 2] : list R) = S (length ([1; 3] : list R)) /\
  (2 <= length ([1; 3]%R : list R))%nat /\
  increasing [0; 1; 2] /\
  np.dot (np.vsub (np.from1 [0; 1; 2]) (np.upto_1 [0; 1; 2])) [1; 3] <> 0.
Proof.
  split; [reflexivity|]. split; [cbn; lia|]. split; [cbn; lra|].
  cbn. lra.
Qed.

(** A histogram with the edges [0, 1, 2] and the counts [1, 3]. *)
Lemma addNz_registers_normalised_dndz_witness :
  exists k p,
    odict.get "g" (kernels (addNz "g" [0; 1; 2] [1; 3] None None (Some 3%nat) false toy0).2)
    = Some k /\
    k_dndz k = Some (dndz_func p) /\
    np.dot (np.vsub (np.from1 [0; 1; 2]) (np.upto_1 [0; 1; 2]))
      (map p (map (fun s => s / 2) (np.vadd (np.from1 [0; 1; 2]) (np.upto_1 [0; 1; 2]))))
    = 1.
Proof.
  destruct toy_histogram as (L & L2 & Hinc & Hnorm).
  assert (H1 : "g"%string <> "cmb"%string) by discriminate.
  assert (H2 : false = true \/ odict.mem "g" (kernels toy0) = false)
    by (right; reflexivity).
  destruct (addNz_registers_normalised_dndz toy0 "g" [0; 1; 2] [1; 3] None None
              (Some 3%nat) false H1 H2 L L2 Hinc Hnorm)
    as (k & p & R1 & R2 & _ & _ & _ & R6 & _).
  exists k, p. exact (conj R1 (conj R2 R6)).
Defined.

(** The same histogram with the counts doubled. *)
Lemma addNz_scale_invariant_witness :
  addNz "g" [0; 1; 2] (map (fun v => 2 * v) [1; 3]) None None (Some 3%nat) false toy0
  = addNz "g" [0; 1; 2] [1; 3] None None (Some 3%nat) false toy0.
Proof.
  destruct toy_histogram as (_ & _ & _ & Hnorm).
  assert (Hc : 2 <> 0) by lra.
  exact (addNz_scale_invariant toy0 "g" [0; 1; 2] [1; 3] None None (Some 3%nat) false 2
           Hc Hnorm).
Defined.

End BuilderExamples.

(** ** Spectra of the worked example *)

Section RegenerateExamples.
Import Limber Spec Examples.

(** Two calls on the worked example, the second one auto spectra only. *)
Lemma generateCls_last_call_wins_witness :
  generateCls [2] true 0 (generateCls [1] false 0 toy1).2 = generateCls [2] true 0 toy1.
Proof.
  destruct toy1_ready as (Ha & Hw & Hp & _).
  assert (Hz : zs toy1 <> []) by (rewrite (proj2 toy_grid); discriminate).
  exact (generateCls_last_call_wins toy1 [1] [2] false true 0 0 Ha Hw Hp Hz).
Defined.

(** The toy background built with [skipPower] and a power spectrum of
    its own, against the same background with the CAMB power. *)
Lemma deferred_power_ignores_override_witness :
  getCl (generateCls [1] false 0
           (__init__ toy_cosmo 4 1000 true (Some (fun _ _ => 2)))).2 "cmb" "cmb"
  = getCl (generateCls [1] false 0 (__init__ toy_cosmo 4 1000 false None)).2 "cmb" "cmb".
Proof.
  assert (H : (4 <= 4)%nat) by lia.
  exact (deferred_power_ignores_override toy_cosmo 4 1000 (Some (fun _ _ => 2)) [1] false 0
           "cmb" "cmb" H).
Defined.

(** The grid of the worked example ends at redshift 2. *)
Lemma generateCls_zmin_beyond_grid_witness :
  exists m,
    Clmatrix (generateCls [1] false 5 toy1).2 = Some m /\
    forall key cl x, m !! key = Some cl -> In x cl -> x = 0.
Proof.
  destruct toy1_ready as (Ha & Hw & Hp & _).
  assert (Hz : zs toy1 <> []) by (rewrite (proj2 toy_grid); discriminate).
  assert (H5 : forall z, In z (zs toy1) -> z < 5).
  { intros z Hin. rewrite (proj2 toy_grid) in Hin. destruct Hin as [<- | [<- | []]]; lra. }
  destruct (generateCls_zmin_beyond_grid toy1 [1] false 5 Ha Hw Hp Hz H5)
    as (m & R1 & _ & R3).
  exists m. exact (conj R1 R3).
Defined.

(** A source ["q"] registered after the spectra of the worked example
    were generated. *)
Lemma Clmatrix_stale_until_regenerated_witness :
  getCl (addDeltaNz "q" 2 None None false (generateCls [1] false 0 toy1).2).2 "q" "q"
  = Raise KeyError.
Proof.
  destruct toy1_ready as (Ha & Hw & Hp & Hpr).
  destruct toy1_tags as [Hnd Hcf].
  assert (H2 : (2 <= length (zs toy1))%nat) by (rewrite (proj2 toy_grid_length); lia).
  assert (H3 : "q"%string <> "cmb"%string) by discriminate.
  assert (H4 : no_comma "q" = true) by reflexivity.
  assert (H5 : odict.mem "q" (kernels toy1) = false) by reflexivity.
  exact (proj1 (proj2 (Clmatrix_stale_until_regenerated toy1 [1] false 0 (fun _ _ => 1)
                         "q" 2 Ha Hw Hp H2 Hpr Hnd Hcf H3 H4 H5))).
Defined.

End RegenerateExamples.

(** ** Round trips through the spectrum store *)

Section RoundTripExamples.
Import Theory Spec Examples.

Lemma two_samples (lpad : R) (A : Type) (a b : A) :
  3 < lpad -> below [2; 3] lpad [a; b] = [a; b].
Proof.
  intros H. unfold below. cbn [map np.mask_select]. unfold Rltb. Rdec. reflexivity.
Qed.

Lemma two_samples_checked (lpad : R) :
  3 < lpad ->
  length ([2; 3] : list R) = length ([1; 2] : list R) /\
  (2 <= length (below [2; 3]%R lpad ([2; 3]%R : list R)))%nat /\
  increasing [2; 3].
Proof.
  intros H. split; [reflexivity|]. split; [rewrite (two_samples lpad R 2 3 H); cbn; lia|].
  cbn. lra.
Qed.

(** The unlensed temperature spectrum, read back in either letter case. *)
Lemma loadCls_then_Cl_witness :
  exists self' f,
    loadCls Theory.__init__ [2; 3] [1; 2] "TT" false 9000 true = Ok self' /\
    edge_interp [2; 3] [1; 2] 9000 true = Ok f /\
    _Cl self' "tt" (NFloat 2) false = Ok (f (NFloat 2)).
Proof.
  destruct (two_samples_checked 9000) as (L & L2 & _); [lra|].
  assert (H1 : validateMapType "TT" = Ok tt) by reflexivity.
  assert (H2 : "TT"%string <> "ET"%string) by discriminate.
  destruct (loadCls_then_Cl Theory.__init__ [2; 3] [1; 2] "TT" false 9000 true _
              H1 H2 L L2 eq_refl) as (self' & R1 & R2 & _).
  exists self', (fun x => np.interp1d (below [2; 3] 9000 [2; 3]) (below [2; 3] 9000 [1; 2]) 0
                            (num_val x)).
  split; [exact R1|]. split; [reflexivity|]. exact (R2 "tt"%string (NFloat 2) eq_refl).
Defined.

(** The same spectrum loaded under the lower-case code. *)
Lemma loadCls_unreadable_code_witness :
  exists self',
    loadCls Theory.__init__ [2; 3] [1; 2] "tt" false 9000 true = Ok self' /\
    _Cl self' "tt" (NFloat 2) false = Raise KeyError.
Proof.
  destruct (two_samples_checked 9000) as (L & L2 & _); [lra|].
  assert (H1 : validateMapType (upper "tt") = Ok tt) by reflexivity.
  assert (H2 : lookup_key "tt" <> "tt"%string) by discriminate.
  assert (H3 : (if false then _lCl Theory.__init__ else _uCl Theory.__init__)
               !! lookup_key "tt" = None) by reflexivity.
  destruct (loadCls_unreadable_code Theory.__init__ [2; 3] [1; 2] "tt" false 9000 true _
              H1 H2 H3 L L2 eq_refl) as (self' & R1 & _ & R3).
  exists self'. exact (conj R1 (R3 (NFloat 2))).
Defined.

(** The cross spectrum ["kg"], asked for as ["gk"]. *)
Lemma gCl_reversed_key_witness :
  exists self' f,
    loadGenericCls Theory.__init__ [2; 3] [1; 2] "kg" 9000 true = Ok self' /\
    edge_interp [2; 3] [1; 2] 9000 true = Ok f /\
    gCl self' "gk" (NFloat 2) = Ok (f (NFloat 2)).
Proof.
  destruct (two_samples_checked 9000) as (L & L2 & _); [lra|].
  assert (H1 : String.length "kg" <> 3%nat) by discriminate.
  assert (H2 : _gCl Theory.__init__ !! String.rev "kg" = None \/
               String.rev "kg" = "kg"%string) by (left; reflexivity).
  destruct (gCl_reversed_key Theory.__init__ [2; 3] [1; 2] "kg" 9000 true _
              H1 H2 L L2 eq_refl) as (self' & R1 & R2).
  exists self', (fun x => np.interp1d (below [2; 3] 9000 [2; 3]) (below [2; 3] 9000 [1; 2]) 0
                            (num_val x)).
  split; [exact R1|]. split; [reflexivity|]. exact (proj2 (R2 (NFloat 2))).
Defined.

(** A generic spectrum named ["kgs"]. *)
Lemma gCl_three_letter_key_witness :
  exists self' f,
    loadGenericCls Theory.__init__ [2; 3] [1; 2] "kgs" 9000 true = Ok self' /\
    _gCl self' !! "kgs"%string = Some f /\
    gCl self' "kgs" (NFloat 2) = Raise ValueError.
Proof.
  destruct (two_samples_checked 9000) as (L & L2 & _); [lra|].
  assert (H1 : String.length "kgs" = 3%nat) by reflexivity.
  destruct (gCl_three_letter_key Theory.__init__ [2; 3] [1; 2] "kgs" 9000 true _
              H1 L L2 eq_refl) as (self' & R1 & R2 & _ & R4).
  assert (Hc : ~ In "k"%char ["u"; "U"; "l"; "L"]%char).
  { intros [E | [E | [E | [E | []]]]]; discriminate E. }
  exists self', (fun x => np.interp1d (below [2; 3] 9000 [2; 3]) (below [2; 3] 9000 [1; 2]) 0
                            (num_val x)).
  split; [exact R1|]. split; [exact R2|].
  exact (R4 "k"%char "gs"%string (NFloat 2) eq_refl Hc).
Defined.

(** Two samples, read at [lpad] and beyond. *)
Lemma generic_spectrum_fill_zero_witness :
  exists self',
    loadGenericCls Theory.__init__ [2; 3] [1; 2] "kk" 9000 true = Ok self' /\
    gCl self' "kk" (NFloat 3) = Ok 2 /\
    gCl self' "kk" (NFloat 9000) = Ok 0.
Proof.
  destruct (two_samples_checked 9000) as (L & L2 & Hinc); [lra|].
  assert (H1 : String.length "kk" <> 3%nat) by discriminate.
  destruct (generic_spectrum_fill_zero Theory.__init__ [2; 3] [1; 2] "kk" 9000
              H1 L Hinc L2) as (self' & R1 & R2 & R3 & _).
  exists self'. split; [exact R1|]. split.
  - apply (R2 1%nat 3 2); [reflexivity | reflexivity | lra].
  - apply R3. cbn. lra.
Defined.

(** Two samples below [lpad = 4], read between the last sample and
    [lpad]. *)
Lemma generic_spectrum_tail_gap_witness :
  exists self',
    loadGenericCls Theory.__init__ [2; 3] [1; 2] "kk" 4 false = Ok self' /\
    gCl self' "kk" (NFloat 3.5) = Ok 0.
Proof.
  destruct (two_samples_checked 4) as (L & L2 & Hinc); [lra|].
  assert (H1 : String.length "kk" <> 3%nat) by discriminate.
  destruct (generic_spectrum_tail_gap Theory.__init__ [2; 3] [1; 2] "kk" 4
              H1 L Hinc L2) as (self' & fillval & lastell & R1 & _ & R3 & _ & R5 & _).
  exists self'. split; [exact R1|].
  apply R5. rewrite (two_samples 4 R 2 3) in R3 by lra. injection R3 as <-. lra.
Defined.

(** A single sample at [ell = 5] with [lpad = 4]. *)
Lemma tail_needs_sample_below_lpad_witness :
  loadGenericCls Theory.__init__ [5] [1] "kk" 4 false = Raise IndexError.
Proof.
  assert (H : forall l, In l [5] -> 4 <= l) by (intros l [<- | []]; lra).
  exact (proj1 (tail_needs_sample_below_lpad Theory.__init__ [5] [1] 4 H) "kk"%string).
Defined.

End RoundTripExamples.

(** ** Covariance and signal-to-noise of the flat forecast *)

Section SignalToNoiseExamples.
Import Theory Forecast Spec Examples.

Lemma flat_forecast_gCl (key : string) :
  _gCl (theory flat_forecast) !! key
  = (<["sg"%string := flat_spectrum 1]>
       (<["ks"%string := flat_spectrum 1]>
          (<["kg"%string := flat_spectrum 1]>
             (<["ss"%string := flat_spectrum 1]>
                (<["gg"%string := flat_spectrum 1]>
                   (<["kk"%string := flat_spectrum 1]>
                      (∅ : gmap string (num -> R)))))))) !! key.
Proof.
  unfold flat_forecast. repeat rewrite (proj1 (flat_load_tables _ _ _ _)). reflexivity.
Qed.

Lemma flat_forecast_one_order : one_order (theory flat_forecast).
Proof.
  intros a b Hab. rewrite !flat_forecast_gCl.
  destruct (String.eqb (cat2 a b) "sg") eqn:E1;
    [apply String.eqb_eq in E1; injection E1 as -> ->; right; reflexivity|].
  destruct (String.eqb (cat2 a b) "ks") eqn:E2;
    [apply String.eqb_eq in E2; injection E2 as -> ->; right; reflexivity|].
  destruct (String.eqb (cat2 a b) "kg") eqn:E3;
    [apply String.eqb_eq in E3; injection E3 as -> ->; right; reflexivity|].
  apply String.eqb_neq in E1, E2, E3. left.
  rewrite !lookup_insert_ne; [reflexivity | | | | | |]; try congruence;
    intros E; injection E as <- <-; contradiction.
Qed.

Lemma flat_bin_cls_any (spec : string) (noise : bool) :
  In spec ["kk"; "gg"; "kg"; "gk"]%string ->
  _bin_cls flat_forecast spec 2 4 noise = Ok 1.
Proof.
  intros Hin.
  assert (Hf : gCl_func (theory flat_forecast) spec = Ok (flat_spectrum 1)).
  { unfold gCl_func, getitem. cbn in Hin.
    destruct Hin as [<- | [<- | [<- | [<- | []]]]];
      cbn [String.length Nat.eqb]; rewrite ?flat_forecast_gCl; reflexivity. }
  rewrite (bin_cls_unfold flat_forecast spec 2 4 noise (flat_spectrum 1) Hf).
  assert (He : np.arange_incl 2 4 = [2; 3; 4]%Z) by reflexivity.
  rewrite He.
  assert (Hn : bin_noise flat_forecast spec noise [2; 3; 4]%Z = Ok [0; 0; 0]).
  { destruct (six_flat_tables 1) as (_ & _ & Nk & Ng & _).
    cbv zeta in Nk, Ng. fold flat_forecast in Nk, Ng.
    unfold bin_noise, getitem. cbn in Hin.
    destruct Hin as [<- | [<- | [<- | [<- | []]]]];
      cbn [unpack2 mbind result_bind fst snd];
      destruct noise; cbn [andb]; try reflexivity.
    - change (Ascii.eqb "k" "k") with true. cbv iota. rewrite Nk.
      cbn [mbind result_bind forM]. rewrite !zero_noise_val by (cbn; lra). reflexivity.
    - change (Ascii.eqb "g" "g") with true. cbv iota. rewrite Ng.
      cbn [mbind result_bind forM]. rewrite !zero_noise_val by (cbn; lra). reflexivity. }
  rewrite Hn. cbn [mbind result_bind map zip_with np.sum fold_right].
  rewrite !flat_spectrum_val by (cbn; lra).
  rewrite fdiv_ok by lra. f_equal. field.
Qed.

Lemma flat_KnoxCov_kk_gg :
  exists covs sigs1 sigs2,
    KnoxCov flat_forecast (cat2 "k" "k") (cat2 "g" "g") [2; 4]%Z 1
    = Ok (covs, sigs1, sigs2).
Proof.
  unfold KnoxCov. cbn [unpack2 cat2 mbind result_bind fst snd].
  change (bins [2; 4]%Z) with [(2, 4)%Z]. cbn [forM].
  unfold KnoxCov_bin. cbv zeta. cbn [fst snd cat2].
  rewrite !flat_bin_cls_any by (cbn; tauto). cbn [mbind result_bind].
  rewrite fdiv_ok by lra. cbn [mbind result_bind].
  rewrite fdiv_ok by lra. cbn [mbind result_bind].
  rewrite fdiv_ok by lra. cbn [mbind result_bind].
  eexists _, _, _. reflexivity.
Qed.

(** The covariance of ["kk"] with ["gg"] on the bin [[2, 4]], and of
    ["gg"] with ["kk"], which reads the cross spectrum as ["gk"]. *)
Lemma KnoxCov_symmetric_witness :
  exists covs sigs1 sigs2,
    KnoxCov flat_forecast (cat2 "k" "k") (cat2 "g" "g") [2; 4]%Z 1
    = Ok (covs, sigs1, sigs2) /\
    KnoxCov flat_forecast (cat2 "g" "g") (cat2 "k" "k") [2; 4]%Z 1
    = Ok (covs, sigs2, sigs1).
Proof.
  destruct flat_KnoxCov_kk_gg as (covs & sigs1 & sigs2 & Hrun).
  exists covs, sigs1, sigs2. split; [exact Hrun|].
  exact (KnoxCov_symmetric flat_forecast "k" "k" "g" "g" [2; 4]%Z 1 covs sigs1 sigs2
           flat_forecast_one_order Hrun).
Defined.

(** The flat spectrum ["kk"] without noise reaches the limit. *)
Lemma sn_cosmic_variance_limit_witness :
  exists signoise errs,
    sn flat_forecast [2; 4]%Z 1 (cat2 "k" "k") = Ok (signoise, errs) /\
    signoise = sqrt (cosmic_variance_limit [2; 4]%Z 1).
Proof.
  destruct (six_flat_tables 1) as (_ & Hf & Nk & _).
  cbv zeta in Hf, Nk. fold flat_forecast in Hf, Nk.
  assert (H0 : 0 < 1) by lra.
  assert (Hb : forall b, In b (bins [2; 4]%Z) -> (0 <= b.1 < b.2)%Z).
  { intros b [<-|[]]. cbn. lia. }
  assert (Hl : forall b l, In b (bins [2; 4]%Z) -> In l (np.arange_incl b.1 b.2) ->
                 zero_noise (NInt l) = Ok ((fun _ => 0) l) /\ 0 <= (fun _ : BinNums.Z => 0) l /\
                 0 <= flat_spectrum 1 (NInt l)).
  { intros b l [<-|[]] Hin.
    change (np.arange_incl (2, 4)%Z.1 (2, 4)%Z.2) with [2; 3; 4]%Z in Hin.
    assert (Hr : 2 <= num_val (NInt l) <= 1000)
      by (destruct Hin as [<- | [<- | [<- | []]]]; cbn; lra).
    rewrite zero_noise_val, flat_spectrum_val by exact Hr.
    split; [reflexivity | lra]. }
  assert (Hz : forall b l, In b (bins [2; 4]%Z) -> In l (np.arange_incl b.1 b.2) ->
                 (fun _ : BinNums.Z => 0) l = 0 /\ 0 < flat_spectrum 1 (NInt l)).
  { intros b l [<-|[]] Hin.
    change (np.arange_incl (2, 4)%Z.1 (2, 4)%Z.2) with [2; 3; 4]%Z in Hin.
    assert (Hr : 2 <= num_val (NInt l) <= 1000)
      by (destruct Hin as [<- | [<- | [<- | []]]]; cbn; lra).
    rewrite flat_spectrum_val by exact Hr. split; [reflexivity | lra]. }
  destruct (sn_cosmic_variance_limit flat_forecast "k" [2; 4]%Z 1 (flat_spectrum 1)
              zero_noise (fun _ => 0) H0 Hb Hf Nk Hl)
    as (signoise & errs & R1 & _ & _ & R4).
  exists signoise, errs. exact (conj R1 (R4 Hz)).
Defined.

End SignalToNoiseExamples.

(** ** Noise curves at [ell = 100] *)

Section NoiseBoundExamples.
Import Noise Spec.

(** A beam of 1.4 arcmin and no atmosphere. *)
Lemma noise_floor_and_beam_witness :
  exists w n,
    white_noise_with_atm_func 100 1 0 0 true 2.7255 = Ok w /\
    noise_func 100 1.4 1 0 0 true 2.7255 = Ok n /\
    w <= n.
Proof.
  assert (H1 : 0 < 100) by lra.
  assert (H2 : 2.7255 <> 0) by lra.
  destruct (noise_floor_and_beam 100 1.4 1 0 0 2.7255 true H1 H2)
    as (w & n & R1 & R2 & _ & R4 & _).
  exists w, n. exact (conj R1 (conj R2 R4)).
Defined.

(** A knee at [ell = 1000] with the exponent [alpha = 0]. *)
Lemma noise_alpha_zero_doubles_witness :
  exists n0,
    noise_func 100 1.4 1 0 0 true 2.7255 = Ok n0 /\
    noise_func 100 1.4 1 1000 0 true 2.7255 = Ok (2 * n0).
Proof.
  assert (H1 : 0 < 100) by lra.
  assert (H2 : 2.7255 <> 0) by lra.
  assert (H3 : 1000 > 1e-3) by lra.
  exact (noise_alpha_zero_doubles 100 1.4 1 1000 2.7255 true H1 H2 H3).
Defined.

End NoiseBoundExamples.

Section ShotNoiseExamples.
Import Theory Forecast Spec Examples.

(** One galaxy per unit area on the flat spectrum, bin [[2, 4]]. *)
Lemma shot_noise_adds_to_bandpower_witness :
  exists self' S,
    loadGG (Forecast.__init__ None) [2; 1000] [1; 1] 1 = Ok self' /\
    _bin_cls self' "gg" 2 4 false = Ok S /\
    _bin_cls self' "gg" 2 4 true = Ok (S + 1 / (1 * 1.18e7)).
Proof.
  assert (H1 : length ([2; 1000]%R : list R) = length ([1; 1]%R : list R)) by reflexivity.
  assert (H2 : (2 <= length (below [2; 1000]%R 9000 ([2; 1000]%R : list R)))%nat).
  { unfold below. cbn [map np.mask_select]. unfold Rltb. Rdec. cbn. lia. }
  assert (H3 : 1 <> 0) by lra.
  assert (H4 : (0 <= 2 < 4)%Z) by lia.
  exact (proj1 (shot_noise_adds_to_bandpower (Forecast.__init__ None) [2; 1000] [1; 1] 1
                  None 2 4 H1 H2 H3 H4)).
Defined.

End ShotNoiseExamples.

Section BiasScalingExamples.
Import Limber Spec Examples.

(** Galaxies between redshift 0 and 3 on the worked example, with bias
    2, against the source ["p"]. *)
Lemma counts_spectra_scale_with_bias_witness :
  exists auto cross,
    getCl (generateCls [1] false 0
             (addStepNz "g" 0 3 (Some 1) None None false toy1).2).2 "g" "g" = Ok auto /\
    getCl (generateCls [1] false 0
             (addStepNz "g" 0 3 (Some 1) None None false toy1).2).2 "p" "g" = Ok cross /\
    getCl (generateCls [1] false 0
             (addStepNz "g" 0 3 (Some 2) None None false toy1).2).2 "g" "g"
    = Ok (map (fun c => 2 ^ 2 * c) auto) /\
    getCl (generateCls [1] false 0
             (addStepNz "g" 0 3 (Some 2) None None false toy1).2).2 "p" "g"
    = Ok (map (fun c => 2 * c) cross).
Proof.
  destruct toy1_ready as (Ha & Hw & Hp & Hpr).
  destruct toy1_tags as [Hnd Hcf].
  assert (Hz : zs toy1 <> []) by (rewrite (proj2 toy_grid); discriminate).
  assert (H1 : "g"%string <> "cmb"%string) by discriminate.
  assert (H2 : no_comma "g" = true) by reflexivity.
  assert (H3 : odict.mem "g" (kernels toy1) = false) by reflexivity.
  assert (H4 : In "p"%string (odict.keys (kernels toy1)))
    by (rewrite toy1_keys; cbn; tauto).
  assert (H5 : 0 < 3) by lra.
  exact (counts_spectra_scale_with_bias toy1 "g" "p" 0 3 2 None [1] 0 (fun _ _ => 1)
           Ha Hw Hp Hz Hpr Hnd Hcf H1 H2 H3 H4 H5).
Defined.

End BiasScalingExamples.
